(** * Numeric expression kernel of sql/item_func.cc

    A shallow embedding of the type resolution and of the per-row
    evaluation of the arithmetic operators ([Item_func_plus],
    [Item_func_div], [Item_func_mod], [Item_func_neg], [Item_func_round])
    and of [Item_func::eq], followed by the properties of the numeric
    kernel stated over that embedding.

    Conventions.  A [longlong] is a [Z] in [[-2^63, 2^63)]; a cast to
    [ulonglong] is [to_ull], a cast (or a wrapped signed result) back to
    [longlong] is [to_ll].  A [double] is a binary64 [spec_float].  What
    the operators read from an operand through [args[i]->...] is the
    record [Item]; the members of the operator node itself are the record
    [Item_func].  The session ([THD]) is threaded explicitly. *)

From Stdlib Require Import ZArith Lia Bool List String SpecFloat Permutation.
Import ListNotations.
Local Open Scope Z_scope.
Local Open Scope bool_scope.
#[local] Set Warnings "-register-all".

(** ** 64-bit integers *)

Definition LLONG_MAX : Z := 9223372036854775807.
Definition LLONG_MIN : Z := -9223372036854775808.
Definition ULLONG_MAX : Z := 18446744073709551615.
Definition INT_MAX : Z := 2147483647.
Definition INT_MIN : Z := -2147483648.

(** [(ulonglong) z]: the bit pattern read as an unsigned 64-bit number. *)
Definition to_ull (z : Z) : Z := z mod 2 ^ 64.

(** [(longlong) z], and the value a wrapped 64-bit signed operation leaves. *)
Definition to_ll (z : Z) : Z := (z + 2 ^ 63) mod 2 ^ 64 - 2 ^ 63.

Definition is_longlong (z : Z) : Prop := LLONG_MIN <= z <= LLONG_MAX.
Definition is_ulonglong (z : Z) : Prop := 0 <= z <= ULLONG_MAX.

(** C's [/] and [%] on unsigned operands. *)
Definition udiv (a b : Z) : Z := a / b.
Definition umod (a b : Z) : Z := a mod b.

(** C's [/] on signed operands truncates toward zero. *)
Definition sdiv (a b : Z) : Z := Z.quot a b.

(** ** Result categories *)

Inductive Item_result : Type :=
| STRING_RESULT | REAL_RESULT | INT_RESULT | ROW_RESULT | DECIMAL_RESULT.

Definition Item_result_eqb (a b : Item_result) : bool :=
  match a, b with
  | STRING_RESULT, STRING_RESULT | REAL_RESULT, REAL_RESULT
  | INT_RESULT, INT_RESULT | ROW_RESULT, ROW_RESULT
  | DECIMAL_RESULT, DECIMAL_RESULT => true
  | _, _ => false
  end.

(** The item kinds [Item::type()] that the code under study tells apart. *)
Inductive Item_type : Type :=
| FIELD_ITEM | FUNC_ITEM | INT_ITEM | REAL_ITEM | DECIMAL_ITEM | NULL_ITEM.

Definition Item_type_eqb (a b : Item_type) : bool :=
  match a, b with
  | FIELD_ITEM, FIELD_ITEM | FUNC_ITEM, FUNC_ITEM | INT_ITEM, INT_ITEM
  | REAL_ITEM, REAL_ITEM | DECIMAL_ITEM, DECIMAL_ITEM
  | NULL_ITEM, NULL_ITEM => true
  | _, _ => false
  end.

(** The field types [Item::field_type()] that resolution tells apart. *)
Inductive enum_field_types : Type :=
| MYSQL_TYPE_LONGLONG | MYSQL_TYPE_NEWDECIMAL | MYSQL_TYPE_DOUBLE
| MYSQL_TYPE_VARCHAR | MYSQL_TYPE_GEOMETRY.

(** Modelled from the spec: the limits of a decimal descriptor
    (precision at most 65, scale at most 30) and the scale 31 that marks
    a floating-point result without a fixed number of decimals; the
    headers that define them are not part of the sources. *)
Definition DECIMAL_MAX_PRECISION : Z := 65.
Definition DECIMAL_MAX_SCALE : Z := 30.
Definition NOT_FIXED_DEC : Z := 31.

(** ** Session and diagnostics *)

Inductive enum_severity_level : Type := SL_NOTE | SL_WARNING | SL_ERROR.

Inductive error_code : Type :=
| ER_DIVISION_BY_ZERO | ER_DATA_OUT_OF_RANGE | ER_WRONG_ARGUMENTS
| WARN_DATA_TRUNCATED | ER_TRUNCATED_WRONG_VALUE
| ER_TRUNCATED_WRONG_VALUE_FOR_FIELD | ER_OUT_OF_RESOURCES.

Record Sql_condition : Type := mk_condition {
  severity : enum_severity_level;
  code : error_code;
  subject : string
}.

(** [sql_mode] is the bit set [thd->variables.sql_mode]; [conditions] is
    the diagnostics area, oldest first. *)
Record THD : Type := mk_THD {
  sql_mode : Z;
  div_precincrement : Z;
  conditions : list Sql_condition
}.

(** Modelled from the spec: the mode flag "error for division by zero"
    is one bit of [sql_mode]; its mask is defined in a header that is
    not part of the sources. *)
Definition MODE_ERROR_FOR_DIVISION_BY_ZERO : Z := 2 ^ 26.

(** Code that reads and updates the session. *)
Definition M (A : Type) : Type := THD -> A * THD.

Definition ret {A : Type} (a : A) : M A := fun thd => (a, thd).

Definition bind {A B : Type} (m : M A) (k : A -> M B) : M B :=
  fun thd => let (a, thd') := m thd in k a thd'.

Notation "x <- m ;; k" := (bind m (fun x => k))
  (at level 61, m at next level, right associativity).

Definition push_condition (c : Sql_condition) : M unit :=
  fun thd => (tt, mk_THD (sql_mode thd) (div_precincrement thd)
                         (conditions thd ++ [c])).

Definition push_warning (l : enum_severity_level) (e : error_code) : M unit :=
  push_condition (mk_condition l e EmptyString).

(** [my_error] raises an error condition: the statement is aborted by the
    host once the evaluation returns. *)
Definition my_error (e : error_code) (s : string) : M unit :=
  push_condition (mk_condition SL_ERROR e s).

Definition is_error_condition (c : Sql_condition) : bool :=
  match severity c with SL_ERROR => true | _ => false end.

(** [thd->is_error()]. *)
Definition is_error (thd : THD) : bool :=
  existsb is_error_condition (conditions thd).

Definition division_warning_enabled (thd : THD) : bool :=
  negb (Z.land (sql_mode thd) MODE_ERROR_FOR_DIVISION_BY_ZERO =? 0).

(** ** The decimal collaborator

    The fixed-point library behind my_decimal.h (decimal.c and the inline
    wrappers of the header) is not part of the sources; the operators
    only call it.  Every primitive returns a status code next to its
    result, and a wrapper reports the status to the session when the
    caller's mask selects it. *)

(** Modelled from the spec: the type [my_decimal] of the missing header
    my_decimal.h, as an exact decimal fraction [unscaled / 10 ^ frac].
    The digit buffer of the library is not modelled: results are
    exact. *)
Record my_decimal : Type := mk_decimal { unscaled : Z; frac : Z }.

(** Modelled from the spec: the status codes of the missing header
    decimal.h (ok, truncated, overflow, division by zero, ...) and the
    mask of the fatal ones. *)
Definition E_DEC_OK : Z := 0.
Definition E_DEC_TRUNCATED : Z := 1.
Definition E_DEC_OVERFLOW : Z := 2.
Definition E_DEC_DIV_ZERO : Z := 4.
Definition E_DEC_BAD_NUM : Z := 8.
Definition E_DEC_OOM : Z := 16.
Definition E_DEC_FATAL_ERROR : Z := 30.

Definition decimal_zero : my_decimal := mk_decimal 0 0.

Definition decimal_is_zero (d : my_decimal) : bool := unscaled d =? 0.

(** [d->sign()]: set for a negative value. *)
Definition decimal_sign (d : my_decimal) : bool := unscaled d <? 0.

(** Modelled from the spec: [decimal_operation_results] and
    [check_result] of the missing my_decimal.h/my_decimal.cc.  The status
    is turned into a diagnostic only under the mask; a division by zero
    selected by the mask is an error. *)
Definition decimal_operation_results (result : Z) : M unit :=
  if result =? E_DEC_OK then ret tt
  else if result =? E_DEC_TRUNCATED then push_warning SL_WARNING WARN_DATA_TRUNCATED
  else if result =? E_DEC_OVERFLOW then
    push_warning SL_WARNING ER_TRUNCATED_WRONG_VALUE
  else if result =? E_DEC_DIV_ZERO then my_error ER_DIVISION_BY_ZERO EmptyString
  else if result =? E_DEC_BAD_NUM then
    push_warning SL_WARNING ER_TRUNCATED_WRONG_VALUE_FOR_FIELD
  else if result =? E_DEC_OOM then my_error ER_OUT_OF_RESOURCES EmptyString
  else ret tt.

Definition check_result (mask result : Z) : M Z :=
  if Z.land result mask =? 0 then ret result
  else (_ <- decimal_operation_results result ;; ret result).

(** Both operands are brought to [f] fractional digits. *)
Definition rescale (d : my_decimal) (f : Z) : Z := unscaled d * 10 ^ (f - frac d).

(** Modelled from the spec: [decimal_div] of the missing decimal.c.  A
    zero divisor is reported before anything else; otherwise the
    quotient has [scale_incr] more fractional digits than the dividend,
    digits beyond that dropped. *)
Definition decimal_div (from1 from2 : my_decimal) (scale_incr : Z)
  : Z * my_decimal :=
  if decimal_is_zero from2 then (E_DEC_DIV_ZERO, decimal_zero)
  else
    let f := frac from1 + scale_incr in
    (E_DEC_OK,
     mk_decimal (Z.quot (unscaled from1 * 10 ^ (f + frac from2 - frac from1))
                        (unscaled from2)) f).

(** Modelled from the spec: [decimal_mod] of the missing decimal.c.  A
    zero divisor is reported before anything else; the remainder takes
    the sign of the dividend. *)
Definition decimal_mod (from1 from2 : my_decimal) : Z * my_decimal :=
  if decimal_is_zero from2 then (E_DEC_DIV_ZERO, decimal_zero)
  else
    let f := Z.max (frac from1) (frac from2) in
    (E_DEC_OK, mk_decimal (Z.rem (rescale from1 f) (rescale from2 f)) f).

(** Division of the unscaled digits by a power of ten: digits dropped
    ([truncate]) or rounded half away from zero. *)
Definition round_div (u k : Z) (truncate : bool) : Z :=
  let q := Z.quot u k in
  if truncate then q
  else if k <=? 2 * Z.abs (Z.rem u k) then q + Z.sgn u else q.

(** Modelled from the spec: [decimal_round] of the missing decimal.c.
    [scale] fractional digits are kept; a negative [scale] rounds to a
    power of ten and leaves no fractional digit. *)
Definition decimal_round (from : my_decimal) (scale : Z) (truncate : bool)
  : Z * my_decimal :=
  if frac from <=? scale then
    (E_DEC_OK, mk_decimal (unscaled from * 10 ^ (scale - frac from)) scale)
  else
    let q := round_div (unscaled from) (10 ^ (frac from - scale)) truncate in
    if 0 <=? scale then (E_DEC_OK, mk_decimal q scale)
    else (E_DEC_OK, mk_decimal (q * 10 ^ (- scale)) 0).

(** Modelled from the spec: the wrappers [my_decimal_div],
    [my_decimal_mod] and [my_decimal_round] of the missing my_decimal.h,
    the primitive followed by [check_result]. *)
Definition my_decimal_div (mask : Z) (a b : my_decimal) (div_scale_inc : Z)
  : M (Z * my_decimal) :=
  let (st, res) := decimal_div a b div_scale_inc in
  st' <- check_result mask st ;; ret (st', res).

Definition my_decimal_mod (mask : Z) (a b : my_decimal) : M (Z * my_decimal) :=
  let (st, res) := decimal_mod a b in
  st' <- check_result mask st ;; ret (st', res).

Definition my_decimal_round (mask : Z) (from : my_decimal) (scale : Z)
  (truncate : bool) : M (Z * my_decimal) :=
  let (st, res) := decimal_round from scale truncate in
  st' <- check_result mask st ;; ret (st', res).

(** Modelled from the spec: [int2my_decimal] of the missing
    my_decimal.h, the integer read with the given signedness. *)
Definition int2my_decimal (i : Z) (unsigned : bool) : my_decimal :=
  mk_decimal (if unsigned then to_ull i else i) 0.

(** Modelled from the spec: [my_decimal2decimal] (a copy) and
    [my_decimal_neg] of the missing my_decimal.h. *)
Definition my_decimal2decimal (from : my_decimal) : my_decimal := from.

Definition my_decimal_neg (d : my_decimal) : my_decimal :=
  mk_decimal (- unscaled d) (frac d).

(** ** Doubles

    A [double] is an IEEE-754 binary64 value; arithmetic rounds to
    nearest, ties to even, at every step (the source keeps intermediate
    results in [volatile double] for this purpose). *)

Definition double : Type := spec_float.

Definition d_mul : double -> double -> double := SFmul 53 1024.
Definition d_div : double -> double -> double := SFdiv 53 1024.
Definition d_eqb : double -> double -> bool := SFeqb.
Definition d_leb : double -> double -> bool := SFleb.
Definition d_opp : double -> double := SFopp.

(** The double nearest to an integer. *)
Definition d_of_Z (z : Z) : double := binary_normalize 53 1024 z 0 false.

Definition d_zero : double := S754_zero false.

Definition d_isinf (x : double) : bool :=
  match x with S754_infinity _ => true | _ => false end.

Definition d_isnan (x : double) : bool :=
  match x with S754_nan => true | _ => false end.

Definition d_isfinite (x : double) : bool := negb (d_isinf x || d_isnan x).

(** The integer [m * 2^e], signed, of a finite double. *)
Definition d_signed (s : bool) (m : positive) : Z :=
  if s then Z.neg m else Z.pos m.

(** An integer of magnitude below 2^53 as a double; a zero keeps the
    sign of the argument it was rounded from. *)
Definition d_integral (s : bool) (n : Z) : double :=
  if n =? 0 then S754_zero s else d_of_Z n.

(** libm's [floor], [ceil] and [rint] (the latter in the default rounding
    mode: to nearest, ties to even). *)
Definition d_floor (x : double) : double :=
  match x with
  | S754_finite s m e =>
      if 0 <=? e then x else d_integral s (d_signed s m / 2 ^ (- e))
  | _ => x
  end.

Definition d_ceil (x : double) : double :=
  match x with
  | S754_finite s m e =>
      if 0 <=? e then x else d_integral s (- ((- d_signed s m) / 2 ^ (- e)))
  | _ => x
  end.

Definition d_rint (x : double) : double :=
  match x with
  | S754_finite s m e =>
      if 0 <=? e then x
      else
        let k := 2 ^ (- e) in
        let q := d_signed s m / k in
        let r := d_signed s m mod k in
        d_integral s
          (match 2 * r ?= k with
           | Lt => q
           | Gt => q + 1
           | Eq => if Z.even q then q else q + 1
           end)
  | _ => x
  end.

(** libm's [fmod]: exact, with the sign of the first argument. *)
Definition d_fmod (x y : double) : double :=
  match x, y with
  | S754_nan, _ | _, S754_nan => S754_nan
  | S754_infinity _, _ => S754_nan
  | _, S754_zero _ => S754_nan
  | _, S754_infinity _ => x
  | S754_zero _, _ => x
  | S754_finite sx mx ex, S754_finite sy my ey =>
      let e := Z.min ex ey in
      let r := Z.rem (d_signed sx mx * 2 ^ (ex - e)) (Z.pos my * 2 ^ (ey - e)) in
      binary_normalize 53 1024 r e sx
  end.

(** Modelled from the spec: the power-of-ten tables are defined outside
    the sources.  [log_10] holds the 309 doubles 1e0 .. 1e308. *)
Definition log_10_elements : Z := 309.

Definition log_10 (i : Z) : double := d_of_Z (10 ^ i).

(** libm's [pow(10.0, n)] for an integral [n >= 0]: it overflows to
    infinity from n = 309 on. *)
Definition pow_10 (n : Z) : double :=
  if n <? 309 then d_of_Z (10 ^ n) else S754_infinity false.

(** Modelled from the spec: [log_10_int] holds the 20 integers
    1 .. 10^19. *)
Definition log_10_int_elements : Z := 20.

Definition log_10_int (i : Z) : Z := 10 ^ i.

(** ** Operands and operator nodes *)

(** What an operator reads from a resolved operand [args[i]]: its static
    attributes and, for the current row, what [val_int()], [val_real()]
    and [val_decimal()] return together with the [null_value] they
    leave. *)
Record Item : Type := mk_Item {
  type : Item_type;
  field_type : enum_field_types;
  result_type : Item_result;
  numeric_context_result_type : Item_result;
  const_item : bool;
  unsigned_flag : bool;
  decimals : Z;
  max_length : Z;
  decimal_precision : Z;
  null_value : bool;
  val_int : Z;
  val_real : double;
  val_decimal : my_decimal
}.

(** The members of the operator node itself that resolution assigns. *)
Record Item_func : Type := mk_Item_func {
  hybrid_type : Item_result;
  this_unsigned_flag : bool;
  this_decimals : Z;
  this_max_length : Z;
  maybe_null : bool
}.

(** ** Overflow reporting

    The operators report an overflow through inline helpers of the
    headers item.h and item_func.h, which are not part of the sources. *)

(** Modelled from the spec: [raise_numeric_overflow] and the three
    [raise_..._overflow] helpers of the missing headers.  An overflow
    raises the error [ER_DATA_OUT_OF_RANGE] naming the type, is fatal to
    the evaluation, and the helper returns 0 (the status, for
    decimals). *)
Definition raise_numeric_overflow (type_name : string) : M unit :=
  my_error ER_DATA_OUT_OF_RANGE type_name.

Definition raise_integer_overflow (this : Item_func) : M Z :=
  _ <- raise_numeric_overflow
         (if this_unsigned_flag this then "BIGINT UNSIGNED" else "BIGINT")%string ;;
  ret 0.

Definition raise_float_overflow : M double :=
  _ <- raise_numeric_overflow "DOUBLE"%string ;; ret d_zero.

Definition raise_decimal_overflow : M Z :=
  _ <- raise_numeric_overflow "DECIMAL"%string ;; ret E_DEC_OVERFLOW.

(** Modelled from the spec: [check_integer_overflow] of the missing
    item_func.h.  As the comment in [Item_func_plus::int_op] says, it
    checks that a (value, unsigned) pair is compatible with the
    [unsigned_flag] of the node: a negative signed value does not fit an
    unsigned node, an unsigned value above [LLONG_MAX] does not fit a
    signed one. *)
Definition check_integer_overflow (this : Item_func) (value : Z)
  (val_unsigned : bool) : M Z :=
  if (this_unsigned_flag this && negb val_unsigned && (value <? 0))
     || (negb (this_unsigned_flag this) && val_unsigned
         && (to_ull LLONG_MAX <? to_ull value))
  then raise_integer_overflow this
  else ret value.

(** Modelled from the spec: [check_float_overflow] and
    [check_decimal_overflow] of the missing item_func.h: a double that
    is not finite, and the decimal status "overflow", raise the
    error. *)
Definition check_float_overflow (value : double) : M double :=
  if d_isfinite value then ret value else raise_float_overflow.

Definition check_decimal_overflow (error : Z) : M Z :=
  if error =? E_DEC_OVERFLOW then raise_decimal_overflow else ret error.

(** [test_if_sum_overflows_ull]: both arguments are [ulonglong]. *)
Definition test_if_sum_overflows_ull (arg1 arg2 : Z) : bool :=
  ULLONG_MAX - arg1 <? arg2.

(** [Item_func::signal_divide_by_null]; the value returned is the
    [null_value] it leaves in the node. *)
Definition signal_divide_by_null : M bool :=
  fun thd =>
    if division_warning_enabled thd
    then (true, snd (push_warning SL_WARNING ER_DIVISION_BY_ZERO thd))
    else (true, thd).

(** ** Integer evaluation

    An evaluation returns the value together with the [null_value] the
    node is left with. *)

(** An operation on [longlong] values whose mathematical result is not a
    [longlong] has no defined behaviour in C++: a compiler may take for
    granted that it does not occur.  Where a function tests the sign or
    the size of such a result, the evaluation is [Undefined]: nothing is
    said of what it returns or of what it does to the session.  Where an
    operand is unsigned, its [longlong] is the bit pattern of an
    unsigned number and the function reads the result through casts to
    [ulonglong]; there the 64 bits of the two's-complement result are
    kept. *)
Inductive evaluation (A : Type) : Type :=
| Returns (a : A)
| Undefined.

Arguments Returns {A} a.
Arguments Undefined {A}.

Definition in_longlong (z : Z) : bool := (LLONG_MIN <=? z) && (z <=? LLONG_MAX).

(** The operators [+], binary [-] and unary [-] of C++ on two
    [longlong]. *)
Definition ll_add (a b : Z) : evaluation Z :=
  if in_longlong (a + b) then Returns (a + b) else Undefined.


Definition ll_neg (a : Z) : evaluation Z :=
  if in_longlong (- a) then Returns (- a) else Undefined.

(** The operator [%] of C++ on two [longlong]: undefined for a divisor
    0 and for [LLONG_MIN % -1], whose quotient is not a [longlong] (the
    comment in [Item_func_mod::int_op]: it generates SIGFPE).
    [Item_func_mod::int_op] does not use it. *)
Definition ll_rem (a b : Z) : evaluation Z :=
  if (b =? 0) || negb (in_longlong (Z.quot a b)) then Undefined
  else Returns (Z.rem a b).

(** The branches of [Item_func_plus::int_op] between the null test and the
    final check: [None] is [goto err], [Some u] is the [res_unsigned]
    reached. *)
Definition plus_res_unsigned (a0 a1 : Item) (res : Z) : option bool :=
  let val0 := val_int a0 in
  let val1 := val_int a1 in
  if unsigned_flag a0 then
    if unsigned_flag a1 || (0 <=? val1) then
      if test_if_sum_overflows_ull (to_ull val0) (to_ull val1) then None
      else Some true
    else
      if to_ull LLONG_MAX <? to_ull val0 then Some true else Some false
  else
    if unsigned_flag a1 then
      if 0 <=? val0 then
        if test_if_sum_overflows_ull (to_ull val0) (to_ull val1) then None
        else Some true
      else
        if to_ull LLONG_MAX <? to_ull val1 then Some true else Some false
    else
      if (0 <=? val0) && (0 <=? val1) then Some true
      else if (val0 <? 0) && (val1 <? 0) && (0 <=? res) then None
      else Some false.

(** [Item_func_plus::int_op].  The source adds [val0] and [val1] as
    [longlong] whatever the operands are.  For two signed operands that
    is the signed sum of the two numbers, and the evaluation is
    undefined when it overflows: the test [res >= 0] of the last branch
    reads the overflowed sum.  When an operand is unsigned, [val_int()]
    has handed its 64 bits over as a [longlong] and the branches read
    the sum through casts to [ulonglong]; the sum is then taken
    modulo 2^64. *)
Definition Item_func_plus_int_op (this : Item_func) (a0 a1 : Item) (thd : THD)
  : evaluation ((Z * bool) * THD) :=
  let val0 := val_int a0 in
  let val1 := val_int a1 in
  match (if unsigned_flag a0 || unsigned_flag a1
         then Returns (to_ll (val0 + val1)) else ll_add val0 val1) with
  | Undefined => Undefined
  | Returns res =>
      Returns
        ((if null_value a0 || null_value a1 then ret (0, true)
          else
            match plus_res_unsigned a0 a1 res with
            | Some res_unsigned =>
                v <- check_integer_overflow this res res_unsigned ;;
                ret (v, false)
            | None => v <- raise_integer_overflow this ;; ret (v, false)
            end) thd)
  end.

(** The unsigned magnitudes [Item_func_mod::int_op] divides. *)
Definition mod_magnitudes (a0 a1 : Item) : Z * Z :=
  let val0 := val_int a0 in
  let val1 := val_int a1 in
  let val0_negative := negb (unsigned_flag a0) && (val0 <? 0) in
  let val1_negative := negb (unsigned_flag a1) && (val1 <? 0) in
  (to_ull (if val0_negative && negb (val0 =? LLONG_MIN)
           then to_ll (- val0) else val0),
   to_ull (if val1_negative && negb (val1 =? LLONG_MIN)
           then to_ll (- val1) else val1)).

Definition Item_func_mod_int_op (this : Item_func) (a0 a1 : Item)
  : M (Z * bool) :=
  let val0 := val_int a0 in
  let val1 := val_int a1 in
  if null_value a0 || null_value a1 then ret (0, true)
  else if val1 =? 0 then
    n <- signal_divide_by_null ;; ret (0, n)
  else
    let val0_negative := negb (unsigned_flag a0) && (val0 <? 0) in
    let (uval0, uval1) := mod_magnitudes a0 a1 in
    let res := umod uval0 uval1 in
    v <- check_integer_overflow this
           (if val0_negative then to_ll (- to_ll res) else to_ll res)
           (negb val0_negative) ;;
    ret (v, false).

(** [Item_func_neg::int_op]. *)
Definition Item_func_neg_int_op (this : Item_func) (a0 : Item) : M (Z * bool) :=
  let value := val_int a0 in
  if null_value a0 then ret (0, true)
  else if unsigned_flag a0 && (to_ull LLONG_MAX + 1 <? to_ull value) then
    v <- raise_integer_overflow this ;; ret (v, false)
  else if (value =? LLONG_MIN) && negb (unsigned_flag a0)
          && negb (this_unsigned_flag this) then
    v <- raise_integer_overflow this ;; ret (v, false)
  else if (value =? LLONG_MIN) && unsigned_flag a0
          && negb (this_unsigned_flag this) then
    ret (LLONG_MIN, false)
  else
    v <- check_integer_overflow this (to_ll (- value))
           (negb (unsigned_flag a0) && (value <? 0)) ;;
    ret (v, false).

(** [Item_func_neg::decimal_op]: [None] is the null pointer. *)
Definition Item_func_neg_decimal_op (a0 : Item) : M (option my_decimal * bool) :=
  let value := val_decimal a0 in
  if negb (null_value a0) then
    ret (Some (my_decimal_neg (my_decimal2decimal value)), false)
  else ret (None, true).

Definition Item_func_neg_real_op (a0 : Item) : M (double * bool) :=
  ret (d_opp (val_real a0), null_value a0).

(** [Item_func_round::int_op] and its helper.  The evaluation also
    resets the member [decimals] of the node to 0; that assignment does
    not reach the value returned. *)
Definition my_unsigned_round (value to : Z) : Z :=
  let tmp := udiv value to * to in
  if value - tmp <? Z.shiftr to 1 then tmp else to_ull (tmp + to).

Definition Item_func_round_int_op (this : Item_func) (truncate : bool)
  (a0 a1 : Item) : M (Z * bool) :=
  let value := val_int a0 in
  let dec := val_int a1 in
  if null_value a0 || null_value a1 then ret (0, true)
  else if (0 <=? dec) || unsigned_flag a1 then ret (value, false)
  else
    let abs_dec := to_ull (- dec) in
    if log_10_int_elements <=? abs_dec then ret (0, false)
    else
      let tmp := to_ll (log_10_int abs_dec) in
      if truncate then
        ret (if this_unsigned_flag this
             then to_ll (udiv (to_ull value) (to_ull tmp) * to_ull tmp)
             else to_ll (sdiv value tmp * tmp), false)
      else
        ret (if this_unsigned_flag this || (0 <=? value)
             then to_ll (my_unsigned_round (to_ull value) (to_ull tmp))
             else to_ll (- to_ll (my_unsigned_round (to_ull (- value))
                                                    (to_ull tmp))),
             false).

(** [Item_func_round::decimal_op]: the requested digits are clamped to
    the scale of the node, or to [INT_MIN] from below, before the
    collaborator is called. *)
Definition round_decimal_places (this : Item_func) (a1 : Item) : Z :=
  let dec := val_int a1 in
  if (0 <=? dec) || unsigned_flag a1 then Z.min (to_ull dec) (this_decimals this)
  else if dec <? INT_MIN then INT_MIN
  else dec.

Definition Item_func_round_decimal_op (this : Item_func) (truncate : bool)
  (a0 a1 : Item) : M (option my_decimal * bool) :=
  let value := val_decimal a0 in
  let dec := round_decimal_places this a1 in
  if null_value a0 || null_value a1 then ret (None, true)
  else
    r <- my_decimal_round E_DEC_FATAL_ERROR value dec truncate ;;
    if 1 <? fst r then ret (None, true) else ret (Some (snd r), false).

(** [my_double_round] and [Item_func_round::real_op]. *)
Definition my_double_round (value : double) (dec : Z) (dec_unsigned : bool)
  (truncate : bool) : double :=
  let dec_negative := (dec <? 0) && negb dec_unsigned in
  let abs_dec := to_ull (if dec_negative then - dec else dec) in
  let tmp := if abs_dec <? log_10_elements then log_10 abs_dec
             else pow_10 abs_dec in
  let value_div_tmp := d_div value tmp in
  let value_mul_tmp := d_mul value tmp in
  if dec_negative && d_isinf tmp then d_zero
  else if negb dec_negative
          && (d_isinf value_mul_tmp || d_isnan value_mul_tmp) then value
  else if truncate then
    if d_leb d_zero value then
      if dec <? 0 then d_mul (d_floor value_div_tmp) tmp
      else d_div (d_floor value_mul_tmp) tmp
    else
      if dec <? 0 then d_mul (d_ceil value_div_tmp) tmp
      else d_div (d_ceil value_mul_tmp) tmp
  else
    if dec <? 0 then d_mul (d_rint value_div_tmp) tmp
    else d_div (d_rint value_mul_tmp) tmp.

Definition Item_func_round_real_op (truncate : bool) (a0 a1 : Item)
  : M (double * bool) :=
  let value := val_real a0 in
  let decimal_places := val_int a1 in
  if negb (null_value a0 || null_value a1) then
    ret (my_double_round value decimal_places (unsigned_flag a1) truncate, false)
  else ret (d_zero, true).

(** ** Type resolution *)

(** Wrap-around of the C types [uint] and [uint8] of the length fields. *)
Definition to_uint (z : Z) : Z := z mod 2 ^ 32.
Definition to_uint8 (z : Z) : Z := z mod 2 ^ 8.
Definition UINT_MAX32 : Z := 4294967295.
Definition DBL_DIG : Z := 15.

(** Modelled from the spec: the mode flag that lets an unsigned
    subtraction return a negative value is one bit of [sql_mode]; its
    mask is defined in a header that is not part of the sources. *)
Definition MODE_NO_UNSIGNED_SUBTRACTION : Z := 64.

(** Modelled from the spec: the inline helpers of item.h and
    my_decimal.h that turn a precision into a display length (the
    headers are not part of the sources). *)
Definition float_length (decimals_par : Z) : Z :=
  if decimals_par =? NOT_FIXED_DEC then DBL_DIG + 8
  else DBL_DIG + 2 + decimals_par.

Definition my_decimal_precision_to_length_no_truncation (precision scale : Z)
  (unsigned : bool) : Z :=
  let retval :=
    to_uint (precision + (if 0 <? scale then 1 else 0)
             + (if unsigned || (to_uint precision =? 0) then 0 else 1)) in
  if retval =? 0 then 1 else retval.

Definition set_hybrid_type (t : Item_result) (this : Item_func) : Item_func :=
  mk_Item_func t (this_unsigned_flag this) (this_decimals this)
               (this_max_length this) (maybe_null this).

Definition set_unsigned_flag (u : bool) (this : Item_func) : Item_func :=
  mk_Item_func (hybrid_type this) u (this_decimals this)
               (this_max_length this) (maybe_null this).

Definition set_decimals (d : Z) (this : Item_func) : Item_func :=
  mk_Item_func (hybrid_type this) (this_unsigned_flag this) d
               (this_max_length this) (maybe_null this).

Definition set_max_length (l : Z) (this : Item_func) : Item_func :=
  mk_Item_func (hybrid_type this) (this_unsigned_flag this) (this_decimals this)
               l (maybe_null this).

Definition set_maybe_null (n : bool) (this : Item_func) : Item_func :=
  mk_Item_func (hybrid_type this) (this_unsigned_flag this) (this_decimals this)
               (this_max_length this) n.

(** [reject_geometry_args]: [true] is the error return. *)
Fixpoint reject_geometry_args (args : list Item) (func_name : string) : M bool :=
  match args with
  | [] => ret false
  | a :: rest =>
      if negb (Item_result_eqb (result_type a) ROW_RESULT)
         && match field_type a with MYSQL_TYPE_GEOMETRY => true | _ => false end
      then _ <- my_error ER_WRONG_ARGUMENTS func_name ;; ret true
      else reject_geometry_args rest func_name
  end.

(** [Item_func::count_real_length]: the loop state is
    (decimals, length, max_length). *)
Definition count_real_length_step (st : Z * Z * Z) (a : Item) : Z * Z * Z :=
  let '(dec, len, maxl) := st in
  let '(dec, len) :=
    if dec =? NOT_FIXED_DEC then (dec, len)
    else (Z.max dec (decimals a),
          Z.max len (to_uint (max_length a - decimals a))) in
  (dec, len, Z.max maxl (max_length a)).

Definition count_real_length (this : Item_func) (args : list Item) : Item_func :=
  let '(dec, len, maxl) := fold_left count_real_length_step args (0, 0, 0) in
  let maxl :=
    if dec =? NOT_FIXED_DEC then maxl
    else if to_uint (len + dec) <? len then UINT_MAX32 else to_uint (len + dec) in
  set_max_length maxl (set_decimals dec this).

(** The binary arithmetic operators derived from [Item_num_op]. *)
Inductive num_op : Type := OP_PLUS | OP_MINUS | OP_MUL | OP_DIV | OP_MOD.

Definition func_name_of (op : num_op) : string :=
  match op with
  | OP_PLUS => "+" | OP_MINUS => "-" | OP_MUL => "*"
  | OP_DIV => "/" | OP_MOD => "%"
  end%string.

(** The [unsigned_flag] rule shared by the additive, multiplicative and
    division formulas. *)
Definition result_unsigned_flag (this : Item_func) (a0 a1 : Item) : bool :=
  if Item_result_eqb (hybrid_type this) INT_RESULT
  then unsigned_flag a0 || unsigned_flag a1
  else unsigned_flag a0 && unsigned_flag a1.

(** [Item_func_additive_op::result_precision]; [additive_precision] is
    its local variable [precision]. *)
Definition additive_precision (a0 a1 : Item) : Z :=
  let arg1_int := decimal_precision a0 - decimals a0 in
  let arg2_int := decimal_precision a1 - decimals a1 in
  Z.max arg1_int arg2_int + 1 + Z.max (decimals a0) (decimals a1).

Definition Item_func_additive_op_result_precision (this : Item_func)
  (a0 a1 : Item) : Item_func :=
  let dec := Z.max (decimals a0) (decimals a1) in
  let precision := additive_precision a0 a1 in
  let u := result_unsigned_flag this a0 a1 in
  set_max_length (my_decimal_precision_to_length_no_truncation precision dec u)
    (set_unsigned_flag u (set_decimals dec this)).

(** [Item_func_mul::result_precision]. *)
Definition mul_precision (a0 a1 : Item) : Z :=
  let est_prec := to_uint (decimal_precision a0 + decimal_precision a1) in
  Z.min est_prec DECIMAL_MAX_PRECISION.

Definition Item_func_mul_result_precision (this : Item_func) (a0 a1 : Item)
  : Item_func :=
  let u := result_unsigned_flag this a0 a1 in
  let dec := Z.min (decimals a0 + decimals a1) DECIMAL_MAX_SCALE in
  let precision := mul_precision a0 a1 in
  set_max_length (my_decimal_precision_to_length_no_truncation precision dec u)
    (set_decimals dec (set_unsigned_flag u this)).

(** [Item_func_div::result_precision]. *)
Definition div_precision (prec_increment : Z) (a0 a1 : Item) : Z :=
  Z.min (to_uint (decimal_precision a0 + decimals a1 + prec_increment))
        DECIMAL_MAX_PRECISION.

Definition Item_func_div_result_precision (prec_increment : Z)
  (this : Item_func) (a0 a1 : Item) : Item_func :=
  let precision := div_precision prec_increment a0 a1 in
  let u := result_unsigned_flag this a0 a1 in
  let dec := Z.min (to_uint (decimals a0 + prec_increment)) DECIMAL_MAX_SCALE in
  set_max_length (my_decimal_precision_to_length_no_truncation precision dec u)
    (set_decimals dec (set_unsigned_flag u this)).

(** [Item_func_mod::result_precision]. *)
Definition Item_func_mod_result_precision (this : Item_func) (a0 a1 : Item)
  : Item_func :=
  let dec := Z.max (decimals a0) (decimals a1) in
  let len := Z.max (max_length a0) (max_length a1) in
  let len :=
    if negb (unsigned_flag a0) && unsigned_flag a1
       && (max_length a0 <=? max_length a1)
       && (decimals a1 =? decimal_precision a1)
    then to_uint (len + 1) else len in
  set_max_length len (set_decimals dec this).

(** The virtual call [result_precision()]. *)
Definition result_precision (op : num_op) (prec_increment : Z)
  (this : Item_func) (a0 a1 : Item) : Item_func :=
  match op with
  | OP_PLUS | OP_MINUS => Item_func_additive_op_result_precision this a0 a1
  | OP_MUL => Item_func_mul_result_precision this a0 a1
  | OP_DIV => Item_func_div_result_precision prec_increment this a0 a1
  | OP_MOD => Item_func_mod_result_precision this a0 a1
  end.

(** [Item_num_op::find_num_type]. *)
Definition Item_num_op_find_num_type (op : num_op) (prec_increment : Z)
  (this : Item_func) (a0 a1 : Item) : Item_func :=
  let r0 := numeric_context_result_type a0 in
  let r1 := numeric_context_result_type a1 in
  if Item_result_eqb r0 REAL_RESULT || Item_result_eqb r1 REAL_RESULT then
    let this := count_real_length this [a0; a1] in
    let this := set_max_length (float_length (this_decimals this)) this in
    set_hybrid_type REAL_RESULT this
  else if Item_result_eqb r0 DECIMAL_RESULT || Item_result_eqb r1 DECIMAL_RESULT
  then
    result_precision op prec_increment (set_hybrid_type DECIMAL_RESULT this) a0 a1
  else
    result_precision op prec_increment
      (set_hybrid_type INT_RESULT (set_decimals 0 this)) a0 a1.

(** [Item_func_numhybrid::resolve_type] for an [Item_num_op], whose
    [fix_num_length_and_dec] is empty. *)
Definition Item_num_op_resolve_type (op : num_op) (prec_increment : Z)
  (this : Item_func) (a0 a1 : Item) : M (bool * Item_func) :=
  let this := Item_num_op_find_num_type op prec_increment this a0 a1 in
  err <- reject_geometry_args [a0; a1] (func_name_of op) ;;
  ret (err, this).

(** [Item_func_minus::resolve_type]. *)
Definition Item_func_minus_resolve_type (this : Item_func) (a0 a1 : Item)
  : M (bool * Item_func) :=
  r <- Item_num_op_resolve_type OP_MINUS 0 this a0 a1 ;;
  if fst r then ret (true, snd r)
  else fun thd =>
    let this := snd r in
    if this_unsigned_flag this
       && negb (Z.land (sql_mode thd) MODE_NO_UNSIGNED_SUBTRACTION =? 0)
    then ((false, set_unsigned_flag false this), thd)
    else ((false, this), thd).

(** [Item_func_div::resolve_type]. *)
Definition Item_func_div_resolve_type (this : Item_func) (a0 a1 : Item)
  : M (bool * Item_func) :=
  fun thd =>
    let prec_increment := div_precincrement thd in
    let (r, thd') := Item_num_op_resolve_type OP_DIV prec_increment this a0 a1 thd in
    if fst r then ((true, snd r), thd')
    else
      let this := snd r in
      let this :=
        match hybrid_type this with
        | REAL_RESULT =>
            let dec :=
              to_uint8 (Z.max (decimals a0) (decimals a1) + prec_increment) in
            let dec := Z.min dec NOT_FIXED_DEC in
            let tmp := float_length dec in
            let len :=
              if dec =? NOT_FIXED_DEC then tmp
              else Z.min (to_uint (max_length a0 - decimals a0 + dec)) tmp in
            set_max_length len (set_decimals dec this)
        | INT_RESULT =>
            Item_func_div_result_precision prec_increment
              (set_hybrid_type DECIMAL_RESULT this) a0 a1
        | DECIMAL_RESULT =>
            Item_func_div_result_precision prec_increment this a0 a1
        | _ => this
        end in
      ((false, set_maybe_null true this), thd').

(** [Item_func_mod::resolve_type]. *)
Definition Item_func_mod_resolve_type (this : Item_func) (a0 a1 : Item)
  : M (bool * Item_func) :=
  r <- Item_num_op_resolve_type OP_MOD 0 this a0 a1 ;;
  if fst r then ret (true, snd r)
  else ret (false, set_unsigned_flag (unsigned_flag a0)
                     (set_maybe_null true (snd r))).

(** Resolution of a binary arithmetic operator node. *)
Definition resolve_type (op : num_op) (this : Item_func) (a0 a1 : Item)
  : M (bool * Item_func) :=
  match op with
  | OP_PLUS | OP_MUL => Item_num_op_resolve_type op 0 this a0 a1
  | OP_MINUS => Item_func_minus_resolve_type this a0 a1
  | OP_DIV => Item_func_div_resolve_type this a0 a1
  | OP_MOD => Item_func_mod_resolve_type this a0 a1
  end.

(** [Item_func_neg::fix_num_length_and_dec] and
    [Item_func_num1::find_num_type]. *)
Definition Item_func_neg_fix_num_length_and_dec (this : Item_func) (a0 : Item)
  : Item_func :=
  set_max_length (to_uint (max_length a0 + 1)) (set_decimals (decimals a0) this).

Definition Item_func_num1_find_num_type (this : Item_func) (a0 : Item)
  : Item_func :=
  let this := set_hybrid_type (result_type a0) this in
  match hybrid_type this with
  | INT_RESULT => set_unsigned_flag (unsigned_flag a0) this
  | STRING_RESULT | REAL_RESULT =>
      set_max_length (float_length (this_decimals this))
        (set_hybrid_type REAL_RESULT this)
  | DECIMAL_RESULT => set_unsigned_flag (unsigned_flag a0) this
  | ROW_RESULT => this
  end.

(** [Item_func_neg::resolve_type]: the operand is evaluated during
    resolution when it is a constant. *)
Definition Item_func_neg_resolve_type (this : Item_func) (a0 : Item)
  : M (bool * Item_func) :=
  let this := Item_func_neg_fix_num_length_and_dec this a0 in
  let this := Item_func_num1_find_num_type this a0 in
  err <- reject_geometry_args [a0] "-"%string ;;
  if err then ret (true, this)
  else
    let this :=
      if Item_result_eqb (hybrid_type this) INT_RESULT && const_item a0 then
        let val := val_int a0 in
        if (to_ull LLONG_MIN <=? to_ull val)
           && (negb (to_ull val =? to_ull LLONG_MIN)
               || negb (Item_type_eqb (type a0) INT_ITEM))
        then set_hybrid_type DECIMAL_RESULT this
        else this
      else this in
    ret (false, set_unsigned_flag false this).

(** A run-time value: the hybrid dispatch of [Item_func_numhybrid]
    calls [int_op], [decimal_op] or [real_op] according to the resolved
    [hybrid_type] of the node. *)
Inductive Value : Type :=
| Null
| Integer (v : Z) (unsigned : bool)
| Decimal (d : my_decimal)
| Real (r : double).

Definition Item_func_neg_eval (this : Item_func) (a0 : Item) : M Value :=
  match hybrid_type this with
  | INT_RESULT =>
      r <- Item_func_neg_int_op this a0 ;;
      ret (if snd r then Null else Integer (fst r) (this_unsigned_flag this))
  | DECIMAL_RESULT =>
      r <- Item_func_neg_decimal_op a0 ;;
      ret (match fst r with Some d => Decimal d | None => Null end)
  | _ =>
      r <- Item_func_neg_real_op a0 ;;
      ret (if snd r then Null else Real (fst r))
  end.

(** ** Division and modulo in the real and decimal categories *)

Definition Item_func_div_real_op (a0 a1 : Item) : M (double * bool) :=
  let value := val_real a0 in
  let val2 := val_real a1 in
  if null_value a0 || null_value a1 then ret (d_zero, true)
  else if d_eqb val2 d_zero then
    n <- signal_divide_by_null ;; ret (d_zero, n)
  else
    v <- check_float_overflow (d_div value val2) ;; ret (v, false).

Definition Item_func_div_decimal_op (prec_increment : Z) (a0 a1 : Item)
  : M (option my_decimal * bool) :=
  let val1 := val_decimal a0 in
  if null_value a0 then ret (None, true)
  else
    let val2 := val_decimal a1 in
    if null_value a1 then ret (None, true)
    else
      r <- my_decimal_div
             (Z.land (Z.land E_DEC_FATAL_ERROR (Z.lnot E_DEC_OVERFLOW))
                     (Z.lnot E_DEC_DIV_ZERO))
             val1 val2 prec_increment ;;
      err <- check_decimal_overflow (fst r) ;;
      if 3 <? err then
        if err =? E_DEC_DIV_ZERO then
          _ <- signal_divide_by_null ;; ret (None, true)
        else ret (None, true)
      else ret (Some (snd r), false).

Definition Item_func_mod_real_op (a0 a1 : Item) : M (double * bool) :=
  let value := val_real a0 in
  let val2 := val_real a1 in
  if null_value a0 || null_value a1 then ret (d_zero, true)
  else if d_eqb val2 d_zero then
    n <- signal_divide_by_null ;; ret (d_zero, n)
  else ret (d_fmod value val2, false).

Definition Item_func_mod_decimal_op (a0 a1 : Item)
  : M (option my_decimal * bool) :=
  let val1 := val_decimal a0 in
  if null_value a0 then ret (None, true)
  else
    let val2 := val_decimal a1 in
    if null_value a1 then ret (None, true)
    else
      r <- my_decimal_mod (Z.land E_DEC_FATAL_ERROR (Z.lnot E_DEC_DIV_ZERO))
             val1 val2 ;;
      if (fst r =? E_DEC_TRUNCATED) || (fst r =? E_DEC_OK)
      then ret (Some (snd r), false)
      else if fst r =? E_DEC_DIV_ZERO then
        _ <- signal_divide_by_null ;; ret (None, true)
      else ret (None, true).

(** ** Structural equality of function nodes *)

(** Some members of the enumeration [Item_func::Functype]; [eq] singles
    out [FUNC_SP], a stored function. *)
Inductive Functype : Type :=
| UNKNOWN_FUNC | EQ_FUNC | NE_FUNC | LT_FUNC | NEG_FUNC | NOT_FUNC
| GUSERVAR_FUNC | GSYSVAR_FUNC | FT_FUNC | FUNC_SP.

Definition Functype_eqb (a b : Functype) : bool :=
  match a, b with
  | UNKNOWN_FUNC, UNKNOWN_FUNC | EQ_FUNC, EQ_FUNC | NE_FUNC, NE_FUNC
  | LT_FUNC, LT_FUNC | NEG_FUNC, NEG_FUNC | NOT_FUNC, NOT_FUNC
  | GUSERVAR_FUNC, GUSERVAR_FUNC | GSYSVAR_FUNC, GSYSVAR_FUNC
  | FT_FUNC, FT_FUNC | FUNC_SP, FUNC_SP => true
  | _, _ => false
  end.

Section Equality.

(** [eq] is virtual.  The items that are not functions (constants,
    fields, ...) override it in item.cc; what such an item carries and
    its [eq] are parameters here, as is the comparison of names in the
    system character set. *)
Variable basic : Type.

(** The class of a function item, as far as [eq] goes.  Most classes
    inherit [Item_func::eq].  Three classes of item_func.cc override it
    and compare members of their own: [Item_func_get_user_var] the name
    of the variable; [Item_func_get_system_var] the variable [var] (an
    address) and its scope [var_type]; [Item_func_match] its [flags],
    its [key], its [table_ref] (an address) and the search expression.
    It reads the latter through [key_item()] of the missing header
    item_func.h: the search expression is an item at an address of its
    own whose [eq] is a parameter.  A class of another file that
    overrides [eq] is a class whose [eq] is a parameter. *)
Inductive func_class : Type :=
| Item_func_class
| Item_func_get_user_var (name : string)
| Item_func_get_system_var (var : Z) (var_type : Z)
| Item_func_match (flags key table_ref : Z) (key_item_addr : Z)
                  (key_item : basic)
| Other_func_class (b : basic).

(** An expression tree.  The first component of a node is its address:
    two nodes built independently have different addresses.  The
    [func_name] of a node that is not a stored function points to a
    string constant of its class, and two such pointers are equal
    exactly when the names are. *)
Inductive item_tree : Type :=
| Basic_item (addr : Z) (b : basic)
| Func_item (addr : Z) (functype : Functype) (func_name : string)
            (args : list item_tree) (cls : func_class).

Variable basic_eq : basic -> item_tree -> bool -> bool.
Variable my_strcasecmp : string -> string -> Z.

(** The flag [FT_SORTED] of the full-text interface is defined outside
    the sources. *)
Variable FT_SORTED : Z.

Definition addr_of (i : item_tree) : Z :=
  match i with Basic_item a _ => a | Func_item a _ _ _ _ => a end.

(** The test on [functype()], [arg_count] and [func_name()] that makes
    [Item_func::eq] return 0 before it looks at the arguments. *)
Definition heads_differ (ft : Functype) (name : string) (n : nat)
  (ft' : Functype) (name' : string) (n' : nat) : bool :=
  negb (Functype_eqb ft ft')
  || negb (Nat.eqb n n')
  || (negb (Functype_eqb ft FUNC_SP) && negb (String.eqb name name'))
  || (Functype_eqb ft FUNC_SP && negb (my_strcasecmp name name' =? 0)).

(** [Item_func_get_user_var::eq] and [Item_func_get_system_var::eq] on
    a node at [addr] with the given [functype()] and members.  After the
    test on [functype()] the source casts [item] to its own class; the
    comparison of a node of another class, which the cast presupposes
    not to occur, is taken to fail. *)
Definition Item_func_get_user_var_eq (addr : Z) (ft : Functype) (name : string)
  (item : item_tree) : bool :=
  if addr =? addr_of item then true
  else
    match item with
    | Basic_item _ _ => false
    | Func_item _ ft' _ _ cls' =>
        if negb (Functype_eqb ft' ft) then false
        else
          match cls' with
          | Item_func_get_user_var name' => String.eqb name name'
          | _ => false
          end
    end.

Definition Item_func_get_system_var_eq (addr : Z) (ft : Functype)
  (var var_type : Z) (item : item_tree) : bool :=
  if addr =? addr_of item then true
  else
    match item with
    | Basic_item _ _ => false
    | Func_item _ ft' _ _ cls' =>
        if negb (Functype_eqb ft' ft) then false
        else
          match cls' with
          | Item_func_get_system_var var' var_type' =>
              (var =? var') && (var_type =? var_type')
          | _ => false
          end
    end.

(** [Item_func_match::eq]; it has no test on the addresses. *)
Definition Item_func_match_eq (flags key table_ref : Z) (key_item : basic)
  (item : item_tree) (binary_cmp : bool) : bool :=
  match item with
  | Basic_item _ _ => false
  | Func_item _ ft' _ _ cls' =>
      if negb (Functype_eqb ft' FT_FUNC) then false
      else
        match cls' with
        | Item_func_match flags' key' table_ref' key_item_addr' key_item' =>
            if negb (Z.lor flags FT_SORTED =? Z.lor flags' FT_SORTED) then false
            else
              (key =? key') && (table_ref =? table_ref')
              && basic_eq key_item (Basic_item key_item_addr' key_item')
                          binary_cmp
        | _ => false
        end
  end.

(** [Item::eq], a virtual call: the [eq] of the class of [this].  For a
    class that inherits it, that is [Item_func::eq], whose loop calls
    the [eq] of each argument in turn. *)
Fixpoint Item_eq (this item : item_tree) (binary_cmp : bool) {struct this}
  : bool :=
  match this with
  | Basic_item _ b => basic_eq b item binary_cmp
  | Func_item addr ft name args cls =>
      match cls with
      | Item_func_class =>
          if addr =? addr_of item then true
          else
            match item with
            | Basic_item _ _ => false
            | Func_item _ ft' name' args' _ =>
                if heads_differ ft name (List.length args)
                     ft' name' (List.length args')
                then false
                else
                  (fix args_eq (l l' : list item_tree) {struct l} : bool :=
                     match l, l' with
                     | x :: r, y :: r' =>
                         if Item_eq x y binary_cmp then args_eq r r' else false
                     | _, _ => true
                     end) args args'
            end
      | Item_func_get_user_var uname =>
          Item_func_get_user_var_eq addr ft uname item
      | Item_func_get_system_var var var_type =>
          Item_func_get_system_var_eq addr ft var var_type item
      | Item_func_match flags key table_ref _ key_item =>
          Item_func_match_eq flags key table_ref key_item item binary_cmp
      | Other_func_class b => basic_eq b item binary_cmp
      end
  end.

(** [Item_func::eq] is the [eq] of a node whose class inherits it. *)
Definition Item_func_eq (this item : item_tree) (binary_cmp : bool) : bool :=
  Item_eq this item binary_cmp.

(** The loop over the arguments of [Item_func::eq]. *)
Fixpoint args_eq (l l' : list item_tree) (binary_cmp : bool) : bool :=
  match l, l' with
  | x :: r, y :: r' =>
      if Item_eq x y binary_cmp then args_eq r r' binary_cmp else false
  | _, _ => true
  end.

(** Two nodes have the same operator kind when their [functype()]
    agree and their names do: the same name for a native function,
    names that the session character set does not tell apart for a
    stored function. *)
Definition same_operator (ft : Functype) (name : string)
  (ft' : Functype) (name' : string) : Prop :=
  ft = ft' /\
  (if Functype_eqb ft FUNC_SP then my_strcasecmp name name' = 0
   else name = name').

(** Equality of two trees, whatever their addresses: the same operator,
    the same arity and pairwise equal arguments for a node that
    inherits [Item_func::eq]; the same variable for two user variables
    and for two system variables; the same flags up to [FT_SORTED], the
    same key and table and equal search expressions for two full-text
    searches; what its own [eq] says for any other item. *)
Inductive structurally_equal (binary_cmp : bool)
  : item_tree -> item_tree -> Prop :=
| se_basic : forall addr b item,
    basic_eq b item binary_cmp = true ->
    structurally_equal binary_cmp (Basic_item addr b) item
| se_func : forall addr addr' ft ft' name name' args args' cls',
    same_operator ft name ft' name' ->
    List.length args = List.length args' ->
    Forall2 (structurally_equal binary_cmp) args args' ->
    structurally_equal binary_cmp
      (Func_item addr ft name args Item_func_class)
      (Func_item addr' ft' name' args' cls')
| se_user_var : forall addr addr' ft name name' args args' uname,
    structurally_equal binary_cmp
      (Func_item addr ft name args (Item_func_get_user_var uname))
      (Func_item addr' ft name' args' (Item_func_get_user_var uname))
| se_system_var : forall addr addr' ft name name' args args' var var_type,
    structurally_equal binary_cmp
      (Func_item addr ft name args (Item_func_get_system_var var var_type))
      (Func_item addr' ft name' args' (Item_func_get_system_var var var_type))
| se_match : forall addr addr' ft name name' args args' flags flags' key
                   table_ref key_item_addr key_item_addr' key_item key_item',
    Z.lor flags FT_SORTED = Z.lor flags' FT_SORTED ->
    basic_eq key_item (Basic_item key_item_addr' key_item') binary_cmp = true ->
    structurally_equal binary_cmp
      (Func_item addr ft name args
         (Item_func_match flags key table_ref key_item_addr key_item))
      (Func_item addr' FT_FUNC name' args'
         (Item_func_match flags' key table_ref key_item_addr' key_item'))
| se_other : forall addr ft name args b item,
    basic_eq b item binary_cmp = true ->
    structurally_equal binary_cmp
      (Func_item addr ft name args (Other_func_class b)) item.

(** Structural equality in the words of the specification: the same
    operator, the same arity and recursively equal children, whatever
    the class of a node; two items that are not functions are equal when
    they carry the same. *)
Inductive same_structure : item_tree -> item_tree -> Prop :=
| ss_basic : forall addr addr' b,
    same_structure (Basic_item addr b) (Basic_item addr' b)
| ss_func : forall addr addr' ft name args args' cls cls',
    List.length args = List.length args' ->
    Forall2 same_structure args args' ->
    same_structure (Func_item addr ft name args cls)
                   (Func_item addr' ft name args' cls').

End Equality.

Arguments Item_func_class {basic}.
Arguments Item_func_get_user_var {basic} name.
Arguments Item_func_get_system_var {basic} var var_type.
Arguments Item_func_match {basic} flags key table_ref key_item_addr key_item.
Arguments Other_func_class {basic} b.
Arguments Basic_item {basic} addr b.
Arguments Func_item {basic} addr functype func_name args cls.
Arguments addr_of {basic} i.
Arguments Item_func_get_user_var_eq {basic} addr ft name item.
Arguments Item_func_get_system_var_eq {basic} addr ft var var_type item.
Arguments Item_func_match_eq {basic} basic_eq FT_SORTED flags key table_ref
  key_item item binary_cmp.
Arguments Item_eq {basic} basic_eq my_strcasecmp FT_SORTED this item binary_cmp.
Arguments Item_func_eq {basic} basic_eq my_strcasecmp FT_SORTED this item
  binary_cmp.
Arguments args_eq {basic} basic_eq my_strcasecmp FT_SORTED l l' binary_cmp.
Arguments structurally_equal {basic} basic_eq my_strcasecmp FT_SORTED
  binary_cmp _ _.
Arguments same_structure {basic} _ _.

(** ** Notions used in the statements *)

(** The session [thd'] is [thd] with one more error of code [e]. *)
Definition raised (e : error_code) (thd thd' : THD) : Prop :=
  exists s, thd' = mk_THD (sql_mode thd) (div_precincrement thd)
                          (conditions thd ++ [mk_condition SL_ERROR e s]).

(** The session [thd'] is [thd] with one more warning of code [e]. *)
Definition warned (e : error_code) (thd thd' : THD) : Prop :=
  thd' = mk_THD (sql_mode thd) (div_precincrement thd)
                (conditions thd ++ [mk_condition SL_WARNING e EmptyString]).

(** The number an integer operand stands for. *)
Definition int_value (a : Item) : Z :=
  if unsigned_flag a then to_ull (val_int a) else val_int a.

(** The numbers a node of the given signedness can return. *)
Definition representable (unsigned : bool) (z : Z) : Prop :=
  if unsigned then is_ulonglong z else is_longlong z.

(** An integer operand as [Item_int] and the integer fields present it. *)
Definition int_item (t : Item_type) (v : Z) (u : bool) : Item :=
  mk_Item t MYSQL_TYPE_LONGLONG INT_RESULT INT_RESULT true u 0 20 19 false v
          (d_of_Z (if u then to_ull v else v)) (int2my_decimal v u).

(** A node before resolution, and a session with no mode set, a
    precision increment of 4 and no diagnostics. *)
Definition this0 : Item_func := mk_Item_func INT_RESULT false 0 0 false.
Definition thd0 : THD := mk_THD 0 4 [].

(** The number a (value, unsigned) pair stands for. *)
Definition pair_value (value : Z) (val_unsigned : bool) : Z :=
  if val_unsigned then to_ull value else value.

(** The session after [signal_divide_by_null]: one more warning when the
    mode asks for it, unchanged otherwise. *)
Definition with_division_warning (thd : THD) : THD :=
  if division_warning_enabled thd
  then mk_THD (sql_mode thd) (div_precincrement thd)
              (conditions thd
               ++ [mk_condition SL_WARNING ER_DIVISION_BY_ZERO EmptyString])
  else thd.

(** A double operand, and a null operand of the real category. *)
Definition real_item (v : double) : Item :=
  mk_Item REAL_ITEM MYSQL_TYPE_DOUBLE REAL_RESULT REAL_RESULT true false
          NOT_FIXED_DEC 23 0 false 0 v decimal_zero.

Definition null_real_field : Item :=
  mk_Item FIELD_ITEM MYSQL_TYPE_DOUBLE REAL_RESULT REAL_RESULT false false
          NOT_FIXED_DEC 23 0 true 0 d_zero decimal_zero.

Definition thd_division_warning : THD :=
  mk_THD MODE_ERROR_FOR_DIVISION_BY_ZERO 4 [].

(** A decimal operand of the given precision and scale (signed). *)
Definition decimal_field (precision scale : Z) : Item :=
  mk_Item FIELD_ITEM MYSQL_TYPE_NEWDECIMAL DECIMAL_RESULT DECIMAL_RESULT
          false false scale
          (my_decimal_precision_to_length_no_truncation precision scale false)
          precision false 0 d_zero decimal_zero.

(** The descriptor invariant of an operand. *)
Definition valid_descriptor (a : Item) : Prop :=
  0 <= decimals a <= DECIMAL_MAX_SCALE
  /\ decimals a <= decimal_precision a <= DECIMAL_MAX_PRECISION.

(** The promotion rule in the words of the specification: Real over
    Decimal over Integer. *)
Definition promotion_rule (r0 r1 : Item_result) : Item_result :=
  if Item_result_eqb r0 REAL_RESULT || Item_result_eqb r1 REAL_RESULT
  then REAL_RESULT
  else if Item_result_eqb r0 DECIMAL_RESULT || Item_result_eqb r1 DECIMAL_RESULT
  then DECIMAL_RESULT
  else INT_RESULT.

Definition numeric_category (r : Item_result) : Prop :=
  r = INT_RESULT \/ r = DECIMAL_RESULT \/ r = REAL_RESULT.

(** The node a binary operator is after resolution, and the category it
    ends with. *)
Definition resolved_node (op : num_op) (this : Item_func) (a0 a1 : Item)
  (thd : THD) : Item_func :=
  snd (fst (resolve_type op this a0 a1 thd)).

Definition resolved_category (op : num_op) (this : Item_func) (a0 a1 : Item)
  (thd : THD) : Item_result :=
  hybrid_type (resolved_node op this a0 a1 thd).

Definition resolution_succeeds (op : num_op) (this : Item_func) (a0 a1 : Item)
  (thd : THD) : Prop :=
  fst (fst (resolve_type op this a0 a1 thd)) = false.

(** A floating-point column [DOUBLE(len, dec)]. *)
Definition double_field (len dec : Z) : Item :=
  mk_Item FIELD_ITEM MYSQL_TYPE_DOUBLE REAL_RESULT REAL_RESULT false false
          dec len 0 false 0 d_zero decimal_zero.

(** An operand of the integer category presents its decimal value by
    [int2my_decimal], as [Item_func_numhybrid::val_decimal] does for
    [INT_RESULT]. *)
Definition integer_operand (a : Item) : Prop :=
  result_type a = INT_RESULT
  /\ val_decimal a = int2my_decimal (val_int a) (unsigned_flag a).

Definition not_geometry (a : Item) : Prop :=
  match field_type a with MYSQL_TYPE_GEOMETRY => False | _ => True end.

(** The constant [-9223372036854775808] as the parser builds it: the
    negation of the unsigned literal, a function item. *)
Definition int_min_constant : Item := int_item FUNC_ITEM LLONG_MIN false.

(** The double nearest to the fraction [a / b] of two small integers,
    as a decimal literal of the source denotes it. *)
Definition d_ratio (a b : Z) : double := d_div (d_of_Z a) (d_of_Z b).

(** A double in the format of the machine: a zero, an infinity, a NaN,
    or a finite number whose mantissa and exponent are those of a
    binary64 value. *)
Definition valid_double (x : double) : Prop := valid_binary 53 1024 x = true.

(** Rounding the quotient [z / k] to nearest, ties to even. *)
Definition rint_quotient (z k : Z) : Z :=
  match 2 * (z mod k) ?= k with
  | Lt => z / k
  | Gt => z / k + 1
  | Eq => if Z.even (z / k) then z / k else z / k + 1
  end.

(** A double without a fractional part: [rint], [floor] and [ceil]
    leave it as it is. *)
Definition integral_double (x : double) : Prop :=
  d_rint x = x /\ d_floor x = x /\ d_ceil x = x.

(** The integer a double holds, when it has no fractional part. *)
Definition d_to_Z (x : double) : option Z :=
  match x with
  | S754_zero _ => Some 0
  | S754_finite s m e =>
      if 0 <=? e then Some (d_signed s m * 2 ^ e)
      else if d_signed s m mod 2 ^ (- e) =? 0
           then Some (d_signed s m / 2 ^ (- e))
           else None
  | _ => None
  end.

(** The half-integers [k + 1/2] for [k] from -100 to 99. *)
Definition half_integers : list Z := map (fun n => Z.of_nat n - 100) (seq 0 200).

(** Rounding of an integer to a multiple of [k], half away from zero. *)
Definition half_away_round (x k : Z) : Z :=
  Z.sgn x * (Z.abs x / k * k + (if Z.abs x mod k <? k / 2 then 0 else k)).

(** The operands for which rounding to a power of ten stays within the
    range of the node. *)
Definition rounds_within_range (this : Item_func) (a0 a1 : Item) : Prop :=
  representable (this_unsigned_flag this)
    (half_away_round (pair_value (val_int a0) (this_unsigned_flag this))
                     (10 ^ (- val_int a1))).

(** The value [Item_func_round::int_op] computes from two non-null
    operands. *)
Definition round_int_value (uf truncate : bool) (value dec : Z)
  (dec_unsigned : bool) : Z :=
  if (0 <=? dec) || dec_unsigned then value
  else
    let abs_dec := to_ull (- dec) in
    if log_10_int_elements <=? abs_dec then 0
    else
      let tmp := to_ll (log_10_int abs_dec) in
      if truncate then
        if uf then to_ll (udiv (to_ull value) (to_ull tmp) * to_ull tmp)
        else to_ll (sdiv value tmp * tmp)
      else
        if uf || (0 <=? value)
        then to_ll (my_unsigned_round (to_ull value) (to_ull tmp))
        else to_ll (- to_ll (my_unsigned_round (to_ull (- value)) (to_ull tmp))).

(** A decimal operand of the given value. *)
Definition decimal_item (d : my_decimal) : Item :=
  mk_Item DECIMAL_ITEM MYSQL_TYPE_NEWDECIMAL DECIMAL_RESULT DECIMAL_RESULT
          true false (frac d) 67 65 false 0 d_zero d.

(** Integer constants as the basic items: their [eq] compares the
    values; names are compared as written. *)
Definition int_constant_eq (b : Z) (item : item_tree Z) (binary_cmp : bool)
  : bool :=
  match item with Basic_item _ b' => b =? b' | Func_item _ _ _ _ _ => false end.

Definition strcmp (a b : string) : Z := if String.eqb a b then 0 else 1.

(** The tree of [1 + (-2)] built at the given addresses. *)
Definition sum_tree (base : Z) : item_tree Z :=
  Func_item base UNKNOWN_FUNC "+"
    [Basic_item (base + 1) 1;
     Func_item (base + 2) NEG_FUNC "-" [Basic_item (base + 3) 2]
       Item_func_class]
    Item_func_class.

(** The trees of [-(@a)] for a user variable [a], built at the given
    addresses. *)
Definition user_var_tree (addr : Z) (name : string) : item_tree Z :=
  Func_item addr GUSERVAR_FUNC "get_user_var" [] (Item_func_get_user_var name).

Definition neg_tree (addr : Z) (arg : item_tree Z) : item_tree Z :=
  Func_item addr NEG_FUNC "-" [arg] Item_func_class.

(** ** Integer subtraction, multiplication, division and absolute value

    The other integer operators follow the pattern of
    [Item_func_plus::int_op]: the branches find out whether the result is
    a (value, unsigned) pair at all, and the final call checks the pair
    against the [unsigned_flag] of the node. *)



(** The part of [Item_func_mul::int_op] that multiplies the magnitudes
    [a] and [b] by 32-bit halves: [None] is [goto err], otherwise the
    sum [res1 + res0] as a [longlong]. *)
Definition mul_magnitudes (a b : Z) : option Z :=
  let a0 := Z.land 4294967295 (to_ull a) in
  let a1 := Z.shiftr (to_ull a) 32 in
  let b0 := Z.land 4294967295 (to_ull b) in
  let b1 := Z.shiftr (to_ull b) 32 in
  if negb (a1 =? 0) && negb (b1 =? 0) then None
  else
    let res1 := to_ull (a1 * b0 + a0 * b1) in
    if 4294967295 <? res1 then None
    else
      let res1 := to_ull (Z.shiftl res1 32) in
      let res0 := to_ull (a0 * b0) in
      if test_if_sum_overflows_ull res1 res0 then None
      else Some (to_ll (res1 + res0)).

(** [Item_func_mul::int_op].  The negations [a= -a], [b= -b] and
    [res= -res] are signed: each is undefined on [LLONG_MIN]. *)
Definition Item_func_mul_int_op (this : Item_func) (arg0 arg1 : Item)
  (thd : THD) : evaluation ((Z * bool) * THD) :=
  let a := val_int arg0 in
  let b := val_int arg1 in
  if null_value arg0 || null_value arg1 then Returns (ret (0, true) thd)
  else
    let a_negative := negb (unsigned_flag arg0) && (a <? 0) in
    match (if a_negative then ll_neg a else Returns a) with
    | Undefined => Undefined
    | Returns a =>
        let b_negative := negb (unsigned_flag arg1) && (b <? 0) in
        match (if b_negative then ll_neg b else Returns b) with
        | Undefined => Undefined
        | Returns b =>
            match mul_magnitudes a b with
            | None =>
                Returns ((v <- raise_integer_overflow this ;; ret (v, false)) thd)
            | Some res =>
                if negb (Bool.eqb a_negative b_negative) then
                  if to_ull LLONG_MIN + 1 <? to_ull res then
                    Returns ((v <- raise_integer_overflow this ;;
                              ret (v, false)) thd)
                  else
                    match ll_neg res with
                    | Undefined => Undefined
                    | Returns res =>
                        Returns ((v <- check_integer_overflow this res false ;;
                                  ret (v, false)) thd)
                    end
                else
                  Returns ((v <- check_integer_overflow this res true ;;
                            ret (v, false)) thd)
            end
        end
    end.

Section IntDiv.

(** The conversion of a decimal to a 64-bit integer belongs to the
    decimal library; it is a parameter here.  It takes the mask, the
    decimal and the signedness asked for, and returns the status and the
    integer. *)
Variable my_decimal2int : Z -> my_decimal -> bool -> M (Z * Z).

(** [Item_func_int_div::val_int]. *)
Definition Item_func_int_div_val_int (this : Item_func) (a0 a1 : Item)
  : M (Z * bool) :=
  if negb (Item_result_eqb (result_type a0) INT_RESULT)
     || negb (Item_result_eqb (result_type a1) INT_RESULT)
  then
    let val0 := val_decimal a0 in
    if null_value a0 then ret (0, true)
    else
      let val1 := val_decimal a1 in
      if null_value a1 then ret (0, true)
      else
        r <- my_decimal_div (Z.land E_DEC_FATAL_ERROR (Z.lnot E_DEC_DIV_ZERO))
               val0 val1 0 ;;
        if 3 <? fst r then
          if fst r =? E_DEC_DIV_ZERO then
            n <- signal_divide_by_null ;; ret (0, n)
          else ret (0, false)
        else
          t <- my_decimal_round E_DEC_FATAL_ERROR (snd r) 0 true ;;
          c <- my_decimal2int E_DEC_FATAL_ERROR (snd t)
                 (this_unsigned_flag this) ;;
          if negb (Z.land (fst c) E_DEC_OVERFLOW =? 0) then
            _ <- raise_integer_overflow this ;; ret (snd c, false)
          else ret (snd c, false)
  else
    let val0 := val_int a0 in
    let val1 := val_int a1 in
    if null_value a0 || null_value a1 then ret (0, true)
    else if val1 =? 0 then
      n <- signal_divide_by_null ;; ret (0, n)
    else
      let val0_negative := negb (unsigned_flag a0) && (val0 <? 0) in
      let val1_negative := negb (unsigned_flag a1) && (val1 <? 0) in
      let res_negative := negb (Bool.eqb val0_negative val1_negative) in
      let uval0 := to_ull (if val0_negative && negb (val0 =? LLONG_MIN)
                           then to_ll (- val0) else val0) in
      let uval1 := to_ull (if val1_negative && negb (val1 =? LLONG_MIN)
                           then to_ll (- val1) else val1) in
      let res := udiv uval0 uval1 in
      if res_negative && (to_ull LLONG_MAX <? res) then
        v <- raise_integer_overflow this ;; ret (v, false)
      else
        let res := if res_negative then to_ull (to_ll (- to_ll res)) else res in
        v <- check_integer_overflow this (to_ll res) (negb res_negative) ;;
        ret (v, false).

End IntDiv.

(** [Item_func_num1::fix_num_length_and_dec]. *)
Definition Item_func_num1_fix_num_length_and_dec (this : Item_func) (a0 : Item)
  : Item_func :=
  set_max_length (max_length a0) (set_decimals (decimals a0) this).

(** [Item_func_abs::resolve_type]. *)
Definition Item_func_abs_resolve_type (this : Item_func) (a0 : Item)
  : M (bool * Item_func) :=
  let this := Item_func_num1_fix_num_length_and_dec this a0 in
  let this := Item_func_num1_find_num_type this a0 in
  err <- reject_geometry_args [a0] "abs"%string ;;
  if err then ret (true, this)
  else ret (false, set_unsigned_flag (unsigned_flag a0) this).

(** [Item_func_abs::int_op]. *)
Definition Item_func_abs_int_op (this : Item_func) (a0 : Item) : M (Z * bool) :=
  let value := val_int a0 in
  if null_value a0 then ret (0, true)
  else if this_unsigned_flag this then ret (value, false)
  else if value =? LLONG_MIN then
    v <- raise_integer_overflow this ;; ret (v, false)
  else ret (if 0 <=? value then value else to_ll (- value), false).

(** [Item_func_abs::real_op] and [Item_func_abs::decimal_op]. *)
Definition Item_func_abs_real_op (a0 : Item) : M (double * bool) :=
  ret (SFabs (val_real a0), null_value a0).

Definition Item_func_abs_decimal_op (a0 : Item) : M (option my_decimal * bool) :=
  let value := val_decimal a0 in
  if negb (null_value a0) then
    let decimal_value := my_decimal2decimal value in
    ret (Some (if decimal_sign decimal_value then my_decimal_neg decimal_value
               else decimal_value), false)
  else ret (None, true).

(** ** Bit operations on integers *)

(** [Item_func_shift::eval_int_op]: the count is read into a [uint]. *)
Definition Item_func_shift_eval_int_op (to_left : bool) (this : Item_func)
  (a0 a1 : Item) : Z * bool :=
  let res := to_ull (val_int a0) in
  if null_value a0 then (0, maybe_null this)
  else
    let shift := to_uint (val_int a1) in
    if null_value a1 then (0, maybe_null this)
    else if shift <? 64 then
      (to_ll (if to_left then to_ull (Z.shiftl res shift)
              else Z.shiftr res shift), false)
    else (0, false).

(** Modelled from the spec: [Item::val_uint] of the missing item.h, the
    integer value read as unsigned. *)
Definition val_uint (a : Item) : Z := to_ull (val_int a).

(** [Item_func_bit_neg::int_op]. *)
Definition Item_func_bit_neg_int_op (a0 : Item) : Z * bool :=
  let res := to_ull (val_int a0) in
  if null_value a0 then (0, true)
  else (to_ll (to_ull (Z.lnot res)), false).

(** [Item_func_bit_two_param::eval_int_op], and its three instances. *)
Definition Item_func_bit_two_param_eval_int_op (int_func : Z -> Z -> Z)
  (this : Item_func) (a0 a1 : Item) : Z * bool :=
  let arg0 := val_uint a0 in
  if null_value a0 then (0, maybe_null this)
  else
    let arg1 := val_uint a1 in
    if null_value a1 then (0, maybe_null this)
    else (to_ll (int_func arg0 arg1), false).

Definition Item_func_bit_or_int_op := Item_func_bit_two_param_eval_int_op Z.lor.
Definition Item_func_bit_and_int_op := Item_func_bit_two_param_eval_int_op Z.land.
Definition Item_func_bit_xor_int_op := Item_func_bit_two_param_eval_int_op Z.lxor.

(** ** Resolution of ROUND and TRUNCATE *)

Section Round.

(** The width [DECIMAL_LONGLONG_DIGITS] is defined in my_decimal.h,
    which is not part of the sources; it is a parameter here. *)
Variable DECIMAL_LONGLONG_DIGITS : Z.

(** The local [decimals_to_set] of [Item_func_round::resolve_type], an
    [int], before the category is looked at. *)
Definition round_decimals_to_set (val1 : Z) (val1_unsigned : bool) : Z :=
  if val1 <? 0 then (if val1_unsigned then INT_MAX else 0)
  else (if INT_MAX <? val1 then INT_MAX else val1).

(** [Item_func_round::resolve_type].  The constant second operand is
    evaluated during resolution.  The member [null_value], which the
    function sets when that operand is null, is assigned again by every
    evaluation and is not part of the record. *)
Definition Item_func_round_resolve_type (truncate : bool) (this : Item_func)
  (a0 a1 : Item) : M (bool * Item_func) :=
  let this := set_unsigned_flag (unsigned_flag a0) this in
  err <- reject_geometry_args [a0; a1]
           (if truncate then "truncate" else "round")%string ;;
  if err then ret (true, this)
  else if negb (const_item a1) then
    let this := set_decimals (decimals a0) this in
    let this := set_max_length (float_length (this_decimals this)) this in
    if Item_result_eqb (result_type a0) DECIMAL_RESULT then
      ret (false, set_hybrid_type DECIMAL_RESULT
                    (set_max_length (to_uint (this_max_length this + 1)) this))
    else ret (false, set_hybrid_type REAL_RESULT this)
  else
    let val1 := val_int a1 in
    if null_value a1 then ret (false, this)
    else
      let val1_unsigned := unsigned_flag a1 in
      let decimals_to_set := round_decimals_to_set val1 val1_unsigned in
      if decimals a0 =? NOT_FIXED_DEC then
        let this := set_decimals (Z.min decimals_to_set NOT_FIXED_DEC) this in
        let this := set_max_length (float_length (this_decimals this)) this in
        ret (false, set_hybrid_type REAL_RESULT this)
      else
        let as_decimal (this : Item_func) :=
          let this := set_hybrid_type DECIMAL_RESULT this in
          let decimals_to_set := Z.min DECIMAL_MAX_SCALE decimals_to_set in
          let decimals_delta := decimals a0 - decimals_to_set in
          let precision := decimal_precision a0 in
          let length_increase :=
            if (decimals_delta <=? 0) || truncate then 0 else 1 in
          let precision := precision - (decimals_delta - length_increase) in
          let this :=
            set_decimals (Z.min decimals_to_set DECIMAL_MAX_SCALE) this in
          set_max_length
            (my_decimal_precision_to_length_no_truncation precision
               (this_decimals this) (this_unsigned_flag this)) this in
        match result_type a0 with
        | REAL_RESULT | STRING_RESULT =>
            let this := set_hybrid_type REAL_RESULT this in
            let this := set_decimals (Z.min decimals_to_set NOT_FIXED_DEC) this in
            ret (false, set_max_length (float_length (this_decimals this)) this)
        | INT_RESULT =>
            if ((decimals_to_set =? 0) && truncate)
               || (decimal_precision a0 <? DECIMAL_LONGLONG_DIGITS)
            then
              let length_can_increase :=
                if negb truncate && (val1 <? 0) && negb val1_unsigned
                then 1 else 0 in
              let this :=
                set_max_length (to_uint (max_length a0 + length_can_increase))
                               this in
              ret (false, set_decimals 0 (set_hybrid_type INT_RESULT this))
            else ret (false, as_decimal this)
        | DECIMAL_RESULT => ret (false, as_decimal this)
        | ROW_RESULT => ret (false, this)
        end.

End Round.

(** ** LEAST, GREATEST, FIELD and SIGN *)

(** Modelled from the spec: [Integer_value] of the missing header
    val_int_compare.h, a 64-bit integer with its signedness; [<]
    compares the numbers they stand for. *)
Definition Integer_value_lt (v1 : Z) (u1 : bool) (v2 : Z) (u2 : bool) : bool :=
  pair_value v1 u1 <? pair_value v2 u2.

Section MinMax.

(** [cmp_sign] is the member the constructors of LEAST (1) and GREATEST
    (-1) set in item_func.h.  The comparison of dates
    ([compare_as_dates], [cmp_datetimes] and the conversion of the packed
    result) lives in other files; what it returns is a parameter. *)
Variable cmp_sign : Z.

Variable compare_as_dates : bool.

Variable datetime_val_int : M (Z * bool).

(** The loop of [Item_func_min_max::val_int] over [args[1..]]; its state
    is [value], [val_unsigned] and the [null_value] it leaves. *)
Fixpoint min_max_int_loop (rest : list Item) (value : Z) (val_unsigned : bool)
  : Z * bool * bool :=
  match rest with
  | [] => (value, val_unsigned, false)
  | a :: rest' =>
      let tmp := val_int a in
      if null_value a then (value, val_unsigned, true)
      else
        let tmp_unsigned := unsigned_flag a in
        let tmp_is_smaller :=
          Integer_value_lt tmp tmp_unsigned value val_unsigned in
        if 0 <? (if tmp_is_smaller then cmp_sign else - cmp_sign)
        then min_max_int_loop rest' tmp tmp_unsigned
        else min_max_int_loop rest' value val_unsigned
  end.

(** [Item_func_min_max::val_int] on the arguments [a0 :: rest]. *)
Definition Item_func_min_max_val_int (a0 : Item) (rest : list Item)
  : M (Z * bool) :=
  if compare_as_dates then datetime_val_int
  else
    let value := val_int a0 in
    if null_value a0 then ret (value, true)
    else
      let '(value, _, null) :=
        min_max_int_loop rest value (unsigned_flag a0) in
      ret (value, null).

End MinMax.

(** The loops of [Item_func_field::val_int] over [args[1..]]: the index
    [i] of the first argument that matches, 0 when none does. *)
Fixpoint field_index (matches : Item -> bool) (rest : list Item) (i : Z) : Z :=
  match rest with
  | [] => 0
  | a :: rest' => if matches a then i else field_index matches rest' (i + 1)
  end.

Section Field.

(** The strings of the operands, their comparison under the collation
    of the node and the comparison of decimals live in other files; they
    are parameters here.  [cmp_type] is the member that
    [Item_func_field::resolve_type] sets. *)
Variable str : Type.

Variable val_str : Item -> option str.

Variable sortcmp : str -> str -> Z.

Variable my_decimal_cmp : my_decimal -> my_decimal -> Z.

(** [Item_func_field::val_int] on the arguments [a0 :: rest]. *)
Definition Item_func_field_val_int (cmp_type : Item_result) (a0 : Item)
  (rest : list Item) : Z :=
  match cmp_type with
  | STRING_RESULT =>
      match val_str a0 with
      | None => 0
      | Some field =>
          field_index
            (fun a => match val_str a with
                      | Some tmp_value => sortcmp field tmp_value =? 0
                      | None => false
                      end) rest 1
      end
  | INT_RESULT =>
      let val := val_int a0 in
      if null_value a0 then 0
      else field_index (fun a => (val =? val_int a) && negb (null_value a))
                       rest 1
  | DECIMAL_RESULT =>
      let dec := val_decimal a0 in
      if null_value a0 then 0
      else field_index
             (fun a => negb (null_value a)
                       && (my_decimal_cmp (val_decimal a) dec =? 0)) rest 1
  | _ =>
      let val := val_real a0 in
      if null_value a0 then 0
      else field_index (fun a => d_eqb val (val_real a) && negb (null_value a))
                       rest 1
  end.

End Field.

(** [Item_func_sign::val_int]. *)
Definition Item_func_sign_val_int (a0 : Item) : Z * bool :=
  let value := val_real a0 in
  (if SFltb value d_zero then -1 else if SFltb d_zero value then 1 else 0,
   null_value a0).

(** ** Subtraction of decimals *)

Section DecimalSub.

(** The subtraction of the decimal library (decimal.c) is a parameter:
    it returns a status next to the difference. *)
Variable decimal_sub : my_decimal -> my_decimal -> Z * my_decimal.

(** Modelled from the spec: the wrapper [my_decimal_sub] of the missing
    my_decimal.h, the primitive followed by [check_result]. *)
Definition my_decimal_sub (mask : Z) (a b : my_decimal) : M (Z * my_decimal) :=
  let (st, res) := decimal_sub a b in
  st' <- check_result mask st ;; ret (st', res).

(** [Item_func_minus::decimal_op]: the pointer returned ([None] for
    NULL) and the [null_value] left. *)
Definition Item_func_minus_decimal_op (this : Item_func) (a0 a1 : Item)
  : M (option my_decimal * bool) :=
  let val1 := val_decimal a0 in
  if null_value a0 then ret (None, true)
  else
    let val2 := val_decimal a1 in
    if null_value a1 then ret (None, true)
    else
      r <- my_decimal_sub (Z.land E_DEC_FATAL_ERROR (Z.lnot E_DEC_OVERFLOW))
             val1 val2 ;;
      err <- check_decimal_overflow (fst r) ;;
      if 3 <? err then ret (Some decimal_zero, true)
      else if this_unsigned_flag this && decimal_sign (snd r) then
        _ <- raise_decimal_overflow ;;
        ret (Some decimal_zero, maybe_null this)
      else ret (Some (snd r), false).

End DecimalSub.

(** ** Traversal of an expression tree *)

(** Modelled from the spec: the enumerations [traverse_order] and
    [enum_walk] of the missing header item.h: a visit is prefix or
    postfix, and the two are bits of the walk flags. *)
Inductive traverse_order : Type := POSTFIX | PREFIX.

Definition WALK_PREFIX : Z := 1.
Definition WALK_POSTFIX : Z := 2.

Section Traversal.

Variable basic : Type.

(** The object the [argument] pointer of a traversal refers to. *)
Variable A : Type.

Variable traverser : item_tree basic -> A -> A.

Variable processor : item_tree basic -> A -> bool * A.

(** [Item::traverse_cond], a virtual call: [Item_func::traverse_cond] on
    a function node; an item that is not a function hands itself to the
    traverser. *)
Fixpoint Item_traverse_cond (order : traverse_order) (i : item_tree basic)
  (argument : A) {struct i} : A :=
  match i with
  | Basic_item _ _ => traverser i argument
  | Func_item _ _ _ args _ =>
      match args with
      | [] => traverser i argument
      | _ :: _ =>
          match order with
          | PREFIX =>
              fold_left (fun argument x => Item_traverse_cond order x argument)
                        args (traverser i argument)
          | POSTFIX =>
              traverser i
                (fold_left (fun argument x => Item_traverse_cond order x argument)
                           args argument)
          end
      end
  end.

(** [Item::walk], a virtual call: [Item_func::walk] on a function node;
    an item that is not a function hands itself to the processor. *)
Fixpoint Item_walk (walk : Z) (i : item_tree basic) (argument : A) {struct i}
  : bool * A :=
  match i with
  | Basic_item _ _ => processor i argument
  | Func_item _ _ _ args _ =>
      let pre :=
        if negb (Z.land walk WALK_PREFIX =? 0) then processor i argument
        else (false, argument) in
      if fst pre then (true, snd pre)
      else
        let loop :=
          (fix walk_args (l : list (item_tree basic)) (argument : A)
             {struct l} : bool * A :=
             match l with
             | [] => (false, argument)
             | x :: r =>
                 let (stop, argument) := Item_walk walk x argument in
                 if stop then (true, argument) else walk_args r argument
             end) args (snd pre) in
        if fst loop then (true, snd loop)
        else if negb (Z.land walk WALK_POSTFIX =? 0)
             then processor i (snd loop)
             else (false, snd loop)
  end.

(** The nodes of a tree, parents first and parents last. *)
Fixpoint prefix_nodes (i : item_tree basic) : list (item_tree basic) :=
  match i with
  | Basic_item _ _ => [i]
  | Func_item _ _ _ args _ => i :: flat_map prefix_nodes args
  end.

Fixpoint postfix_nodes (i : item_tree basic) : list (item_tree basic) :=
  match i with
  | Basic_item _ _ => [i]
  | Func_item _ _ _ args _ => flat_map postfix_nodes args ++ [i]
  end.

(** The nodes a walk hands to the processor, in order, when the
    processor never stops it. *)
Fixpoint walk_nodes (walk : Z) (i : item_tree basic) : list (item_tree basic) :=
  match i with
  | Basic_item _ _ => [i]
  | Func_item _ _ _ args _ =>
      (if negb (Z.land walk WALK_PREFIX =? 0) then [i] else [])
      ++ flat_map (walk_nodes walk) args
      ++ (if negb (Z.land walk WALK_POSTFIX =? 0) then [i] else [])
  end.

(** The processor applied along a list of nodes up to its first
    success. *)
Fixpoint process_until (l : list (item_tree basic)) (argument : A) : bool * A :=
  match l with
  | [] => (false, argument)
  | n :: r =>
      let (stop, argument) := processor n argument in
      if stop then (true, argument) else process_until r argument
  end.

End Traversal.

Arguments Item_traverse_cond {basic A} traverser order i argument.
Arguments Item_walk {basic A} processor walk i argument.
Arguments prefix_nodes {basic} i.
Arguments postfix_nodes {basic} i.
Arguments walk_nodes {basic} walk i.
Arguments process_until {basic A} processor l argument.

(** ** Notions used in the statements about these operators *)

(** The operands on which the evaluation of the integer sum is
    undefined: two signed operands whose sum is not a [longlong]. *)
Definition plus_undefined (a0 a1 : Item) : Prop :=
  unsigned_flag a0 = false /\ unsigned_flag a1 = false
  /\ ~ is_longlong (val_int a0 + val_int a1).


(** The operands on which the evaluation of the integer product is
    undefined: a signed operand [LLONG_MIN], and a product
    [LLONG_MIN]. *)
Definition mul_undefined (arg0 arg1 : Item) : Prop :=
  (unsigned_flag arg0 = false /\ val_int arg0 = LLONG_MIN)
  \/ (unsigned_flag arg1 = false /\ val_int arg1 = LLONG_MIN)
  \/ int_value arg0 * int_value arg1 = LLONG_MIN.

(** The outcome of an integer operator that ends in
    [check_integer_overflow], or in [raise_integer_overflow] when its
    branches found no (value, unsigned) pair. *)
Definition int_op_finish (this : Item_func) (res : Z) (r : option bool)
  : M (Z * bool) :=
  match r with
  | Some res_unsigned =>
      v <- check_integer_overflow this res res_unsigned ;; ret (v, false)
  | None => v <- raise_integer_overflow this ;; ret (v, false)
  end.

(** The quotients an integer division returns: those the node can
    hold, except that a signed node never returns [LLONG_MIN]. *)
Definition int_div_range (unsigned : bool) (z : Z) : Prop :=
  if unsigned then is_ulonglong z else LLONG_MIN < z <= LLONG_MAX.

(** The node [ABS] is after resolution. *)
Definition abs_resolved_node (this : Item_func) (a0 : Item) (thd : THD)
  : Item_func :=
  snd (fst (Item_func_abs_resolve_type this a0 thd)).


(** The 64 bits an integer evaluation returned, as an operand. *)
Definition bits_operand (r : Z * bool) : Item :=
  mk_Item FUNC_ITEM MYSQL_TYPE_LONGLONG INT_RESULT INT_RESULT false true 0 21 20
          (snd r) (fst r) (d_of_Z (to_ull (fst r))) (int2my_decimal (fst r) true).

(** The digit count a (value, unsigned) pair asks for, limited to the
    range [0 .. cap]. *)
Definition clamp_digits (val1 : Z) (val1_unsigned : bool) (cap : Z) : Z :=
  Z.min (Z.max 0 (pair_value val1 val1_unsigned)) cap.

(** An operand [reject_geometry_args] refuses. *)
Definition is_geometry (a : Item) : bool :=
  negb (Item_result_eqb (result_type a) ROW_RESULT)
  && match field_type a with MYSQL_TYPE_GEOMETRY => true | _ => false end.

(** The largest of the values [f a] over the operands, and 0 for none. *)
Definition max_over (f : Item -> Z) (args : list Item) : Z :=
  fold_right Z.max 0 (map f args).

(** An operand whose [decimals] and [max_length] are in the range the
    resolution of a floating-point function expects. *)
Definition real_length_operand (a : Item) : Prop :=
  0 <= decimals a <= NOT_FIXED_DEC /\ 0 <= max_length a < 2 ^ 32.

(** The order LEAST ([cmp_sign] 1) and GREATEST (-1) look for the first
    element of. *)
Definition cmp_order (cmp_sign : Z) (x y : Z) : Prop :=
  if 0 <? cmp_sign then x <= y else y <= x.

(** The (value, unsigned) pair of an operand. *)
Definition operand_pair (a : Item) : Z * bool := (val_int a, unsigned_flag a).

(** The first of [rest] that matches is at the 1-based position [r]. *)
Definition first_match (matches : Item -> bool) (rest : list Item) (r : Z)
  : Prop :=
  exists before a after,
    rest = before ++ a :: after
    /\ forallb (fun a => negb (matches a)) before = true
    /\ matches a = true
    /\ r = 1 + Z.of_nat (List.length before).

(** A conversion of decimals to integers that always answers 0, and an
    exact subtraction of decimals; they stand for the library where a
    statement is applied to concrete operands. *)
Definition no_decimal2int : Z -> my_decimal -> bool -> M (Z * Z) :=
  fun _ _ _ => ret (E_DEC_OK, 0).

Definition exact_decimal_sub (a b : my_decimal) : Z * my_decimal :=
  let f := Z.max (frac a) (frac b) in
  (E_DEC_OK, mk_decimal (rescale a f - rescale b f) f).

(** * Properties *)

(** ** Wrap-around arithmetic *)

Lemma to_ull_spec (z : Z) :
  exists k, to_ull z = z + k * 2 ^ 64 /\ 0 <= to_ull z < 2 ^ 64.
Proof.
  unfold to_ull. exists (- (z / 2 ^ 64)). split.
  - rewrite (Z.mod_eq z (2 ^ 64)) by lia. lia.
  - apply Z.mod_pos_bound. lia.
Qed.

Lemma to_ll_spec (z : Z) :
  exists k, to_ll z = z + k * 2 ^ 64 /\ - 2 ^ 63 <= to_ll z < 2 ^ 63.
Proof.
  unfold to_ll. exists (- ((z + 2 ^ 63) / 2 ^ 64)). split.
  - rewrite (Z.mod_eq (z + 2 ^ 63) (2 ^ 64)) by lia. lia.
  - pose proof (Z.mod_pos_bound (z + 2 ^ 63) (2 ^ 64)). lia.
Qed.

(** Every cast in the goal and the hypotheses is replaced by a variable
    constrained by its defining equation. *)
Ltac casts :=
  repeat match goal with
    | |- context [to_ull ?x] =>
        let k := fresh "k" in let u := fresh "u" in
        destruct (to_ull_spec x) as (k & ? & ?);
        set (u := to_ull x) in *; clearbody u
    | _ : context [to_ull ?x] |- _ =>
        let k := fresh "k" in let u := fresh "u" in
        destruct (to_ull_spec x) as (k & ? & ?);
        set (u := to_ull x) in *; clearbody u
    | |- context [to_ll ?x] =>
        let k := fresh "k" in let u := fresh "u" in
        destruct (to_ll_spec x) as (k & ? & ?);
        set (u := to_ll x) in *; clearbody u
    | _ : context [to_ll ?x] |- _ =>
        let k := fresh "k" in let u := fresh "u" in
        destruct (to_ll_spec x) as (k & ? & ?);
        set (u := to_ll x) in *; clearbody u
    end.

Ltac bounds :=
  unfold is_longlong, is_ulonglong, LLONG_MAX, LLONG_MIN, ULLONG_MAX,
    INT_MAX, INT_MIN in *.

Ltac wrap_lia := bounds; casts; lia.

Lemma to_ll_id (z : Z) : is_longlong z -> to_ll z = z.
Proof. intros. wrap_lia. Qed.

Lemma to_ull_id (z : Z) : is_ulonglong z -> to_ull z = z.
Proof. intros. wrap_lia. Qed.

Lemma to_ll_to_ull (z : Z) : to_ll (to_ull z) = to_ll z.
Proof. wrap_lia. Qed.

Lemma to_ull_to_ll (z : Z) : to_ull (to_ll z) = to_ull z.
Proof. wrap_lia. Qed.

(** ** Outcomes *)

Lemma not_raised_same (e : error_code) (thd : THD) : ~ raised e thd thd.
Proof.
  intros [s H]. apply (f_equal conditions) in H. simpl in H.
  apply (f_equal (@List.length _)) in H. rewrite length_app in H.
  simpl in H. lia.
Qed.

Lemma raise_integer_overflow_raised (this : Item_func) (thd : THD) :
  fst (raise_integer_overflow this thd) = 0 /\
  raised ER_DATA_OUT_OF_RANGE thd (snd (raise_integer_overflow this thd)).
Proof.
  unfold raise_integer_overflow, raise_numeric_overflow, my_error,
    push_condition, bind, ret; simpl. split; [reflexivity|].
  eexists. reflexivity.
Qed.

(** ** Resolution of the category *)

Lemma hybrid_type_result_precision (op : num_op) (inc : Z) (this : Item_func)
  (a0 a1 : Item) :
  hybrid_type (result_precision op inc this a0 a1) = hybrid_type this.
Proof. destruct op; reflexivity. Qed.

Lemma promotion_rule_numeric (r0 r1 : Item_result) :
  numeric_category (promotion_rule r0 r1).
Proof.
  unfold promotion_rule, numeric_category.
  destruct (_ || _); [tauto|]. destruct (_ || _); tauto.
Qed.

Lemma hybrid_type_find_num_type (op : num_op) (inc : Z) (this : Item_func)
  (a0 a1 : Item) :
  hybrid_type (Item_num_op_find_num_type op inc this a0 a1)
  = promotion_rule (numeric_context_result_type a0)
                   (numeric_context_result_type a1).
Proof.
  unfold Item_num_op_find_num_type, promotion_rule.
  destruct (Item_result_eqb (numeric_context_result_type a0) REAL_RESULT
            || Item_result_eqb (numeric_context_result_type a1) REAL_RESULT).
  - reflexivity.
  - destruct (Item_result_eqb (numeric_context_result_type a0) DECIMAL_RESULT
              || Item_result_eqb (numeric_context_result_type a1) DECIMAL_RESULT);
      rewrite hybrid_type_result_precision; reflexivity.
Qed.

Lemma Item_num_op_resolve_type_spec (op : num_op) (inc : Z) (this : Item_func)
  (a0 a1 : Item) (thd : THD) :
  snd (fst (Item_num_op_resolve_type op inc this a0 a1 thd))
  = Item_num_op_find_num_type op inc this a0 a1.
Proof.
  unfold Item_num_op_resolve_type, bind.
  destruct (reject_geometry_args [a0; a1] (func_name_of op) thd). reflexivity.
Qed.

(** ** Integer addition and modulo *)

Arguments to_ull : simpl never.
Arguments to_ll : simpl never.

Ltac cmp :=
  repeat match goal with
    | |- context [?a <? ?b] => destruct (Z.ltb_spec a b)
    | |- context [?a <=? ?b] => destruct (Z.leb_spec a b)
    | |- context [?a =? ?b] => destruct (Z.eqb_spec a b)
    end.

(** The branches of [Item_func_plus::int_op] up to the final check decide
    whether the sum is a (value, unsigned) pair at all, and which. *)
Lemma plus_res_unsigned_spec (a0 a1 : Item) :
  is_longlong (val_int a0) -> is_longlong (val_int a1) ->
  let sum := int_value a0 + int_value a1 in
  let res := to_ll (val_int a0 + val_int a1) in
  match plus_res_unsigned a0 a1 res with
  | None => ~ (LLONG_MIN <= sum <= ULLONG_MAX)
  | Some u => pair_value res u = sum
  end.
Proof.
  intros R0 R1. unfold plus_res_unsigned, int_value, pair_value,
    test_if_sum_overflows_ull.
  destruct (unsigned_flag a0), (unsigned_flag a1); simpl orb; cbv iota zeta;
    cmp; simpl; wrap_lia.
Qed.

(** [check_integer_overflow] accepts a pair exactly when the node can
    return the number it stands for. *)
Lemma check_integer_overflow_spec (this : Item_func) (value : Z) (u : bool)
  (thd : THD) :
  is_longlong value ->
  (representable (this_unsigned_flag this) (pair_value value u) ->
   check_integer_overflow this value u thd = (value, thd))
  /\ (~ representable (this_unsigned_flag this) (pair_value value u) ->
      check_integer_overflow this value u thd = raise_integer_overflow this thd).
Proof.
  intros R. unfold check_integer_overflow, representable, pair_value, ret.
  destruct (this_unsigned_flag this), u; simpl; cmp; simpl;
    split; intros; try reflexivity; exfalso; wrap_lia.
Qed.

Lemma in_longlong_spec (z : Z) : in_longlong z = true <-> is_longlong z.
Proof.
  unfold in_longlong, is_longlong. rewrite andb_true_iff, !Z.leb_le. tauto.
Qed.

Lemma in_longlong_false (z : Z) : in_longlong z = false <-> ~ is_longlong z.
Proof.
  rewrite <- in_longlong_spec. destruct (in_longlong z); split; intros H.
  - discriminate H.
  - exfalso. apply H. reflexivity.
  - intros X. discriminate X.
  - reflexivity.
Qed.

(** The sum the branches of [Item_func_plus::int_op] read, when the
    evaluation is defined. *)
Lemma plus_res_defined (a0 a1 : Item) :
  ~ plus_undefined a0 a1 ->
  (if unsigned_flag a0 || unsigned_flag a1
   then Returns (to_ll (val_int a0 + val_int a1))
   else ll_add (val_int a0) (val_int a1))
  = Returns (to_ll (val_int a0 + val_int a1)).
Proof.
  intros D. unfold plus_undefined in D.
  destruct (unsigned_flag a0), (unsigned_flag a1); cbn [orb]; try reflexivity.
  unfold ll_add. destruct (in_longlong (val_int a0 + val_int a1)) eqn:E.
  - apply in_longlong_spec in E. rewrite (to_ll_id _ E). reflexivity.
  - apply in_longlong_false in E. exfalso. apply D. repeat split. exact E.
Qed.

Lemma plus_int_op_undefined (this : Item_func) (a0 a1 : Item) (thd : THD) :
  plus_undefined a0 a1 -> Item_func_plus_int_op this a0 a1 thd = Undefined.
Proof.
  intros (U0 & U1 & O). unfold Item_func_plus_int_op, ll_add.
  rewrite U0, U1. cbn [orb]. apply in_longlong_false in O. rewrite O.
  reflexivity.
Qed.

Lemma plus_int_op_cases (this : Item_func) (a0 a1 : Item) (thd : THD) :
  is_longlong (val_int a0) -> is_longlong (val_int a1) ->
  null_value a0 = false -> null_value a1 = false ->
  ~ plus_undefined a0 a1 ->
  let sum := int_value a0 + int_value a1 in
  let out := Item_func_plus_int_op this a0 a1 thd in
  (representable (this_unsigned_flag this) sum ->
   out = Returns ((to_ll sum, false), thd))
  /\ (~ representable (this_unsigned_flag this) sum ->
      out = Returns ((0, false), snd (raise_integer_overflow this thd))).
Proof.
  intros R0 R1 N0 N1 D sum out. subst out.
  unfold Item_func_plus_int_op. cbv zeta. rewrite (plus_res_defined a0 a1 D).
  rewrite N0, N1. cbn [orb]. cbv iota.
  pose proof (plus_res_unsigned_spec a0 a1 R0 R1) as S. cbv zeta in S.
  fold sum in S.
  set (res := to_ll (val_int a0 + val_int a1)) in *.
  assert (Rres : is_longlong res) by (subst res; wrap_lia).
  destruct (plus_res_unsigned a0 a1 res) as [u|].
  - destruct (check_integer_overflow_spec this res u thd Rres) as [Ok Ko].
    rewrite S in Ok, Ko. unfold bind, ret. cbv beta. split; intros H.
    + rewrite (Ok H). do 3 f_equal. rewrite <- S. unfold pair_value.
      destruct u; [rewrite to_ll_to_ull|]; symmetry; apply to_ll_id; exact Rres.
    + rewrite (Ko H). reflexivity.
  - unfold bind, ret. cbv beta. split; intros H.
    + exfalso. apply S. unfold representable in H.
      destruct (this_unsigned_flag this); bounds; lia.
    + reflexivity.
Qed.

Lemma representable_dec (u : bool) (z : Z) :
  representable u z \/ ~ representable u z.
Proof. unfold representable. destruct u; bounds; lia. Qed.

Lemma plus_int_op_defined (this : Item_func) (a0 a1 : Item) (thd : THD) :
  is_longlong (val_int a0) -> is_longlong (val_int a1) ->
  null_value a0 = false -> null_value a1 = false ->
  ~ plus_undefined a0 a1 ->
  exists r, Item_func_plus_int_op this a0 a1 thd = Returns r.
Proof.
  intros R0 R1 N0 N1 D.
  destruct (plus_int_op_cases this a0 a1 thd R0 R1 N0 N1 D) as [Ok Ko].
  destruct (representable_dec (this_unsigned_flag this)
              (int_value a0 + int_value a1)) as [P|P].
  - eexists. exact (Ok P).
  - eexists. exact (Ko P).
Qed.

Lemma NNPP_plus_undefined (a0 a1 : Item) :
  ~ ~ plus_undefined a0 a1 -> plus_undefined a0 a1.
Proof.
  unfold plus_undefined. intros H.
  destruct (unsigned_flag a0); [exfalso; apply H; intros (X & _); discriminate X|].
  destruct (unsigned_flag a1);
    [exfalso; apply H; intros (_ & X & _); discriminate X|].
  repeat split. intros I. apply H. intros (_ & _ & X). exact (X I).
Qed.

(** The error is raised exactly when the sum is out of the range of the
    node, in every defined evaluation. *)
Lemma plus_int_op_overflow_rules (this : Item_func) (a0 a1 : Item) (thd : THD)
  (r : (Z * bool) * THD) :
  is_longlong (val_int a0) -> is_longlong (val_int a1) ->
  null_value a0 = false -> null_value a1 = false ->
  this_unsigned_flag this = unsigned_flag a0 || unsigned_flag a1 ->
  Item_func_plus_int_op this a0 a1 thd = Returns r ->
  let sum := int_value a0 + int_value a1 in
  (raised ER_DATA_OUT_OF_RANGE thd (snd r) <->
   ~ representable (this_unsigned_flag this) sum)
  /\ (representable (this_unsigned_flag this) sum ->
      r = ((to_ll sum, false), thd))
  /\ (unsigned_flag a0 = true -> unsigned_flag a1 = true ->
      (raised ER_DATA_OUT_OF_RANGE thd (snd r) <->
       ULLONG_MAX - to_ull (val_int a0) < to_ull (val_int a1)))
  /\ (unsigned_flag a0 = false -> unsigned_flag a1 = false ->
      ~ raised ER_DATA_OUT_OF_RANGE thd (snd r)).
Proof.
  intros R0 R1 N0 N1 U E sum.
  assert (D : ~ plus_undefined a0 a1).
  { intros D. rewrite (plus_int_op_undefined this a0 a1 thd D) in E.
    discriminate E. }
  destruct (plus_int_op_cases this a0 a1 thd R0 R1 N0 N1 D) as [Ok Ko].
  fold sum in Ok, Ko. cbv zeta in Ok, Ko. rewrite E in Ok, Ko.
  assert (Q : raised ER_DATA_OUT_OF_RANGE thd (snd r) <->
              ~ representable (this_unsigned_flag this) sum).
  { split.
    - intros Hr Hrep. specialize (Ok Hrep). injection Ok as ->.
      exact (not_raised_same _ _ Hr).
    - intros Hn. specialize (Ko Hn). injection Ko as ->.
      apply raise_integer_overflow_raised. }
  split; [exact Q|]. split.
  { intros H. specialize (Ok H). injection Ok as ->. reflexivity. }
  split.
  - intros U0 U1. rewrite Q, U, U0, U1. subst sum.
    unfold int_value, representable. rewrite U0, U1. cbn [orb]. cbv iota.
    wrap_lia.
  - intros U0 U1. rewrite Q, U, U0, U1. cbn [orb]. intros H. apply H.
    subst sum. unfold int_value, representable. rewrite U0, U1.
    unfold plus_undefined in D. rewrite U0, U1 in D.
    destruct (in_longlong (val_int a0 + val_int a1)) eqn:I.
    + apply in_longlong_spec. exact I.
    + apply in_longlong_false in I. exfalso. apply D. repeat split. exact I.
Qed.

(** Resolution of a sum of two Integer operands gives an Integer node
    that is unsigned when either operand is. *)
Lemma plus_resolved_node (this : Item_func) (a0 a1 : Item) (thd : THD) :
  numeric_context_result_type a0 = INT_RESULT ->
  numeric_context_result_type a1 = INT_RESULT ->
  hybrid_type (resolved_node OP_PLUS this a0 a1 thd) = INT_RESULT
  /\ this_unsigned_flag (resolved_node OP_PLUS this a0 a1 thd)
     = unsigned_flag a0 || unsigned_flag a1.
Proof.
  intros C0 C1. unfold resolved_node, resolve_type.
  rewrite Item_num_op_resolve_type_spec.
  unfold Item_num_op_find_num_type. rewrite C0, C1. split; reflexivity.
Qed.

(** X22.  [Item_func_plus::int_op] on two non-null 64-bit Integer
    operands, each signed or unsigned, on the resolved node (unsigned
    when either operand is).  The evaluation is undefined exactly when
    both operands are signed and their sum is not a [longlong].  Every
    defined evaluation raises the out-of-range error exactly when the
    mathematical sum of the operands is not a number the node can
    return, and otherwise returns the sum and leaves the session
    untouched.  For two unsigned operands the error is raised exactly
    when [ULLONG_MAX - a < b]; for two signed operands a defined
    evaluation never raises it. *)
Theorem plus_int_op_overflow_exact :
  forall (this0 : Item_func) (a0 a1 : Item) (thd0 thd : THD),
    numeric_context_result_type a0 = INT_RESULT ->
    numeric_context_result_type a1 = INT_RESULT ->
    is_longlong (val_int a0) -> is_longlong (val_int a1) ->
    null_value a0 = false -> null_value a1 = false ->
    let this := resolved_node OP_PLUS this0 a0 a1 thd0 in
    let sum := int_value a0 + int_value a1 in
    let out := Item_func_plus_int_op this a0 a1 thd in
    hybrid_type this = INT_RESULT
    /\ this_unsigned_flag this = unsigned_flag a0 || unsigned_flag a1
    /\ (out = Undefined <-> plus_undefined a0 a1)
    /\ (forall r, out = Returns r ->
          (raised ER_DATA_OUT_OF_RANGE thd (snd r) <->
           ~ representable (this_unsigned_flag this) sum)
          /\ (representable (this_unsigned_flag this) sum ->
              r = ((to_ll sum, false), thd))
          /\ (unsigned_flag a0 = true -> unsigned_flag a1 = true ->
              (raised ER_DATA_OUT_OF_RANGE thd (snd r) <->
               ULLONG_MAX - to_ull (val_int a0) < to_ull (val_int a1)))
          /\ (unsigned_flag a0 = false -> unsigned_flag a1 = false ->
              ~ raised ER_DATA_OUT_OF_RANGE thd (snd r))).
Proof.
  intros this0 a0 a1 thd0 thd C0 C1 R0 R1 N0 N1 this sum out.
  destruct (plus_resolved_node this0 a0 a1 thd0 C0 C1) as [H U].
  fold this in H, U. split; [exact H|]. split; [exact U|]. split.
  - split.
    + intros E. apply NNPP_plus_undefined. intros D.
      destruct (plus_int_op_defined this a0 a1 thd R0 R1 N0 N1 D) as [r Er].
      fold out in Er. rewrite E in Er. discriminate Er.
    + intros D. apply plus_int_op_undefined. exact D.
  - intros r E.
    exact (plus_int_op_overflow_rules this a0 a1 thd r R0 R1 N0 N1 U E).
Qed.

(** [ULLONG_MAX + 0] on unsigned operands is [ULLONG_MAX] (the bit
    pattern -1), and [ULLONG_MAX + 1] raises the error. *)
Lemma plus_int_op_overflow_witness :
  Item_func_plus_int_op
    (resolved_node OP_PLUS this0 (int_item INT_ITEM (-1) true)
       (int_item INT_ITEM 0 true) thd0)
    (int_item INT_ITEM (-1) true) (int_item INT_ITEM 0 true) thd0
  = Returns ((-1, false), thd0)
  /\ raised ER_DATA_OUT_OF_RANGE thd0
       (mk_THD 0 4 [mk_condition SL_ERROR ER_DATA_OUT_OF_RANGE "BIGINT UNSIGNED"]).
Proof.
  split.
  - reflexivity.
  - apply (proj2 (proj1 (proj2 (proj2 (proj2 (plus_int_op_overflow_exact this0
                    (int_item INT_ITEM (-1) true)
                    (int_item INT_ITEM 1 true) thd0 thd0 eq_refl eq_refl
                    ltac:(vm_compute; split; discriminate)
                    ltac:(vm_compute; split; discriminate)
                    eq_refl eq_refl)))
             ((0, false),
              mk_THD 0 4 [mk_condition SL_ERROR ER_DATA_OUT_OF_RANGE
                            "BIGINT UNSIGNED"]) eq_refl))).
    vm_compute. intros [_ H]. apply H. reflexivity.
Defined.

(** C2.  [LLONG_MIN + (-1)] on two signed operands: the sum is below
    the range of the node, and the evaluation reports no overflow: the
    addition [val0 + val1] itself overflows, so the evaluation is
    undefined.  The branch that is to detect a negative overflow,
    [val0 < 0 && val1 < 0 && res >= 0], is never taken by a defined
    evaluation: for every two negative signed operands the evaluation
    either is undefined or returns their sum without an error. *)
Theorem plus_int_op_signed_overflow_undefined :
  forall (this : Item_func) (a0 a1 : Item) (thd : THD),
    unsigned_flag a0 = false -> unsigned_flag a1 = false ->
    null_value a0 = false -> null_value a1 = false ->
    val_int a0 < 0 -> val_int a1 < 0 ->
    this_unsigned_flag this = false ->
    (val_int a0 + val_int a1 < LLONG_MIN ->
     Item_func_plus_int_op this a0 a1 thd = Undefined)
    /\ (LLONG_MIN <= val_int a0 + val_int a1 ->
        Item_func_plus_int_op this a0 a1 thd
        = Returns ((val_int a0 + val_int a1, false), thd)).
Proof.
  intros this a0 a1 thd U0 U1 N0 N1 V0 V1 U. split; intros H.
  - apply plus_int_op_undefined. repeat split; try assumption.
    unfold is_longlong. lia.
  - unfold Item_func_plus_int_op, ll_add, in_longlong, plus_res_unsigned.
    rewrite U0, U1, N0, N1. cbn [orb]. cbv zeta.
    destruct (Z.leb_spec LLONG_MIN (val_int a0 + val_int a1)); [|lia].
    destruct (Z.leb_spec (val_int a0 + val_int a1) LLONG_MAX);
      [|bounds; lia].
    cbn [andb]. cbv iota.
    destruct (Z.leb_spec 0 (val_int a0)); [lia|].
    destruct (Z.ltb_spec (val_int a0) 0); [|lia].
    destruct (Z.ltb_spec (val_int a1) 0); [|lia].
    destruct (Z.leb_spec 0 (val_int a0 + val_int a1)); [lia|].
    cbn [andb]. cbv iota.
    unfold check_integer_overflow, bind, ret. rewrite U. reflexivity.
Qed.

Lemma plus_int_op_signed_overflow_witness :
  Item_func_plus_int_op this0 (int_item INT_ITEM LLONG_MIN false)
    (int_item INT_ITEM (-1) false) thd0 = Undefined
  /\ Item_func_plus_int_op this0 (int_item INT_ITEM (-3) false)
       (int_item INT_ITEM (-4) false) thd0 = Returns ((-7, false), thd0).
Proof.
  split.
  - exact (proj1 (plus_int_op_signed_overflow_undefined this0
                    (int_item INT_ITEM LLONG_MIN false)
                    (int_item INT_ITEM (-1) false) thd0
                    eq_refl eq_refl eq_refl eq_refl eq_refl eq_refl eq_refl)
             eq_refl).
  - exact (proj2 (plus_int_op_signed_overflow_undefined this0
                    (int_item INT_ITEM (-3) false)
                    (int_item INT_ITEM (-4) false) thd0
                    eq_refl eq_refl eq_refl eq_refl eq_refl eq_refl eq_refl)
             ltac:(vm_compute; discriminate)).
Defined.

(** ** Division and modulo by zero *)

Lemma signal_divide_by_null_spec (thd : THD) :
  signal_divide_by_null thd = (true, with_division_warning thd).
Proof.
  unfold signal_divide_by_null, with_division_warning.
  destruct (division_warning_enabled thd); reflexivity.
Qed.

Lemma with_division_warning_spec (thd : THD) :
  (division_warning_enabled thd = true ->
   warned ER_DIVISION_BY_ZERO thd (with_division_warning thd))
  /\ (division_warning_enabled thd = false -> with_division_warning thd = thd)
  /\ is_error (with_division_warning thd) = is_error thd.
Proof.
  unfold with_division_warning, warned.
  destruct (division_warning_enabled thd); repeat split; try discriminate.
  unfold is_error. simpl. rewrite existsb_app. simpl.
  rewrite !orb_false_r. reflexivity.
Qed.

(** C1 (amended).  When both operands are non-null and the divisor is an
    exact zero (a zero double of either sign, a zero decimal, the integer
    0), every evaluation of [/] and [%] (real, decimal, integer; an
    integer [/] is evaluated in the decimal category) yields null and
    raises no error; the session gains a division-by-zero warning when
    [MODE_ERROR_FOR_DIVISION_BY_ZERO] is set and is left unchanged
    otherwise.  The null result does not depend on the mode.  When the
    dividend is null the result is null and the session is unchanged,
    whatever the divisor and the mode. *)
Theorem division_by_zero_is_null :
  forall (this : Item_func) (prec_increment : Z) (a0 a1 : Item) (thd : THD),
    (null_value a0 = false -> null_value a1 = false ->
     (d_eqb (val_real a1) d_zero = true ->
      Item_func_div_real_op a0 a1 thd
      = ((d_zero, true), with_division_warning thd)
      /\ Item_func_mod_real_op a0 a1 thd
         = ((d_zero, true), with_division_warning thd))
     /\ (decimal_is_zero (val_decimal a1) = true ->
         Item_func_div_decimal_op prec_increment a0 a1 thd
         = ((None, true), with_division_warning thd)
         /\ Item_func_mod_decimal_op a0 a1 thd
            = ((None, true), with_division_warning thd))
     /\ (val_int a1 = 0 ->
         Item_func_mod_int_op this a0 a1 thd
         = ((0, true), with_division_warning thd)))
    /\ (null_value a0 = true ->
        Item_func_div_real_op a0 a1 thd = ((d_zero, true), thd)
        /\ Item_func_mod_real_op a0 a1 thd = ((d_zero, true), thd)
        /\ Item_func_div_decimal_op prec_increment a0 a1 thd
           = ((None, true), thd)
        /\ Item_func_mod_decimal_op a0 a1 thd = ((None, true), thd)
        /\ Item_func_mod_int_op this a0 a1 thd = ((0, true), thd))
    /\ (division_warning_enabled thd = true ->
        warned ER_DIVISION_BY_ZERO thd (with_division_warning thd))
    /\ (division_warning_enabled thd = false -> with_division_warning thd = thd)
    /\ is_error (with_division_warning thd) = is_error thd.
Proof.
  intros this prec a0 a1 thd.
  split; [|split].
  - intros N0 N1. split; [|split].
    + intros Z. unfold Item_func_div_real_op, Item_func_mod_real_op.
      rewrite N0, N1, Z. cbn [orb]. cbv iota. unfold bind, ret.
      rewrite signal_divide_by_null_spec. split; reflexivity.
    + intros Z. unfold Item_func_div_decimal_op, Item_func_mod_decimal_op,
        my_decimal_div, my_decimal_mod, decimal_div, decimal_mod.
      rewrite N0, N1, Z. cbv iota. unfold bind, ret. cbn.
      rewrite signal_divide_by_null_spec. split; reflexivity.
    + intros Z. unfold Item_func_mod_int_op. rewrite N0, N1, Z.
      cbn [orb]. cbv iota. unfold bind, ret. cbn.
      rewrite signal_divide_by_null_spec. reflexivity.
  - intros N0.
    unfold Item_func_div_real_op, Item_func_mod_real_op,
      Item_func_div_decimal_op, Item_func_mod_decimal_op,
      Item_func_mod_int_op, ret.
    rewrite N0. cbn [orb]. repeat split; reflexivity.
  - apply with_division_warning_spec.
Qed.

(** [10 / 0] is null, with the warning under the mode and without it
    otherwise. *)
Lemma division_by_zero_is_null_witness :
  Item_func_div_decimal_op 4 (int_item INT_ITEM 10 false)
    (int_item INT_ITEM 0 false) thd_division_warning
  = ((None, true), with_division_warning thd_division_warning)
  /\ Item_func_div_decimal_op 4 (int_item INT_ITEM 10 false)
       (int_item INT_ITEM 0 false) thd0
     = ((None, true), thd0).
Proof.
  split.
  - exact (proj1 (proj1 (proj2 (proj1 (division_by_zero_is_null this0 4
             (int_item INT_ITEM 10 false) (int_item INT_ITEM 0 false)
             thd_division_warning) eq_refl eq_refl)) eq_refl)).
  - exact (proj1 (proj1 (proj2 (proj1 (division_by_zero_is_null this0 4
             (int_item INT_ITEM 10 false) (int_item INT_ITEM 0 false)
             thd0) eq_refl eq_refl)) eq_refl)).
Defined.

(** C1 as stated fails when the dividend is null: the null test comes
    first, and [NULL / 0.0] is null without a warning even under the
    mode. *)
Lemma null_dividend_by_zero_no_warning :
  division_warning_enabled thd_division_warning = true
  /\ null_value (real_item d_zero) = false
  /\ d_eqb (val_real (real_item d_zero)) d_zero = true
  /\ Item_func_div_real_op null_real_field (real_item d_zero)
       thd_division_warning
     = ((d_zero, true), thd_division_warning)
  /\ Item_func_mod_real_op null_real_field (real_item d_zero)
       thd_division_warning
     = ((d_zero, true), thd_division_warning)
  /\ ~ warned ER_DIVISION_BY_ZERO thd_division_warning
         (snd (Item_func_div_real_op null_real_field (real_item d_zero)
                 thd_division_warning)).
Proof.
  repeat split; try reflexivity.
  intros H. unfold warned in H. vm_compute in H. discriminate H.
Qed.

(** ** Precision and scale of decimal results *)

(** C3 (amended).  The multiplication and division formulas saturate:
    for every pair of operands their precision is at most 65 and their
    scale at most 30.  The sum, difference and modulo formulas take the
    larger scale of the operands, so their scale is at most 30 for
    operands within the descriptor invariant; the precision of a sum or
    difference is [max(p1-s1, p2-s2) + 1 + scale], not saturated, and
    at most 65 + 1 + 30 for such operands.  The modulo formula computes
    no precision. *)
Theorem decimal_result_bounds :
  forall (this : Item_func) (prec_increment : Z) (a0 a1 : Item),
    (mul_precision a0 a1 <= DECIMAL_MAX_PRECISION
     /\ this_decimals (Item_func_mul_result_precision this a0 a1)
        <= DECIMAL_MAX_SCALE)
    /\ (div_precision prec_increment a0 a1 <= DECIMAL_MAX_PRECISION
        /\ this_decimals
             (Item_func_div_result_precision prec_increment this a0 a1)
           <= DECIMAL_MAX_SCALE)
    /\ (valid_descriptor a0 -> valid_descriptor a1 ->
        this_decimals (Item_func_additive_op_result_precision this a0 a1)
        <= DECIMAL_MAX_SCALE
        /\ this_decimals (Item_func_mod_result_precision this a0 a1)
           <= DECIMAL_MAX_SCALE
        /\ additive_precision a0 a1
           <= DECIMAL_MAX_PRECISION + 1 + DECIMAL_MAX_SCALE).
Proof.
  intros this inc a0 a1.
  unfold mul_precision, div_precision, additive_precision, valid_descriptor,
    Item_func_mul_result_precision, Item_func_div_result_precision,
    Item_func_additive_op_result_precision, Item_func_mod_result_precision,
    DECIMAL_MAX_PRECISION, DECIMAL_MAX_SCALE.
  cbn [this_decimals set_max_length set_decimals set_unsigned_flag].
  repeat split; try lia.
Qed.

(** Operands at the maxima; and the sum of a (7,2) and a (4,3) decimal
    has precision 9. *)
Lemma decimal_result_bounds_witness :
  this_decimals (Item_func_additive_op_result_precision this0
                   (decimal_field 65 30) (decimal_field 65 30)) <= 30
  /\ additive_precision (decimal_field 7 2) (decimal_field 4 3) = 9.
Proof.
  split.
  - apply (proj2 (proj2 (decimal_result_bounds this0 4
                           (decimal_field 65 30) (decimal_field 65 30)))).
    + unfold valid_descriptor. vm_compute. repeat split; discriminate.
    + unfold valid_descriptor. vm_compute. repeat split; discriminate.
  - reflexivity.
Defined.

(** C3 as stated fails for sums: two operands of precision 65 and scale
    0 give the precision 66 (a display length of 67), and the bound 96
    is reached. *)
Lemma additive_precision_exceeds_maximum :
  valid_descriptor (decimal_field 65 0)
  /\ additive_precision (decimal_field 65 0) (decimal_field 65 0) = 66
  /\ this_max_length
       (Item_func_additive_op_result_precision
          (set_hybrid_type DECIMAL_RESULT this0)
          (decimal_field 65 0) (decimal_field 65 0)) = 67
  /\ additive_precision (decimal_field 65 0) (decimal_field 65 30) = 96
  /\ DECIMAL_MAX_PRECISION = 65.
Proof.
  split; [unfold valid_descriptor; vm_compute; repeat split; discriminate|].
  repeat split; reflexivity.
Qed.

(** ** The category of a binary arithmetic operator *)

(** C5 (amended).  [Item_num_op::find_num_type] follows the order Real
    over Decimal over Integer, symmetrically in the two operands; a
    resolved [+], [-], [*] or [%] node has exactly that category, and a
    resolved [/] node has it too except that two Integer operands give a
    Decimal node. *)
Theorem binary_operator_category :
  forall (op : num_op) (this : Item_func) (a0 a1 : Item) (thd : THD),
    resolution_succeeds op this a0 a1 thd ->
    let r0 := numeric_context_result_type a0 in
    let r1 := numeric_context_result_type a1 in
    hybrid_type (Item_num_op_find_num_type op (div_precincrement thd) this a0 a1)
    = promotion_rule r0 r1
    /\ promotion_rule r0 r1 = promotion_rule r1 r0
    /\ resolved_category op this a0 a1 thd
       = match op, promotion_rule r0 r1 with
         | OP_DIV, INT_RESULT => DECIMAL_RESULT
         | _, r => r
         end.
Proof.
  intros op this a0 a1 thd OK r0 r1. split; [apply hybrid_type_find_num_type|].
  split.
  { subst r0 r1. unfold promotion_rule.
    destruct (numeric_context_result_type a0),
      (numeric_context_result_type a1); reflexivity. }
  unfold resolved_category, resolved_node, resolution_succeeds in *.
  destruct op; unfold resolve_type in *.
  - rewrite Item_num_op_resolve_type_spec, hybrid_type_find_num_type.
    destruct (promotion_rule _ _); reflexivity.
  - unfold Item_func_minus_resolve_type, bind, ret in *.
    pose proof (Item_num_op_resolve_type_spec OP_MINUS 0 this a0 a1 thd) as S.
    pose proof (hybrid_type_find_num_type OP_MINUS 0 this a0 a1) as T.
    destruct (Item_num_op_resolve_type OP_MINUS 0 this a0 a1 thd) as [[e t] thd'].
    cbn [fst snd] in *. subst t. fold r0 r1 in T.
    destruct e; cbn [fst snd] in *; [discriminate|].
    destruct (_ && _); cbn [fst snd]; rewrite <- T;
      destruct (promotion_rule r0 r1); reflexivity.
  - rewrite Item_num_op_resolve_type_spec, hybrid_type_find_num_type.
    destruct (promotion_rule _ _); reflexivity.
  - unfold Item_func_div_resolve_type in *.
    pose proof (Item_num_op_resolve_type_spec OP_DIV (div_precincrement thd)
                  this a0 a1 thd) as S.
    pose proof (hybrid_type_find_num_type OP_DIV (div_precincrement thd)
                  this a0 a1) as T.
    destruct (Item_num_op_resolve_type OP_DIV _ this a0 a1 thd) as [[e t] thd'].
    cbn [fst snd] in *. subst t. fold r0 r1 in T.
    destruct e; cbn [fst snd] in *; [discriminate|].
    rewrite T.
    destruct (promotion_rule_numeric r0 r1) as [P|[P|P]]; rewrite P;
      unfold Item_func_div_result_precision, set_maybe_null, set_max_length,
        set_decimals, set_unsigned_flag, set_hybrid_type;
      cbn [hybrid_type]; try reflexivity; rewrite T; exact P.
  - unfold Item_func_mod_resolve_type, bind, ret in *.
    pose proof (Item_num_op_resolve_type_spec OP_MOD 0 this a0 a1 thd) as S.
    pose proof (hybrid_type_find_num_type OP_MOD 0 this a0 a1) as T.
    destruct (Item_num_op_resolve_type OP_MOD 0 this a0 a1 thd) as [[e t] thd'].
    cbn [fst snd] in *. subst t. fold r0 r1 in T.
    destruct e; cbn [fst snd] in *; [discriminate|].
    rewrite <- T. destruct (promotion_rule r0 r1); reflexivity.
Qed.

(** Decimal plus Integer is Decimal; Integer modulo Integer is Integer. *)
Lemma binary_operator_category_witness :
  resolved_category OP_PLUS this0 (decimal_field 7 2) (int_item INT_ITEM 1 false)
    thd0 = DECIMAL_RESULT
  /\ resolved_category OP_MOD this0 (int_item INT_ITEM 7 false)
       (int_item INT_ITEM 2 false) thd0 = INT_RESULT.
Proof.
  split.
  - exact (proj2 (proj2 (binary_operator_category OP_PLUS this0
             (decimal_field 7 2) (int_item INT_ITEM 1 false) thd0 eq_refl))).
  - exact (proj2 (proj2 (binary_operator_category OP_MOD this0
             (int_item INT_ITEM 7 false) (int_item INT_ITEM 2 false) thd0
             eq_refl))).
Defined.

(** C5 as stated fails for [/]: two Integer operands resolve to
    Decimal, where the order gives Integer. *)
Lemma division_of_integers_is_decimal :
  numeric_context_result_type (int_item INT_ITEM 10 false) = INT_RESULT
  /\ numeric_context_result_type (int_item INT_ITEM 3 false) = INT_RESULT
  /\ promotion_rule INT_RESULT INT_RESULT = INT_RESULT
  /\ resolution_succeeds OP_DIV this0 (int_item INT_ITEM 10 false)
       (int_item INT_ITEM 3 false) thd0
  /\ resolved_category OP_DIV this0 (int_item INT_ITEM 10 false)
       (int_item INT_ITEM 3 false) thd0 = DECIMAL_RESULT.
Proof. repeat split; reflexivity. Qed.

(** ** Resolution of a division *)

(** C6 (amended).  When neither operand of a division is Real (and the
    sums below do not wrap the 32-bit fields), the node resolves to
    Decimal, also for two Integer operands, with scale
    [min(s1 + prec_increment, 30)] and precision
    [min(p1 + s2 + prec_increment, 65)], from which the display length
    is taken.  When an operand is Real the node resolves to Real, with
    scale [min(max(s1, s2) + prec_increment, 31)].  The node may be null
    in both cases. *)
Theorem division_resolution :
  forall (this : Item_func) (a0 a1 : Item) (thd : THD),
    resolution_succeeds OP_DIV this a0 a1 thd ->
    let inc := div_precincrement thd in
    let this' := resolved_node OP_DIV this a0 a1 thd in
    (numeric_context_result_type a0 <> REAL_RESULT ->
     numeric_context_result_type a1 <> REAL_RESULT ->
     0 <= decimals a0 + inc < 2 ^ 32 ->
     0 <= decimal_precision a0 + decimals a1 + inc < 2 ^ 32 ->
     hybrid_type this' = DECIMAL_RESULT
     /\ this_decimals this' = Z.min (decimals a0 + inc) DECIMAL_MAX_SCALE
     /\ div_precision inc a0 a1
        = Z.min (decimal_precision a0 + decimals a1 + inc)
                DECIMAL_MAX_PRECISION
     /\ this_max_length this'
        = my_decimal_precision_to_length_no_truncation
            (div_precision inc a0 a1) (this_decimals this')
            (this_unsigned_flag this'))
    /\ (numeric_context_result_type a0 = REAL_RESULT
        \/ numeric_context_result_type a1 = REAL_RESULT ->
        0 <= Z.max (decimals a0) (decimals a1) + inc < 2 ^ 8 ->
        hybrid_type this' = REAL_RESULT
        /\ this_decimals this'
           = Z.min (Z.max (decimals a0) (decimals a1) + inc) NOT_FIXED_DEC)
    /\ maybe_null this' = true.
Proof.
  intros this a0 a1 thd OK inc this'.
  unfold resolution_succeeds in OK. subst this'.
  unfold resolved_node, resolve_type, Item_func_div_resolve_type in *.
  fold inc in OK |- *.
  pose proof (Item_num_op_resolve_type_spec OP_DIV inc this a0 a1 thd) as S.
  pose proof (hybrid_type_find_num_type OP_DIV inc this a0 a1) as T.
  destruct (Item_num_op_resolve_type OP_DIV inc this a0 a1 thd) as [[e t] thd'].
  cbn [fst snd] in *. subst t.
  destruct e; cbn [fst snd] in *; [discriminate|].
  split; [|split; [|reflexivity]].
  - intros R0 R1 B1 B2.
    assert (P : promotion_rule (numeric_context_result_type a0)
                               (numeric_context_result_type a1) = DECIMAL_RESULT
                \/ promotion_rule (numeric_context_result_type a0)
                                  (numeric_context_result_type a1) = INT_RESULT).
    { unfold promotion_rule.
      destruct (numeric_context_result_type a0); try contradiction;
        destruct (numeric_context_result_type a1); try contradiction;
        cbn; tauto. }
    assert (Em : to_uint (decimals a0 + inc) = decimals a0 + inc)
      by (unfold to_uint; apply Z.mod_small; lia).
    assert (Ep : to_uint (decimal_precision a0 + decimals a1 + inc)
                 = decimal_precision a0 + decimals a1 + inc)
      by (unfold to_uint; apply Z.mod_small; lia).
    rewrite T.
    destruct P as [P|P]; rewrite P;
      unfold Item_func_div_result_precision, div_precision, set_maybe_null,
        set_max_length, set_decimals, set_unsigned_flag, set_hybrid_type;
      cbn [hybrid_type this_decimals this_max_length this_unsigned_flag
           maybe_null];
      rewrite Em, Ep; repeat split; try reflexivity; rewrite T; exact P.
  - intros R B.
    assert (P : promotion_rule (numeric_context_result_type a0)
                               (numeric_context_result_type a1) = REAL_RESULT).
    { unfold promotion_rule. destruct R as [R|R]; rewrite R.
      - reflexivity.
      - rewrite orb_true_r. reflexivity. }
    assert (Em : to_uint8 (Z.max (decimals a0) (decimals a1) + inc)
                 = Z.max (decimals a0) (decimals a1) + inc)
      by (unfold to_uint8; apply Z.mod_small; lia).
    rewrite T, P.
    unfold set_maybe_null, set_max_length, set_decimals.
    cbn [hybrid_type this_decimals]. rewrite Em, T. split; [exact P|reflexivity].
Qed.

(** [10 / 3] on integers is Decimal; at the maximal scale the result
    scale saturates at 30. *)
Lemma division_resolution_witness :
  hybrid_type (resolved_node OP_DIV this0 (int_item INT_ITEM 10 false)
                 (int_item INT_ITEM 3 false) thd0)
  = DECIMAL_RESULT
  /\ this_decimals (resolved_node OP_DIV this0 (decimal_field 65 30)
                      (decimal_field 65 30) thd0)
     = Z.min (30 + 4) DECIMAL_MAX_SCALE.
Proof.
  assert (N : INT_RESULT <> REAL_RESULT) by discriminate.
  assert (D : DECIMAL_RESULT <> REAL_RESULT) by discriminate.
  assert (B1 : 0 <= 0 + 4 < 2 ^ 32) by lia.
  assert (B2 : 0 <= 19 + 0 + 4 < 2 ^ 32) by lia.
  assert (B3 : 0 <= 30 + 4 < 2 ^ 32) by lia.
  assert (B4 : 0 <= 65 + 30 + 4 < 2 ^ 32) by lia.
  split.
  - exact (proj1 (proj1 (division_resolution this0
                           (int_item INT_ITEM 10 false)
                           (int_item INT_ITEM 3 false) thd0 eq_refl)
                    N N B1 B2)).
  - exact (proj1 (proj2 (proj1 (division_resolution this0
                                  (decimal_field 65 30)
                                  (decimal_field 65 30) thd0 eq_refl)
                           D D B3 B4))).
Defined.

(** C6 as stated fails when an operand is Real: the node is Real and
    its scale is [max(s1, s2) + prec_increment] (capped at 31), here 6
    where the formula of the claim gives 4. *)
Lemma division_with_real_operand :
  resolution_succeeds OP_DIV this0 (int_item INT_ITEM 1 false)
    (double_field 10 2) thd0
  /\ resolved_category OP_DIV this0 (int_item INT_ITEM 1 false)
       (double_field 10 2) thd0 = REAL_RESULT
  /\ this_decimals (resolved_node OP_DIV this0 (int_item INT_ITEM 1 false)
                      (double_field 10 2) thd0) = 6
  /\ Z.min (decimals (int_item INT_ITEM 1 false) + div_precincrement thd0)
           DECIMAL_MAX_SCALE = 4.
Proof. repeat split; reflexivity. Qed.

(** ** Negation of the smallest integer *)

Lemma reject_geometry_args_one (a : Item) (name : string) (thd : THD) :
  not_geometry a -> reject_geometry_args [a] name thd = (false, thd).
Proof.
  unfold not_geometry, reject_geometry_args. intros G.
  destruct (field_type a); try contradiction;
    rewrite andb_false_r; reflexivity.
Qed.

(** C4 (amended).  For a negation whose operand is a non-null integer
    constant of value [LLONG_MIN] with [unsigned_flag] unset, resolution
    succeeds and, when the operand is not a plain integer item
    ([type() != INT_ITEM]), promotes the node to Decimal; its evaluation
    is then exactly 9223372036854775808.  When the operand is an integer
    item the node stays Integer and its evaluation raises the
    out-of-range error. *)
Theorem negate_int_min :
  forall (this : Item_func) (a0 : Item) (thd : THD),
    integer_operand a0 -> not_geometry a0 ->
    const_item a0 = true -> null_value a0 = false ->
    val_int a0 = LLONG_MIN -> unsigned_flag a0 = false ->
    let r := Item_func_neg_resolve_type this a0 thd in
    fst (fst r) = false /\ snd r = thd
    /\ (type a0 <> INT_ITEM ->
        hybrid_type (snd (fst r)) = DECIMAL_RESULT
        /\ Item_func_neg_eval (snd (fst r)) a0 thd
           = (Decimal (mk_decimal 9223372036854775808 0), thd))
    /\ (type a0 = INT_ITEM ->
        hybrid_type (snd (fst r)) = INT_RESULT
        /\ fst (Item_func_neg_eval (snd (fst r)) a0 thd) = Integer 0 false
        /\ raised ER_DATA_OUT_OF_RANGE thd
             (snd (Item_func_neg_eval (snd (fst r)) a0 thd))).
Proof.
  intros this a0 thd [RT VD] G C N V U r. subst r.
  unfold Item_func_neg_resolve_type, bind.
  rewrite (reject_geometry_args_one a0 _ thd G).
  unfold Item_func_num1_find_num_type, Item_func_neg_fix_num_length_and_dec,
    set_hybrid_type, set_max_length, set_decimals, set_unsigned_flag, ret.
  cbn [hybrid_type this_decimals this_max_length this_unsigned_flag maybe_null
       fst snd].
  rewrite RT, C, V. cbn [hybrid_type Item_result_eqb andb].
  change (to_ull LLONG_MIN <=? to_ull LLONG_MIN) with true.
  change (to_ull LLONG_MIN =? to_ull LLONG_MIN) with true.
  cbn [negb andb orb].
  split; [reflexivity|]. split; [reflexivity|]. split.
  - intros T. assert (E : Item_type_eqb (type a0) INT_ITEM = false)
      by (destruct (type a0); try reflexivity; contradiction).
    rewrite E. cbn [negb hybrid_type]. split; [reflexivity|].
    unfold Item_func_neg_eval, Item_func_neg_decimal_op, bind, ret.
    cbn [hybrid_type]. rewrite N, VD, V, U. reflexivity.
  - intros T. rewrite T. cbn [Item_type_eqb negb hybrid_type].
    split; [reflexivity|].
    unfold Item_func_neg_eval, Item_func_neg_int_op, bind, ret.
    cbn [hybrid_type this_unsigned_flag]. rewrite N, V, U.
    cbn. split; [reflexivity|]. eexists. reflexivity.
Qed.

(** The negation of the constant [-9223372036854775808]. *)
Lemma negate_int_min_witness :
  hybrid_type (snd (fst (Item_func_neg_resolve_type this0 int_min_constant thd0)))
  = DECIMAL_RESULT
  /\ Item_func_neg_eval
       (snd (fst (Item_func_neg_resolve_type this0 int_min_constant thd0)))
       int_min_constant thd0
     = (Decimal (mk_decimal 9223372036854775808 0), thd0).
Proof.
  assert (T : type int_min_constant <> INT_ITEM) by discriminate.
  exact (proj1 (proj2 (proj2 (negate_int_min this0 int_min_constant thd0
                                (conj eq_refl eq_refl) I eq_refl eq_refl
                                eq_refl eq_refl))) T).
Defined.

(** C4 as stated fails for an integer item that holds [LLONG_MIN]
    signed (a bound statement parameter, for one): the node stays
    Integer and the evaluation overflows at run time. *)
Lemma negate_int_item_int_min_overflows :
  integer_operand (int_item INT_ITEM LLONG_MIN false)
  /\ const_item (int_item INT_ITEM LLONG_MIN false) = true
  /\ val_int (int_item INT_ITEM LLONG_MIN false) = LLONG_MIN
  /\ unsigned_flag (int_item INT_ITEM LLONG_MIN false) = false
  /\ hybrid_type (snd (fst (Item_func_neg_resolve_type this0
                              (int_item INT_ITEM LLONG_MIN false) thd0)))
     = INT_RESULT
  /\ Item_func_neg_eval
       (snd (fst (Item_func_neg_resolve_type this0
                    (int_item INT_ITEM LLONG_MIN false) thd0)))
       (int_item INT_ITEM LLONG_MIN false) thd0
     = (Integer 0 false,
        mk_THD 0 4 [mk_condition SL_ERROR ER_DATA_OUT_OF_RANGE "BIGINT"]).
Proof. repeat split; reflexivity. Qed.

(** ** Rounding *)

(** *** Doubles *)

Lemma bounded_spec (m : positive) (e : Z) :
  bounded 53 1024 m e = true ->
  fexp 53 1024 (Z.pos (digits2_pos m) + e) = e /\ e <= 971.
Proof.
  unfold bounded, canonical_mantissa. intros H.
  apply andb_true_iff in H. destruct H as [C B].
  apply Z.eqb_eq in C. apply Z.leb_le in B. split; [exact C|exact B].
Qed.

Lemma binary_round_aux_canonical (s : bool) (m : positive) (e : Z) :
  bounded 53 1024 m e = true ->
  binary_round_aux 53 1024 s (Z.pos m) e loc_Exact = S754_finite s m e.
Proof.
  intros H. destruct (bounded_spec m e H) as [C B].
  unfold binary_round_aux, shr_fexp. cbn [Zdigits2].
  rewrite C, Z.sub_diag. cbn [shr shr_record_of_loc shr_m loc_of_shr_record
    round_nearest_even Zdigits2].
  rewrite C, Z.sub_diag. cbn [shr shr_m].
  destruct (Z.leb_spec e (1024 - 53)); [reflexivity|lia].
Qed.

Lemma digits2_pos_iter_xO (m k : positive) :
  Z.pos (digits2_pos (Pos.iter xO m k)) = Z.pos (digits2_pos m) + Z.pos k.
Proof.
  induction k as [|k IH] using Pos.peano_ind.
  - cbn. lia.
  - rewrite Pos.iter_succ. cbn [digits2_pos]. rewrite Pos2Z.inj_succ, IH. lia.
Qed.

Lemma iter_pos_iter {A : Type} (f : A -> A) (n : positive) :
  forall x, iter_pos f n x = Pos.iter f x n.
Proof.
  induction n as [n IH|n IH|]; intros x; cbn [iter_pos Pos.iter].
  - rewrite !IH. rewrite <- Pos.iter_swap. rewrite <- Pos.iter_swap. reflexivity.
  - rewrite !IH. reflexivity.
  - reflexivity.
Qed.

Lemma shr_exact (m k : positive) :
  iter_pos shr_1 k
    {| shr_m := Z.pos (Pos.iter xO m k); shr_r := false; shr_s := false |}
  = {| shr_m := Z.pos m; shr_r := false; shr_s := false |}.
Proof.
  rewrite iter_pos_iter. revert m.
  induction k as [|k IH] using Pos.peano_ind; intros m.
  - reflexivity.
  - rewrite Pos.iter_succ_r. rewrite Pos.iter_succ. cbn [shr_1 orb].
    apply IH.
Qed.

(** Rounding a mantissa with [k] trailing zeros at an exponent [k] below
    that of a double gives the double. *)
Lemma binary_round_aux_shifted (s : bool) (m k : positive) (e : Z) :
  bounded 53 1024 m e = true ->
  binary_round_aux 53 1024 s (Z.pos (Pos.iter xO m k)) (e - Z.pos k) loc_Exact
  = S754_finite s m e.
Proof.
  intros H. destruct (bounded_spec m e H) as [C B].
  unfold binary_round_aux, shr_fexp. cbn [Zdigits2].
  rewrite digits2_pos_iter_xO.
  replace (Z.pos (digits2_pos m) + Z.pos k + (e - Z.pos k))
    with (Z.pos (digits2_pos m) + e) by lia.
  rewrite C. replace (e - (e - Z.pos k)) with (Z.pos k) by lia.
  cbn [shr shr_record_of_loc]. rewrite shr_exact.
  cbn [shr_m loc_of_shr_record round_nearest_even Zdigits2].
  replace (e - Z.pos k + Z.pos k) with e by lia.
  rewrite C, Z.sub_diag. cbn [shr shr_m shr_record_of_loc].
  destruct (Z.leb_spec e (1024 - 53)); [reflexivity|lia].
Qed.

Lemma d_mul_one (x : double) :
  valid_double x -> d_mul x (d_of_Z 1) = x.
Proof.
  intros V. change (d_of_Z 1) with (S754_finite false 4503599627370496 (-52)).
  destruct x as [s|s| |s m e]; unfold d_mul; cbn [SFmul];
    try (destruct s; reflexivity); try reflexivity.
  rewrite Pos.mul_comm.
  change (4503599627370496 * m)%positive with (Pos.iter xO m 52).
  rewrite xorb_false_r.
  exact (binary_round_aux_shifted s m 52 e V).
Qed.

Lemma div_eucl_exact (a b q : Z) :
  0 < b -> a = b * q -> Z.div_eucl a b = (q, 0).
Proof.
  intros B E. pose proof (Z_div_mod a b ltac:(lia)) as H.
  destruct (Z.div_eucl a b) as [q' r']. destruct H as [H R].
  assert (q' = q) by nia. subst q'. f_equal. nia.
Qed.

Lemma d_div_one (x : double) :
  valid_double x -> d_div x (d_of_Z 1) = x.
Proof.
  intros V. change (d_of_Z 1) with (S754_finite false 4503599627370496 (-52)).
  destruct x as [s|s| |s m e]; unfold d_div; cbn [SFdiv];
    try (destruct s; reflexivity); try reflexivity.
  pose proof (bounded_spec m e V) as [C B].
  unfold SFdiv_core_binary. cbn [Zdigits2].
  change (Z.pos (digits2_pos 4503599627370496)) with 53.
  rewrite xorb_false_r.
  assert (D : 0 < Z.pos (digits2_pos m)) by lia.
  set (d := Z.pos (digits2_pos m)) in *.
  destruct (Z.eq_dec (fexp 53 1024 (d + e - (53 + -52))) e) as [E|E].
  - (* the quotient keeps the exponent *)
    rewrite E. rewrite Z.min_l by lia.
    replace (e - -52 - e) with 52 by lia.
    rewrite Z.shiftl_mul_pow2 by lia.
    rewrite (div_eucl_exact _ _ (Z.pos m)) by lia.
    change (new_location 4503599627370496 0) with loc_Exact.
    exact (binary_round_aux_canonical s m e V).
  - (* the quotient is taken one bit lower *)
    assert (E' : fexp 53 1024 (d + e - (53 + -52)) = e - 1)
      by (unfold fexp, emin in *; lia).
    rewrite E'. rewrite Z.min_l by lia.
    replace (e - -52 - (e - 1)) with 53 by lia.
    rewrite Z.shiftl_mul_pow2 by lia.
    rewrite (div_eucl_exact _ _ (Z.pos m~0)) by lia.
    change (new_location 4503599627370496 0) with loc_Exact.
    exact (binary_round_aux_shifted s m 1 e V).
Qed.

Lemma digits2_pos_bounds (p : positive) :
  2 ^ (Z.pos (digits2_pos p) - 1) <= Z.pos p < 2 ^ Z.pos (digits2_pos p).
Proof.
  induction p as [p IH|p IH|]; cbn [digits2_pos].
  - rewrite Pos2Z.inj_succ. replace (Z.succ (Z.pos (digits2_pos p)) - 1)
      with (Z.succ (Z.pos (digits2_pos p) - 1)) by lia.
    rewrite !Z.pow_succ_r by lia. lia.
  - rewrite Pos2Z.inj_succ. replace (Z.succ (Z.pos (digits2_pos p)) - 1)
      with (Z.succ (Z.pos (digits2_pos p) - 1)) by lia.
    rewrite !Z.pow_succ_r by lia. lia.
  - cbn. lia.
Qed.

Lemma digits2_pos_le (p : positive) (n : Z) :
  0 <= n -> Z.pos p < 2 ^ n -> Z.pos (digits2_pos p) <= n.
Proof.
  intros N H. destruct (digits2_pos_bounds p) as [L _].
  destruct (Z.le_gt_cases (Z.pos (digits2_pos p)) n) as [|G]; [assumption|].
  exfalso. assert (2 ^ n <= 2 ^ (Z.pos (digits2_pos p) - 1))
    by (apply Z.pow_le_mono_r; lia). lia.
Qed.

(** The mantissa of a double has at most 53 bits. *)
Lemma bounded_mantissa (m : positive) (e : Z) :
  bounded 53 1024 m e = true -> Z.pos m < 2 ^ 53.
Proof.
  intros H. destruct (bounded_spec m e H) as [C _].
  destruct (digits2_pos_bounds m) as [_ U].
  assert (Z.pos (digits2_pos m) <= 53) by (unfold fexp, emin in C; lia).
  assert (2 ^ Z.pos (digits2_pos m) <= 2 ^ 53)
    by (apply Z.pow_le_mono_r; lia). lia.
Qed.

Lemma binary_round_aux_valid (s : bool) (m : positive) (e : Z) :
  bounded 53 1024 m e = true ->
  valid_binary 53 1024 (binary_round_aux 53 1024 s (Z.pos m) e loc_Exact) = true.
Proof.
  intros B. rewrite binary_round_aux_canonical by exact B. exact B.
Qed.

Lemma binary_round_valid (s : bool) (p : positive) :
  Z.pos p < 2 ^ 53 -> valid_binary 53 1024 (binary_round 53 1024 s p 0) = true.
Proof.
  intros P. unfold binary_round.
  pose proof (digits2_pos_le p 53 ltac:(lia) P) as D.
  assert (D0 : 0 < Z.pos (digits2_pos p)) by lia.
  unfold shl_align.
  assert (F : fexp 53 1024 (Z.pos (digits2_pos p) + 0)
              = Z.pos (digits2_pos p) - 53)
    by (unfold fexp, emin; lia).
  rewrite F, Z.sub_0_r.
  destruct (Z.pos (digits2_pos p) - 53) as [|k|k] eqn:K; try lia.
  - apply binary_round_aux_valid.
    unfold bounded, canonical_mantissa. rewrite Z.add_0_r.
    unfold fexp, emin. apply andb_true_iff.
    split; [apply Z.eqb_eq|apply Z.leb_le]; lia.
  - apply binary_round_aux_valid.
    unfold bounded, canonical_mantissa. rewrite digits2_pos_iter_xO.
    unfold fexp, emin. apply andb_true_iff.
    split; [apply Z.eqb_eq|apply Z.leb_le]; lia.
Qed.

(** An integer of less than 54 bits is a double. *)
Lemma d_of_Z_valid (n : Z) : Z.abs n < 2 ^ 53 -> valid_double (d_of_Z n).
Proof.
  intros H. unfold d_of_Z, binary_normalize, valid_double.
  destruct n as [|p|p]; [reflexivity| |];
    apply binary_round_valid; exact H.
Qed.

Lemma d_integral_valid (s : bool) (n : Z) :
  Z.abs n < 2 ^ 53 -> valid_double (d_integral s n).
Proof.
  intros H. unfold d_integral. destruct (n =? 0); [reflexivity|].
  apply d_of_Z_valid. exact H.
Qed.

Lemma rint_quotient_nearest (z k : Z) :
  0 < k ->
  2 * Z.abs (rint_quotient z k * k - z) <= k
  /\ (2 * Z.abs (rint_quotient z k * k - z) = k ->
      Z.even (rint_quotient z k) = true).
Proof.
  intros K. unfold rint_quotient.
  pose proof (Z.div_mod z k ltac:(lia)) as E.
  pose proof (Z.mod_pos_bound z k K) as B.
  set (q := z / k) in *. set (r := z mod k) in *.
  assert (Q : q * k = z - r) by lia.
  destruct (2 * r ?= k) eqn:C.
  - apply Z.compare_eq in C. destruct (Z.even q) eqn:V.
    + rewrite Q. split; [lia|intros _; exact V].
    + replace ((q + 1) * k) with (z - r + k) by lia.
      split; [lia|]. intros _. rewrite Z.even_add, V. reflexivity.
  - rewrite Z.compare_lt_iff in C. rewrite Q. split; lia.
  - rewrite Z.compare_gt_iff in C.
    replace ((q + 1) * k) with (z - r + k) by lia. split; lia.
Qed.

Lemma rint_quotient_bound (z k : Z) :
  2 <= k -> Z.abs z < 2 ^ 53 -> Z.abs (rint_quotient z k) < 2 ^ 53.
Proof.
  intros K Hz. unfold rint_quotient.
  pose proof (Z.div_mod z k ltac:(lia)) as E.
  pose proof (Z.mod_pos_bound z k ltac:(lia)) as B.
  set (q := z / k) in *. set (r := z mod k) in *.
  change (2 ^ 53) with 9007199254740992 in *.
  assert (- 4503599627370496 <= q <= 4503599627370496) by nia.
  destruct (2 * r ?= k); [destruct (Z.even q)| |]; lia.
Qed.

Lemma floor_quotient_bound (z k : Z) :
  2 <= k -> Z.abs z < 2 ^ 53 -> Z.abs (z / k) < 2 ^ 53.
Proof.
  intros K Hz.
  pose proof (Z.div_mod z k ltac:(lia)) as E.
  pose proof (Z.mod_pos_bound z k ltac:(lia)) as B.
  set (q := z / k) in *. set (r := z mod k) in *.
  change (2 ^ 53) with 9007199254740992 in *. nia.
Qed.

Lemma d_signed_bound (s : bool) (m : positive) (e : Z) :
  bounded 53 1024 m e = true -> Z.abs (d_signed s m) < 2 ^ 53.
Proof.
  intros B. pose proof (bounded_mantissa m e B).
  unfold d_signed. destruct s; cbn [Z.abs]; assumption.
Qed.

Lemma d_signed_opp (s : bool) (m : positive) :
  Z.abs (- d_signed s m) = Z.abs (d_signed s m).
Proof. apply Z.abs_opp. Qed.

Lemma pow2_ge_2 (e : Z) : e < 0 -> 2 <= 2 ^ (- e).
Proof.
  intros E. change 2 with (2 ^ 1) at 1. apply Z.pow_le_mono_r; lia.
Qed.

Lemma d_rint_valid (x : double) : valid_double x -> valid_double (d_rint x).
Proof.
  destruct x as [s|s| |s m e]; try (intros H; exact H).
  intros H. unfold d_rint. destruct (0 <=? e) eqn:E; [exact H|].
  apply Z.leb_gt in E. cbv zeta.
  apply d_integral_valid.
  apply (rint_quotient_bound (d_signed s m) (2 ^ (- e)));
    [apply pow2_ge_2; exact E|apply (d_signed_bound s m e H)].
Qed.

Lemma d_floor_valid (x : double) : valid_double x -> valid_double (d_floor x).
Proof.
  destruct x as [s|s| |s m e]; try (intros H; exact H).
  intros H. unfold d_floor. destruct (0 <=? e) eqn:E; [exact H|].
  apply Z.leb_gt in E. apply d_integral_valid.
  apply floor_quotient_bound;
    [apply pow2_ge_2; exact E|apply (d_signed_bound s m e H)].
Qed.

Lemma d_ceil_valid (x : double) : valid_double x -> valid_double (d_ceil x).
Proof.
  destruct x as [s|s| |s m e]; try (intros H; exact H).
  intros H. unfold d_ceil. destruct (0 <=? e) eqn:E; [exact H|].
  apply Z.leb_gt in E. apply d_integral_valid. rewrite Z.abs_opp.
  apply floor_quotient_bound;
    [apply pow2_ge_2; exact E
    |rewrite Z.abs_opp; apply (d_signed_bound s m e H)].
Qed.

(** With no digits after the point the scaling factor is 1.0 and both
    scalings are exact. *)
Lemma my_double_round_0 (x : double) (dec_unsigned : bool) :
  valid_double x ->
  my_double_round x 0 dec_unsigned false = d_rint x
  /\ my_double_round x 0 dec_unsigned true
     = (if d_leb d_zero x then d_floor x else d_ceil x).
Proof.
  intros V. unfold my_double_round.
  change ((0 <? 0) && negb dec_unsigned) with false.
  cbv iota zeta.
  change (to_ull 0) with 0.
  change (0 <? log_10_elements) with true.
  cbv iota. change (log_10 0) with (d_of_Z 1).
  rewrite (d_mul_one x V).
  change (0 <? 0) with false. cbv iota.
  change (negb false) with true. rewrite andb_true_l.
  assert (F : d_isinf x || d_isnan x = true ->
              d_rint x = x /\ d_floor x = x /\ d_ceil x = x).
  { destruct x; cbn; intros; try discriminate; repeat split. }
  destruct (d_isinf x || d_isnan x) eqn:I.
  - destruct (F eq_refl) as (R1 & R2 & R3). rewrite R1, R2, R3.
    split; [reflexivity|destruct (d_leb d_zero x); reflexivity].
  - split.
    + apply d_div_one. apply d_rint_valid. exact V.
    + destruct (d_leb d_zero x); apply d_div_one;
        [apply d_floor_valid|apply d_ceil_valid]; exact V.
Qed.

Lemma iter_xO_value (p k : positive) :
  Z.pos (Pos.iter xO p k) = Z.pos p * 2 ^ Z.pos k.
Proof.
  induction k as [|k IH] using Pos.peano_ind.
  - cbn [Pos.iter]. rewrite Pos2Z.inj_xO. change (2 ^ 1) with 2. lia.
  - rewrite Pos.iter_succ, Pos2Z.inj_xO, IH, Pos2Z.inj_succ.
    rewrite Z.pow_succ_r by lia. lia.
Qed.

(** The double of a non-zero integer of less than 54 bits holds the
    integer itself. *)
Lemma binary_round_shape (s : bool) (p : positive) :
  Z.pos p < 2 ^ 53 ->
  exists m e,
    binary_round 53 1024 s p 0 = S754_finite s m e
    /\ bounded 53 1024 m e = true
    /\ e <= 0 /\ Z.pos m = Z.pos p * 2 ^ (- e).
Proof.
  intros P. unfold binary_round.
  pose proof (digits2_pos_le p 53 ltac:(lia) P) as D.
  assert (D0 : 0 < Z.pos (digits2_pos p)) by lia.
  unfold shl_align.
  assert (F : fexp 53 1024 (Z.pos (digits2_pos p) + 0)
              = Z.pos (digits2_pos p) - 53)
    by (unfold fexp, emin; lia).
  rewrite F, Z.sub_0_r.
  destruct (Z.pos (digits2_pos p) - 53) as [|k|k] eqn:K; try lia.
  - assert (B : bounded 53 1024 p 0 = true).
    { unfold bounded, canonical_mantissa. rewrite Z.add_0_r.
      unfold fexp, emin. apply andb_true_iff.
      split; [apply Z.eqb_eq|apply Z.leb_le]; lia. }
    exists p, 0. rewrite binary_round_aux_canonical by exact B.
    repeat split; [exact B|lia|cbn; lia].
  - assert (B : bounded 53 1024 (Pos.iter xO p k) (Z.neg k) = true).
    { unfold bounded, canonical_mantissa. rewrite digits2_pos_iter_xO.
      unfold fexp, emin. apply andb_true_iff.
      split; [apply Z.eqb_eq|apply Z.leb_le]; lia. }
    exists (Pos.iter xO p k), (Z.neg k).
    rewrite binary_round_aux_canonical by exact B.
    repeat split; [exact B|lia|].
    change (- Z.neg k) with (Z.pos k). apply iter_xO_value.
Qed.

Lemma rint_quotient_multiple (n k : Z) : 0 < k -> rint_quotient (n * k) k = n.
Proof.
  intros K. unfold rint_quotient. rewrite Z.mod_mul, Z.div_mul by lia.
  change (2 * 0) with 0.
  destruct (Z.compare_spec 0 k); try lia.
Qed.

Lemma d_of_Z_integral (n : Z) :
  Z.abs n < 2 ^ 53 -> integral_double (d_of_Z n).
Proof.
  intros H. unfold d_of_Z, binary_normalize.
  destruct n as [|p|p]; [repeat split| |].
  - destruct (binary_round_shape false p H) as (m & e & E & B & L & V).
    pose proof E as E'. rewrite E. unfold integral_double, d_rint, d_floor, d_ceil.
    destruct (Z.leb_spec 0 e) as [|G]; [repeat split|].
    assert (K : 0 < 2 ^ (- e)) by (apply Z.pow_pos_nonneg; lia).
    cbv zeta. fold (rint_quotient (d_signed false m) (2 ^ (- e))).
    unfold d_signed. rewrite V, rint_quotient_multiple by exact K.
    rewrite Z.div_mul by lia.
    rewrite <- Z.mul_opp_l, Z.div_mul by lia. rewrite Z.opp_involutive.
    unfold d_integral. cbn [Z.eqb]. unfold d_of_Z, binary_normalize.
    rewrite E'. repeat split.
  - destruct (binary_round_shape true p H) as (m & e & E & B & L & V).
    pose proof E as E'. rewrite E. unfold integral_double, d_rint, d_floor, d_ceil.
    destruct (Z.leb_spec 0 e) as [|G]; [repeat split|].
    assert (K : 0 < 2 ^ (- e)) by (apply Z.pow_pos_nonneg; lia).
    cbv zeta. fold (rint_quotient (d_signed true m) (2 ^ (- e))).
    unfold d_signed.
    replace (Z.neg m) with (Z.neg p * 2 ^ (- e)) by lia.
    rewrite rint_quotient_multiple by exact K.
    rewrite Z.div_mul by lia.
    rewrite <- Z.mul_opp_l, Z.div_mul by lia. rewrite Z.opp_involutive.
    unfold d_integral. cbn [Z.eqb]. unfold d_of_Z, binary_normalize.
    rewrite E'. repeat split.
Qed.

Lemma d_integral_integral (s : bool) (n : Z) :
  Z.abs n < 2 ^ 53 -> integral_double (d_integral s n).
Proof.
  intros H. unfold d_integral. destruct (n =? 0); [repeat split|].
  apply d_of_Z_integral. exact H.
Qed.

Lemma d_rint_integral (x : double) : valid_double x -> integral_double (d_rint x).
Proof.
  destruct x as [s|s| |s m e]; [intros _; repeat split; reflexivity ..|].
  intros H. unfold d_rint. destruct (0 <=? e) eqn:E.
  - unfold integral_double, d_rint, d_floor, d_ceil. rewrite E. repeat split.
  - apply Z.leb_gt in E. cbv zeta. apply d_integral_integral.
    apply (rint_quotient_bound (d_signed s m) (2 ^ (- e)));
      [apply pow2_ge_2; exact E|apply (d_signed_bound s m e H)].
Qed.

Lemma d_floor_integral (x : double) : valid_double x -> integral_double (d_floor x).
Proof.
  destruct x as [s|s| |s m e]; [intros _; repeat split; reflexivity ..|].
  intros H. unfold d_floor. destruct (0 <=? e) eqn:E.
  - unfold integral_double, d_rint, d_floor, d_ceil. rewrite E. repeat split.
  - apply Z.leb_gt in E. apply d_integral_integral.
    apply floor_quotient_bound;
      [apply pow2_ge_2; exact E|apply (d_signed_bound s m e H)].
Qed.

Lemma d_ceil_integral (x : double) : valid_double x -> integral_double (d_ceil x).
Proof.
  destruct x as [s|s| |s m e]; [intros _; repeat split; reflexivity ..|].
  intros H. unfold d_ceil. destruct (0 <=? e) eqn:E.
  - unfold integral_double, d_rint, d_floor, d_ceil. rewrite E. repeat split.
  - apply Z.leb_gt in E. apply d_integral_integral. rewrite Z.abs_opp.
    apply floor_quotient_bound;
      [apply pow2_ge_2; exact E
      |rewrite Z.abs_opp; apply (d_signed_bound s m e H)].
Qed.

(** Rounding a double to 0 digits twice is rounding it once. *)
Lemma my_double_round_0_idempotent (x : double) (dec_unsigned truncate : bool) :
  valid_double x ->
  my_double_round (my_double_round x 0 dec_unsigned truncate) 0 dec_unsigned
    truncate
  = my_double_round x 0 dec_unsigned truncate.
Proof.
  intros V. destruct (my_double_round_0 x dec_unsigned V) as [R T].
  destruct truncate.
  - rewrite T.
    assert (I : integral_double (if d_leb d_zero x then d_floor x else d_ceil x)
                /\ valid_double (if d_leb d_zero x then d_floor x else d_ceil x)).
    { destruct (d_leb d_zero x);
        [split; [apply d_floor_integral|apply d_floor_valid]
        |split; [apply d_ceil_integral|apply d_ceil_valid]]; exact V. }
    destruct I as [(_ & I1 & I2) V'].
    rewrite (proj2 (my_double_round_0 _ dec_unsigned V')).
    rewrite I1, I2.
    destruct (d_leb d_zero (if d_leb d_zero x then d_floor x else d_ceil x));
      reflexivity.
  - rewrite R.
    rewrite (proj1 (my_double_round_0 _ dec_unsigned (d_rint_valid x V))).
    apply (d_rint_integral x V).
Qed.

Lemma d_to_Z_of_Z (n : Z) : Z.abs n < 2 ^ 53 -> d_to_Z (d_of_Z n) = Some n.
Proof.
  intros H. unfold d_of_Z, binary_normalize.
  destruct n as [|p|p]; [reflexivity| |].
  - destruct (binary_round_shape false p H) as (m & e & E & B & L & V).
    rewrite E. unfold d_to_Z, d_signed.
    assert (K : 0 < 2 ^ (- e)) by (apply Z.pow_pos_nonneg; lia).
    destruct (Z.leb_spec 0 e) as [G|G].
    + assert (e = 0) by lia. subst e. cbn in V. f_equal. cbn. lia.
    + rewrite V, Z.mod_mul, Z.div_mul by lia. reflexivity.
  - destruct (binary_round_shape true p H) as (m & e & E & B & L & V).
    rewrite E. unfold d_to_Z, d_signed.
    assert (K : 0 < 2 ^ (- e)) by (apply Z.pow_pos_nonneg; lia).
    destruct (Z.leb_spec 0 e) as [G|G].
    + assert (e = 0) by lia. subst e. cbn in V. f_equal. cbn. lia.
    + replace (Z.neg m) with (Z.neg p * 2 ^ (- e)) by lia.
      rewrite Z.mod_mul, Z.div_mul by lia. reflexivity.
Qed.

Lemma d_to_Z_integral (s : bool) (n : Z) :
  Z.abs n < 2 ^ 53 -> d_to_Z (d_integral s n) = Some n.
Proof.
  intros H. unfold d_integral. destruct (Z.eqb_spec n 0) as [->|];
    [reflexivity|apply d_to_Z_of_Z; exact H].
Qed.

Lemma d_leb_zero_finite (s : bool) (m : positive) (e : Z) :
  d_leb d_zero (S754_finite s m e) = negb s.
Proof. destruct s; reflexivity. Qed.

Lemma quot_bound (z k : Z) :
  2 <= k -> Z.abs z < 2 ^ 53 -> Z.abs (Z.quot z k) < 2 ^ 53.
Proof.
  intros K H. pose proof (Z.quot_abs z k ltac:(lia)) as A.
  rewrite <- A by lia.
  assert (Z.quot (Z.abs z) (Z.abs k) <= Z.abs z); [|lia].
  rewrite Z.quot_div_nonneg by lia.
  apply Z.div_le_upper_bound; [lia|]. nia.
Qed.

(** With 0 digits, a double without a fractional part is returned as it
    is; any other is rounded to the nearest integer, the even one of two
    equally near, or cut toward zero. *)
Lemma my_double_round_0_finite (s : bool) (m : positive) (e : Z)
  (dec_unsigned : bool) :
  valid_double (S754_finite s m e) ->
  (0 <= e ->
   forall truncate,
     my_double_round (S754_finite s m e) 0 dec_unsigned truncate
     = S754_finite s m e)
  /\ (e < 0 ->
      my_double_round (S754_finite s m e) 0 dec_unsigned false
      = d_integral s (rint_quotient (d_signed s m) (2 ^ (- e)))
      /\ my_double_round (S754_finite s m e) 0 dec_unsigned true
         = d_integral s (Z.quot (d_signed s m) (2 ^ (- e)))).
Proof.
  intros V. destruct (my_double_round_0 _ dec_unsigned V) as [R T].
  rewrite d_leb_zero_finite in T. split.
  - intros E truncate. apply Z.leb_le in E.
    destruct truncate; [rewrite T|rewrite R];
      unfold d_rint, d_floor, d_ceil; rewrite E;
      [destruct s|]; reflexivity.
  - intros E. pose proof (pow2_ge_2 e E) as K.
    assert (E' : (0 <=? e) = false) by (apply Z.leb_gt; exact E).
    split.
    + rewrite R. unfold d_rint. rewrite E'. reflexivity.
    + rewrite T. unfold d_floor, d_ceil, d_signed. rewrite E'.
      destruct s; cbn [negb]; f_equal.
      * change (- Z.neg m) with (Z.pos m).
        change (Z.neg m) with (- Z.pos m).
        rewrite Z.quot_opp_l by lia. rewrite Z.quot_div_nonneg by lia.
        reflexivity.
      * rewrite Z.quot_div_nonneg by lia. reflexivity.
Qed.

(** With [dec] digits, from 0 to 308, the value is scaled by the table
    entry, cut or rounded by [floor], [ceil] or [rint], and scaled
    back. *)
Lemma my_double_round_scaled (value : double) (dec : Z) (dec_unsigned : bool) :
  0 <= dec < 309 ->
  d_isfinite (d_mul value (log_10 dec)) = true ->
  my_double_round value dec dec_unsigned false
  = d_div (d_rint (d_mul value (log_10 dec))) (log_10 dec)
  /\ my_double_round value dec dec_unsigned true
     = d_div ((if d_leb d_zero value then d_floor else d_ceil)
                (d_mul value (log_10 dec))) (log_10 dec).
Proof.
  intros D F. unfold my_double_round.
  assert (N : (dec <? 0) = false) by (apply Z.ltb_ge; lia).
  rewrite N. cbn [andb negb]. cbv iota zeta.
  assert (A : to_ull dec = dec).
  { apply to_ull_id. unfold is_ulonglong, ULLONG_MAX. lia. }
  rewrite A.
  assert (L : (dec <? log_10_elements) = true)
    by (apply Z.ltb_lt; unfold log_10_elements; lia).
  rewrite L. unfold d_isfinite in F. apply negb_true_iff in F. rewrite F.
  split; [reflexivity|destruct (d_leb d_zero value); reflexivity].
Qed.

(** C7 (amended).  On a double, rounding with [truncate = false] goes
    through [rint]: to nearest, ties to even.  With 0 digits a double
    that holds an integer is returned as it is, and a double [z / k]
    with a fractional part ([z] its signed mantissa, [k] the power of
    two of its exponent) becomes the integer [n] nearest to it, the even
    one when two are equally near; with [truncate = true] it becomes the
    quotient cut toward zero.  With [dec] digits the value is scaled by
    the table entry for [dec], rounded or cut so, and scaled back.  So
    2.5 rounds to 2, -2.5 to -2 and 3.5 to 4, every half-integer between
    -99.5 and 99.5 rounds to its even neighbour, 2.3 rounds to 2 and 2.7
    to 3; to two digits 0.125 rounds to 0.12 and 0.375 to 0.38; to one
    digit 2.449 rounds to 2.4 and 2.451 to 2.5; 1250 rounds to 1200 at
    hundreds.  2.449 truncated to one digit is 2.4, and -2.449 is
    -2.4. *)
Theorem round_real_ties_to_even :
  (forall (s : bool) (m : positive) (e : Z) (dec_unsigned : bool),
      valid_double (S754_finite s m e) ->
      let value := S754_finite s m e in
      let z := d_signed s m in
      (0 <= e ->
       my_double_round value 0 dec_unsigned false = value
       /\ my_double_round value 0 dec_unsigned true = value)
      /\ (e < 0 ->
          let k := 2 ^ (- e) in
          (exists n,
              my_double_round value 0 dec_unsigned false = d_integral s n
              /\ d_to_Z (d_integral s n) = Some n
              /\ 2 * Z.abs (n * k - z) <= k
              /\ (2 * Z.abs (n * k - z) = k -> Z.even n = true))
          /\ my_double_round value 0 dec_unsigned true
             = d_integral s (Z.quot z k)
          /\ d_to_Z (d_integral s (Z.quot z k)) = Some (Z.quot z k)))
  /\ (forall (value : double) (dec : Z) (dec_unsigned : bool),
         0 <= dec < 309 ->
         d_isfinite (d_mul value (log_10 dec)) = true ->
         my_double_round value dec dec_unsigned false
         = d_div (d_rint (d_mul value (log_10 dec))) (log_10 dec)
         /\ my_double_round value dec dec_unsigned true
            = d_div ((if d_leb d_zero value then d_floor else d_ceil)
                       (d_mul value (log_10 dec))) (log_10 dec))
  /\ my_double_round (d_ratio 5 2) 0 false false = d_of_Z 2
  /\ my_double_round (d_ratio (-5) 2) 0 false false = d_of_Z (-2)
  /\ my_double_round (d_ratio 7 2) 0 false false = d_of_Z 4
  /\ forallb (fun k =>
                d_eqb (my_double_round (d_ratio (2 * k + 1) 2) 0 false false)
                      (d_of_Z (if Z.even k then k else k + 1)))
             half_integers = true
  /\ my_double_round (d_ratio 23 10) 0 false false = d_of_Z 2
  /\ my_double_round (d_ratio 27 10) 0 false false = d_of_Z 3
  /\ my_double_round (d_ratio 125 1000) 2 false false = d_ratio 12 100
  /\ my_double_round (d_ratio 375 1000) 2 false false = d_ratio 38 100
  /\ my_double_round (d_ratio 2449 1000) 1 false false = d_ratio 24 10
  /\ my_double_round (d_ratio 2451 1000) 1 false false = d_ratio 25 10
  /\ my_double_round (d_ratio (-2451) 1000) 1 false false = d_ratio (-25) 10
  /\ my_double_round (d_of_Z 1250) (-2) false false = d_of_Z 1200
  /\ my_double_round (d_ratio 2449 1000) 1 false true = d_ratio 24 10
  /\ my_double_round (d_ratio (-2449) 1000) 1 false true = d_ratio (-24) 10
  /\ Item_func_round_real_op false (real_item (d_ratio 5 2))
       (int_item INT_ITEM 0 false) thd0 = ((d_of_Z 2, false), thd0)
  /\ Item_func_round_real_op true (real_item (d_ratio 2449 1000))
       (int_item INT_ITEM 1 false) thd0 = ((d_ratio 24 10, false), thd0).
Proof.
  split; [|split].
  - intros s m e dec_unsigned V value z.
    destruct (my_double_round_0_finite s m e dec_unsigned V) as [I F].
    split.
    + intros E. split; apply (I E).
    + intros E k. destruct (F E) as [R T].
      pose proof (pow2_ge_2 e E) as K.
      pose proof (d_signed_bound s m e V) as B.
      split; [|split].
      * exists (rint_quotient z k). split; [exact R|]. split.
        -- apply d_to_Z_integral. apply rint_quotient_bound; assumption.
        -- apply rint_quotient_nearest. unfold k. lia.
      * exact T.
      * apply d_to_Z_integral. apply quot_bound; assumption.
  - intros value dec dec_unsigned D F.
    apply my_double_round_scaled; assumption.
  - repeat split; vm_compute; reflexivity.
Qed.

(** 2.5 is the double [5629499534213120 * 2^-51]: rounding it to 0
    digits gives an even integer at distance one half, and truncating it
    gives 2. *)
Lemma round_real_ties_to_even_witness :
  valid_double (S754_finite false 5629499534213120 (-51))
  /\ (exists n,
         my_double_round (S754_finite false 5629499534213120 (-51)) 0 false false
         = d_integral false n
         /\ d_to_Z (d_integral false n) = Some n
         /\ 2 * Z.abs (n * 2 ^ 51 - 5629499534213120) <= 2 ^ 51
         /\ (2 * Z.abs (n * 2 ^ 51 - 5629499534213120) = 2 ^ 51 ->
             Z.even n = true))
  /\ my_double_round (S754_finite false 5629499534213120 (-51)) 0 false true
     = d_integral false 2.
Proof.
  assert (V : valid_double (S754_finite false 5629499534213120 (-51)))
    by reflexivity.
  assert (E : -51 < 0) by lia.
  split; [exact V|]. split.
  - exact (proj1 (proj2 (proj1 round_real_ties_to_even false
                           5629499534213120%positive (-51) false V) E)).
  - exact (proj1 (proj2 (proj2 (proj1 round_real_ties_to_even false
                                  5629499534213120%positive (-51) false V)
                           E))).
Defined.

(** C7 as stated fails: 2.5 rounds to 2, not 3, and -2.5 to -2, not
    -3. *)
Lemma round_half_is_not_away_from_zero :
  my_double_round (d_ratio 5 2) 0 false false = d_of_Z 2
  /\ d_eqb (d_of_Z 2) (d_of_Z 3) = false
  /\ my_double_round (d_ratio (-5) 2) 0 false false = d_of_Z (-2)
  /\ d_eqb (d_of_Z (-2)) (d_of_Z (-3)) = false.
Proof. repeat split; vm_compute; reflexivity. Qed.

(** Truncation of doubles is not idempotent: truncating 0.295 to two
    digits gives 0.29, and truncating 0.29 to two digits gives 0.28,
    because the product [0.29 * 100] is a double below 29. *)
Lemma truncate_real_is_not_idempotent :
  Item_func_round_real_op true (real_item (d_ratio 295 1000))
    (int_item INT_ITEM 2 false) thd0 = ((d_ratio 29 100, false), thd0)
  /\ Item_func_round_real_op true (real_item (d_ratio 29 100))
       (int_item INT_ITEM 2 false) thd0 = ((d_ratio 28 100, false), thd0)
  /\ d_eqb (d_ratio 29 100) (d_ratio 28 100) = false.
Proof. repeat split; vm_compute; reflexivity. Qed.

(** Rounding [LLONG_MAX] to tens leaves the 64-bit signed range: the
    result wraps, and rounding it again gives yet another number. *)
Lemma round_int_wraps_at_range_boundary :
  Item_func_round_int_op this0 false (int_item INT_ITEM LLONG_MAX false)
    (int_item INT_ITEM (-1) false) thd0
  = ((-9223372036854775806, false), thd0)
  /\ Item_func_round_int_op this0 false
       (int_item FUNC_ITEM (-9223372036854775806) false)
       (int_item INT_ITEM (-1) false) thd0
     = ((9223372036854775806, false), thd0).
Proof. split; vm_compute; reflexivity. Qed.

Lemma pow10_bounds (n : Z) : 1 <= n < 20 -> 10 <= 10 ^ n <= 10 ^ 19.
Proof.
  intros H. split.
  - change 10 with (10 ^ 1) at 1. apply Z.pow_le_mono_r; lia.
  - apply Z.pow_le_mono_r; lia.
Qed.

Lemma my_unsigned_round_multiple (q k : Z) :
  0 <= q -> 2 <= k -> my_unsigned_round (q * k) k = q * k.
Proof.
  intros Q K. unfold my_unsigned_round, udiv.
  rewrite Z.div_mul by lia. rewrite Z.sub_diag.
  rewrite Z.shiftr_div_pow2 by lia. change (2 ^ 1) with 2.
  destruct (Z.ltb_spec 0 (k / 2)) as [_|H]; [reflexivity|].
  exfalso. assert (1 <= k / 2) by (apply Z.div_le_lower_bound; lia). lia.
Qed.

Lemma my_unsigned_round_exact (u k : Z) :
  0 <= u -> 2 <= k ->
  half_away_round u k <= ULLONG_MAX ->
  my_unsigned_round u k = half_away_round u k
  /\ exists q, 0 <= q /\ half_away_round u k = q * k.
Proof.
  intros U K M. unfold my_unsigned_round, half_away_round, udiv in *.
  rewrite Z.shiftr_div_pow2 by lia. change (2 ^ 1) with 2.
  rewrite Z.abs_eq in * by lia.
  assert (E : u - u / k * k = u mod k) by (rewrite (Z.mod_eq u k) by lia; lia).
  rewrite E.
  assert (Q : 0 <= u / k) by (apply Z.div_pos; lia).
  assert (H2 : 1 <= k / 2) by (apply Z.div_le_lower_bound; lia).
  pose proof (Z.mod_pos_bound u k ltac:(lia)) as B.
  destruct (Z.eq_dec u 0) as [->|NZ].
  - rewrite Z.mod_0_l, Z.div_0_l by lia. cbn [Z.sgn].
    destruct (Z.ltb_spec 0 (k / 2)); [|lia].
    split; [reflexivity | exists 0; lia].
  - assert (S : Z.sgn u = 1) by (apply Z.sgn_pos; lia).
    rewrite S in *. rewrite !Z.mul_1_l in *.
    destruct (Z.ltb_spec (u mod k) (k / 2)).
    + split; [lia | exists (u / k); lia].
    + split.
      * apply to_ull_id. bounds. nia.
      * exists (u / k + 1). lia.
Qed.

Lemma to_ull_pow10 (n : Z) :
  1 <= n < 20 -> to_ull (to_ll (10 ^ n)) = 10 ^ n.
Proof.
  intros H. pose proof (pow10_bounds n H) as B.
  rewrite to_ull_to_ll. apply to_ull_id. bounds. 
  change (10 ^ 19) with 10000000000000000000 in B. lia.
Qed.

Lemma sdiv_mul_idempotent (x t : Z) :
  t <> 0 -> sdiv (sdiv x t * t) t * t = sdiv x t * t.
Proof. intros T. unfold sdiv. rewrite Z.quot_mul by exact T. reflexivity. Qed.

Lemma sdiv_mul_between (x t : Z) :
  t <> 0 ->
  (0 <= x -> 0 <= sdiv x t * t <= x) /\ (x <= 0 -> x <= sdiv x t * t <= 0).
Proof.
  intros T. unfold sdiv. pose proof (Z.quot_rem' x t) as E.
  split; intros S.
  - pose proof (Z.rem_nonneg x t T S).
    assert (0 <= t * Z.quot x t); [|lia].
    destruct (Z.le_gt_cases 0 t).
    + pose proof (Z.quot_pos x t S ltac:(lia)). nia.
    + assert (Z.quot x t <= 0); [|nia].
      rewrite <- (Z.opp_involutive t). rewrite Z.quot_opp_r by lia.
      pose proof (Z.quot_pos x (- t) S ltac:(lia)). lia.
  - pose proof (Z.rem_nonpos x t T S).
    assert (t * Z.quot x t <= 0); [|lia].
    destruct (Z.le_gt_cases 0 t).
    + assert (Z.quot x t <= 0); [|nia].
      rewrite <- (Z.opp_involutive x). rewrite Z.quot_opp_l by lia.
      pose proof (Z.quot_pos (- x) t ltac:(lia) ltac:(lia)). lia.
    + assert (0 <= Z.quot x t); [|nia].
      rewrite <- (Z.opp_involutive x), <- (Z.opp_involutive t).
      rewrite Z.quot_opp_opp by lia.
      apply Z.quot_pos; lia.
Qed.

Lemma Item_func_round_int_op_value (this : Item_func) (truncate : bool)
  (a0 a1 : Item) (thd : THD) :
  null_value a0 = false -> null_value a1 = false ->
  Item_func_round_int_op this truncate a0 a1 thd
  = ((round_int_value (this_unsigned_flag this) truncate (val_int a0)
        (val_int a1) (unsigned_flag a1), false), thd).
Proof.
  intros N0 N1. unfold Item_func_round_int_op, round_int_value, ret.
  rewrite N0, N1. cbn [orb]. cbv iota.
  destruct ((0 <=? val_int a1) || unsigned_flag a1); [reflexivity|].
  cbv zeta.
  destruct (log_10_int_elements <=? to_ull (- val_int a1)); [reflexivity|].
  destruct truncate; reflexivity.
Qed.

Lemma round_int_value_idempotent (uf truncate : bool) (value dec : Z)
  (dec_unsigned : bool) :
  is_longlong value -> is_longlong dec ->
  (truncate = true
   \/ (dec_unsigned = false -> dec < 0 ->
       representable uf (half_away_round (pair_value value uf) (10 ^ (- dec))))) ->
  round_int_value uf truncate
    (round_int_value uf truncate value dec dec_unsigned) dec dec_unsigned
  = round_int_value uf truncate value dec dec_unsigned.
Proof.
  intros RV RD H. unfold round_int_value.
  destruct ((0 <=? dec) || dec_unsigned) eqn:G; [reflexivity|].
  apply orb_false_iff in G. destruct G as [G DU]. apply Z.leb_gt in G.
  cbv zeta.
  assert (A : to_ull (- dec) = - dec) by (apply to_ull_id; bounds; lia).
  rewrite A. unfold log_10_int_elements, log_10_int.
  destruct (Z.leb_spec 20 (- dec)) as [|L]; [reflexivity|].
  assert (N : 1 <= - dec < 20) by lia.
  pose proof (pow10_bounds _ N) as B.
  change (10 ^ 19) with 10000000000000000000 in B.
  rewrite (to_ull_pow10 _ N).
  set (k := 10 ^ (- dec)) in *.
  destruct truncate.
  - destruct uf.
    + assert (U : 0 <= to_ull value < 2 ^ 64)
        by (destruct (to_ull_spec value) as (? & ? & ?); assumption).
      unfold udiv.
      assert (Q : 0 <= to_ull value / k) by (apply Z.div_pos; lia).
      assert (P : to_ull value / k * k <= to_ull value).
      { rewrite Z.mul_comm. apply Z.mul_div_le. lia. }
      rewrite to_ull_to_ll.
      rewrite (to_ull_id (to_ull value / k * k)) by (bounds; lia).
      rewrite Z.div_mul by lia. reflexivity.
    + assert (T : to_ll k <> 0) by wrap_lia.
      destruct (sdiv_mul_between value (to_ll k) T) as [Pos Neg].
      assert (R : is_longlong (sdiv value (to_ll k) * to_ll k))
        by (bounds; lia).
      rewrite (to_ll_id _ R). rewrite sdiv_mul_idempotent by exact T.
      apply to_ll_id. exact R.
  - destruct H as [H|H]; [discriminate|]. specialize (H DU G). fold k in H.
    unfold representable, pair_value in H.
    destruct uf; cbn [orb].
    + assert (U : 0 <= to_ull value < 2 ^ 64)
        by (destruct (to_ull_spec value) as (? & ? & ?); assumption).
      destruct (my_unsigned_round_exact (to_ull value) k) as (E & q & Q & M);
        [lia | lia | bounds; lia |].
      rewrite E, M in *. rewrite to_ull_to_ll.
      rewrite (to_ull_id (q * k)) by exact H.
      rewrite my_unsigned_round_multiple by lia. reflexivity.
    + destruct (Z.leb_spec 0 value) as [P|P].
      * rewrite (to_ull_id value) by (bounds; lia).
        destruct (my_unsigned_round_exact value k) as (E & q & Q & M);
          [lia | lia | bounds; lia |].
        rewrite E, M in *. rewrite (to_ll_id (q * k)) by exact H.
        destruct (Z.leb_spec 0 (q * k)); [|nia].
        rewrite (to_ull_id (q * k)) by (bounds; lia).
        rewrite my_unsigned_round_multiple by lia.
        apply to_ll_id. exact H.
      * rewrite (to_ull_id (- value)) by (bounds; lia).
        assert (S : half_away_round value k = - half_away_round (- value) k).
        { unfold half_away_round. rewrite Z.sgn_opp, Z.abs_opp. lia. }
        rewrite S in H.
        assert (M0 : 0 <= half_away_round (- value) k).
        { unfold half_away_round. rewrite (Z.sgn_pos (- value)) by lia.
          rewrite Z.abs_eq by lia.
          assert (0 <= - value / k) by (apply Z.div_pos; lia).
          destruct (_ <? _); nia. }
        destruct (my_unsigned_round_exact (- value) k) as (E & q & Q & M);
          [lia | lia | bounds; lia |].
        rewrite E, M in *.
        assert (R : to_ll (- to_ll (q * k)) = - (q * k)) by wrap_lia.
        rewrite R.
        destruct (Z.leb_spec 0 (- (q * k))) as [Z0|Z0].
        -- assert (q * k = 0) by lia.
           replace (- (q * k)) with (0 * k) by lia.
           rewrite (to_ull_id (0 * k)) by (bounds; lia).
           rewrite my_unsigned_round_multiple by lia.
           rewrite Z.mul_0_l. reflexivity.
        -- rewrite Z.opp_involutive.
           rewrite (to_ull_id (q * k)) by (bounds; lia).
           rewrite my_unsigned_round_multiple by lia. exact R.
Qed.

Lemma round_div_multiple (q k : Z) (truncate : bool) :
  0 < k -> round_div (q * k) k truncate = q.
Proof.
  intros K. unfold round_div. rewrite Z.quot_mul by lia.
  rewrite Z.rem_mul by lia. cbn [Z.abs Z.mul].
  destruct truncate; [reflexivity|].
  destruct (Z.leb_spec k 0); [lia | reflexivity].
Qed.

Lemma decimal_round_idempotent (from : my_decimal) (scale : Z) (truncate : bool) :
  decimal_round (snd (decimal_round from scale truncate)) scale truncate
  = decimal_round from scale truncate.
Proof.
  unfold decimal_round.
  destruct (Z.leb_spec (frac from) scale) as [L|L]; cbn [snd frac unscaled].
  - rewrite Z.leb_refl. rewrite Z.sub_diag, Z.mul_1_r. reflexivity.
  - destruct (Z.leb_spec 0 scale) as [S|S]; cbn [snd frac unscaled].
    + rewrite Z.leb_refl. rewrite Z.sub_diag, Z.mul_1_r. reflexivity.
    + destruct (Z.leb_spec 0 scale); [lia|].
      replace (0 - scale) with (- scale) by lia.
      rewrite round_div_multiple by (apply Z.pow_pos_nonneg; lia).
      reflexivity.
Qed.

Lemma Item_func_round_decimal_op_value (this : Item_func) (truncate : bool)
  (a0 a1 : Item) (thd : THD) :
  null_value a0 = false -> null_value a1 = false ->
  Item_func_round_decimal_op this truncate a0 a1 thd
  = ((Some (snd (decimal_round (val_decimal a0)
                   (round_decimal_places this a1) truncate)), false), thd).
Proof.
  intros N0 N1.
  unfold Item_func_round_decimal_op, my_decimal_round, bind, ret.
  rewrite N0, N1. cbn [orb]. cbv iota.
  unfold decimal_round.
  destruct (frac (val_decimal a0) <=? round_decimal_places this a1);
    [reflexivity|].
  destruct (0 <=? round_decimal_places this a1); reflexivity.
Qed.

(** X23.  Let [b0] present the result of rounding [a0] to [a1] digits,
    under the same node attributes.  In the integer category, rounding
    [b0] again gives the same result when [truncate] is set, when the
    digits are not negative as the code reads them (an unsigned count is
    never negative), or when the rounded number is within the range of
    the node.  In the decimal category it always does.  On doubles it
    does for 0 digits, with either value of [truncate]. *)
Theorem round_idempotent_integer_decimal :
  forall (this : Item_func) (truncate : bool) (a0 a1 b0 : Item) (thd : THD),
    null_value a0 = false -> null_value a1 = false -> null_value b0 = false ->
    is_longlong (val_int a0) -> is_longlong (val_int a1) ->
    ((truncate = true
      \/ (unsigned_flag a1 = false -> val_int a1 < 0 ->
          rounds_within_range this a0 a1)) ->
     val_int b0 = fst (fst (Item_func_round_int_op this truncate a0 a1 thd)) ->
     Item_func_round_int_op this truncate b0 a1 thd
     = Item_func_round_int_op this truncate a0 a1 thd)
    /\ (Some (val_decimal b0)
        = fst (fst (Item_func_round_decimal_op this truncate a0 a1 thd)) ->
        Item_func_round_decimal_op this truncate b0 a1 thd
        = Item_func_round_decimal_op this truncate a0 a1 thd)
    /\ (valid_double (val_real a0) -> val_int a1 = 0 ->
        val_real b0 = fst (fst (Item_func_round_real_op truncate a0 a1 thd)) ->
        Item_func_round_real_op truncate b0 a1 thd
        = Item_func_round_real_op truncate a0 a1 thd).
Proof.
  intros this truncate a0 a1 b0 thd N0 N1 Nb R0 R1. split; [|split].
  - intros H V.
    rewrite (Item_func_round_int_op_value this truncate a0 a1 thd N0 N1) in *.
    rewrite (Item_func_round_int_op_value this truncate b0 a1 thd Nb N1).
    cbn [fst] in V. rewrite V.
    rewrite round_int_value_idempotent; [reflexivity | exact R0 | exact R1 |].
    exact H.
  - intros V.
    rewrite (Item_func_round_decimal_op_value this truncate a0 a1 thd N0 N1) in *.
    rewrite (Item_func_round_decimal_op_value this truncate b0 a1 thd Nb N1).
    cbn [fst] in V. injection V as V. rewrite V.
    rewrite decimal_round_idempotent. reflexivity.
  - intros V D B. unfold Item_func_round_real_op, ret in *.
    rewrite N0, N1, Nb in *. cbn [orb negb fst] in *. rewrite B, D.
    rewrite my_double_round_0_idempotent by exact V. reflexivity.
Qed.

(** 1250 rounded to hundreds is 1300, and so is 1300; 12.451 rounded to
    one digit is 12.5, and so is 12.5; 2.5 rounded to 0 digits is 2.0,
    and so is 2.0.  A count of 2^64 - 1 digits, which the code holds as
    the unsigned 64 bits [-1], needs no range condition. *)
Lemma round_idempotent_witness :
  Item_func_round_int_op this0 false (int_item FUNC_ITEM 1300 false)
    (int_item INT_ITEM (-2) false) thd0
  = Item_func_round_int_op this0 false (int_item INT_ITEM 1250 false)
      (int_item INT_ITEM (-2) false) thd0
  /\ Item_func_round_int_op this0 false (int_item FUNC_ITEM LLONG_MAX false)
       (int_item INT_ITEM (-1) true) thd0
     = Item_func_round_int_op this0 false (int_item INT_ITEM LLONG_MAX false)
         (int_item INT_ITEM (-1) true) thd0
  /\ Item_func_round_decimal_op (set_decimals 1 this0) false
       (decimal_item (mk_decimal 125 1)) (int_item INT_ITEM 1 false) thd0
     = Item_func_round_decimal_op (set_decimals 1 this0) false
         (decimal_item (mk_decimal 12451 3)) (int_item INT_ITEM 1 false) thd0
  /\ Item_func_round_real_op false (real_item (d_of_Z 2))
       (int_item INT_ITEM 0 false) thd0
     = Item_func_round_real_op false (real_item (d_ratio 5 2))
         (int_item INT_ITEM 0 false) thd0.
Proof.
  assert (R0 : is_longlong 1250) by (vm_compute; split; discriminate).
  assert (R1 : is_longlong (-2)) by (vm_compute; split; discriminate).
  assert (R2 : is_longlong 0) by (vm_compute; split; discriminate).
  assert (R3 : is_longlong 1) by (vm_compute; split; discriminate).
  assert (R4 : is_longlong LLONG_MAX) by (vm_compute; split; discriminate).
  assert (R5 : is_longlong (-1)) by (vm_compute; split; discriminate).
  assert (W : rounds_within_range this0 (int_item INT_ITEM 1250 false)
                (int_item INT_ITEM (-2) false))
    by (vm_compute; split; discriminate).
  split; [|split; [|split]].
  - apply (proj1 (round_idempotent_integer_decimal this0 false
                    (int_item INT_ITEM 1250 false)
                    (int_item INT_ITEM (-2) false)
                    (int_item FUNC_ITEM 1300 false) thd0
                    eq_refl eq_refl eq_refl R0 R1)).
    + right. intros _ _. exact W.
    + vm_compute. reflexivity.
  - apply (proj1 (round_idempotent_integer_decimal this0 false
                    (int_item INT_ITEM LLONG_MAX false)
                    (int_item INT_ITEM (-1) true)
                    (int_item FUNC_ITEM LLONG_MAX false) thd0
                    eq_refl eq_refl eq_refl R4 R5)).
    + right. intros U. discriminate U.
    + vm_compute. reflexivity.
  - apply (proj1 (proj2 (round_idempotent_integer_decimal
                           (set_decimals 1 this0) false
                           (decimal_item (mk_decimal 12451 3))
                           (int_item INT_ITEM 1 false)
                           (decimal_item (mk_decimal 125 1)) thd0
                           eq_refl eq_refl eq_refl R2 R3))).
    vm_compute. reflexivity.
  - apply (proj2 (proj2 (round_idempotent_integer_decimal this0 false
                           (real_item (d_ratio 5 2))
                           (int_item INT_ITEM 0 false)
                           (real_item (d_of_Z 2)) thd0
                           eq_refl eq_refl eq_refl R2 R2))).
    + reflexivity.
    + reflexivity.
    + vm_compute. reflexivity.
Defined.

(** ** Structural equality *)

Section EqualityFacts.

Variable basic : Type.
Variable basic_eq : basic -> item_tree basic -> bool -> bool.
Variable my_strcasecmp : string -> string -> Z.
Variable FT_SORTED : Z.

Lemma item_tree_forall_ind (P : item_tree basic -> Prop) :
  (forall addr b, P (Basic_item addr b)) ->
  (forall addr ft name args cls,
      Forall P args -> P (Func_item addr ft name args cls)) ->
  forall t, P t.
Proof.
  intros Hb Hf. fix IH 1. intros [addr b | addr ft name args cls].
  - apply Hb.
  - apply Hf. induction args as [|x r IHr]; constructor.
    + apply IH.
    + exact IHr.
Qed.

Lemma Functype_eqb_eq (a b : Functype) : Functype_eqb a b = true <-> a = b.
Proof. destruct a, b; cbn; split; intros H; try reflexivity; discriminate. Qed.

(** [Item_func::eq] unfolded once: the pointer test, the test on the kind
    of [item], the test on the heads, then the loop over the
    arguments. *)
Lemma Item_eq_func (addr : Z) (ft : Functype) (name : string)
  (args : list (item_tree basic)) (item : item_tree basic) (cmp : bool) :
  Item_eq basic_eq my_strcasecmp FT_SORTED (Func_item addr ft name args Item_func_class)
    item cmp
  = if addr =? addr_of item then true
    else match item with
         | Basic_item _ _ => false
         | Func_item _ ft' name' args' _ =>
             if heads_differ my_strcasecmp ft name (List.length args)
                  ft' name' (List.length args')
             then false
             else args_eq basic_eq my_strcasecmp FT_SORTED args args' cmp
         end.
Proof.
  cbn [Item_eq]. destruct (addr =? addr_of item); [reflexivity|].
  destruct item as [|addr' ft' name' args' cls']; [reflexivity|].
  destruct (heads_differ _ _ _ _ _ _ _); [reflexivity|].
  revert args'. induction args as [|x r IHr]; intros [|y r']; cbn;
    try reflexivity.
  destruct (Item_eq basic_eq my_strcasecmp FT_SORTED x y cmp); [apply IHr | reflexivity].
Qed.

Lemma heads_agree (ft : Functype) (name : string) (n : nat)
  (ft' : Functype) (name' : string) (n' : nat) :
  same_operator my_strcasecmp ft name ft' name' -> n = n' ->
  heads_differ my_strcasecmp ft name n ft' name' n' = false.
Proof.
  intros [F N] L. subst ft' n'. unfold heads_differ.
  rewrite (proj2 (Functype_eqb_eq ft ft) eq_refl), Nat.eqb_refl. cbn [negb orb].
  destruct (Functype_eqb ft FUNC_SP); cbn [negb andb orb].
  - rewrite N. reflexivity.
  - subst name'. rewrite String.eqb_refl. reflexivity.
Qed.

Lemma heads_disagree (ft : Functype) (name : string) (n : nat)
  (ft' : Functype) (name' : string) (n' : nat) :
  ~ same_operator my_strcasecmp ft name ft' name' \/ n <> n' ->
  heads_differ my_strcasecmp ft name n ft' name' n' = true.
Proof.
  intros H. unfold heads_differ.
  destruct (Functype_eqb ft ft') eqn:F; [|reflexivity].
  apply Functype_eqb_eq in F. subst ft'. cbn [negb orb].
  destruct (Nat.eqb_spec n n') as [L|L]; [|reflexivity]. cbn [negb orb].
  destruct H as [H|H]; [|contradiction].
  unfold same_operator in H.
  destruct (Functype_eqb ft FUNC_SP); cbn [negb andb orb].
  - destruct (Z.eqb_spec (my_strcasecmp name name') 0) as [E|E]; [|reflexivity].
    exfalso. apply H. split; [reflexivity|exact E].
  - destruct (String.eqb_spec name name') as [E|E]; [|reflexivity].
    exfalso. apply H. split; [reflexivity|exact E].
Qed.

Lemma args_eq_pointwise (cmp : bool) (l l' : list (item_tree basic)) :
  Forall2 (fun x y => Item_eq basic_eq my_strcasecmp FT_SORTED x y cmp = true) l l' ->
  args_eq basic_eq my_strcasecmp FT_SORTED l l' cmp = true.
Proof.
  induction 1 as [|x y r r' E _ IH]; cbn [args_eq]; [reflexivity|].
  rewrite E. exact IH.
Qed.

Lemma Forall2_from_Forall {A B : Type} (P : A -> B -> Prop) (Q : A -> B -> Prop)
  (l : list A) (l' : list B) :
  Forall (fun x => forall y, P x y -> Q x y) l -> Forall2 P l l' ->
  Forall2 Q l l'.
Proof.
  intros H F. induction F as [|x y r r' p _ IH]; constructor;
    inversion H; subst; auto.
Qed.

Lemma structurally_equal_eq (cmp : bool) (a : item_tree basic) :
  forall b, structurally_equal basic_eq my_strcasecmp FT_SORTED cmp a b ->
            Item_eq basic_eq my_strcasecmp FT_SORTED a b cmp = true.
Proof.
  induction a as [addr x | addr ft name args cls IH] using item_tree_forall_ind;
    intros b H;
    inversion H as [? ? ? E | ? ? ? ? ? ? ? args' ? O L F | |
                    | ? ? ? ? ? ? ? ? ? ? ? ? ? ? ? FL KE | ? ? ? ? ? ? E];
    subst.
  - exact E.
  - rewrite Item_eq_func. destruct (addr =? _); [reflexivity|].
    rewrite (heads_agree _ _ _ _ _ _ O L).
    apply args_eq_pointwise.
    exact (Forall2_from_Forall _ _ _ _ IH F).
  - cbn [Item_eq]. unfold Item_func_get_user_var_eq. cbn [addr_of].
    destruct (addr =? _); [reflexivity|].
    rewrite (proj2 (Functype_eqb_eq ft ft) eq_refl). cbn [negb].
    apply String.eqb_refl.
  - cbn [Item_eq]. unfold Item_func_get_system_var_eq. cbn [addr_of].
    destruct (addr =? _); [reflexivity|].
    rewrite (proj2 (Functype_eqb_eq ft ft) eq_refl). cbn [negb].
    rewrite !Z.eqb_refl. reflexivity.
  - cbn [Item_eq]. unfold Item_func_match_eq. cbn [Functype_eqb negb].
    rewrite FL, !Z.eqb_refl. cbn [negb andb]. exact KE.
  - exact E.
Qed.

Lemma Item_func_eq_heads (cmp : bool) (addr addr' : Z) (ft ft' : Functype)
  (name name' : string) (args args' : list (item_tree basic))
  (cls' : func_class basic) :
  addr <> addr' ->
  ~ same_operator my_strcasecmp ft name ft' name'
  \/ List.length args <> List.length args' ->
  Item_func_eq basic_eq my_strcasecmp FT_SORTED
    (Func_item addr ft name args Item_func_class)
    (Func_item addr' ft' name' args' cls') cmp = false.
Proof.
  intros A H. unfold Item_func_eq. rewrite Item_eq_func. cbn [addr_of].
  destruct (Z.eqb_spec addr addr'); [contradiction|].
  rewrite (heads_disagree _ _ _ _ _ _ H). reflexivity.
Qed.

End EqualityFacts.

Arguments structurally_equal_eq {basic} basic_eq my_strcasecmp FT_SORTED
  cmp a b _.
Arguments Item_func_eq_heads {basic} basic_eq my_strcasecmp FT_SORTED cmp
  addr addr' ft ft' name name' args args' cls' _ _.

(** C9 (amended).  Two function nodes whose class inherits
    [Item_func::eq], wherever they were built, compare equal when they
    have the same operator kind (the same [functype()] and the same
    name), the same number of arguments and pairwise equal arguments,
    an argument of a class with an [eq] of its own being compared by it:
    two user variables are equal when they have the same name, two
    system variables when they are the same variable in the same scope,
    two full-text searches when they have the same flags up to
    [FT_SORTED], the same key and table and equal search expressions.
    Two distinct nodes whose operator kind ([functype()] or name) or
    whose number of arguments differ never compare equal. *)
Theorem Item_func_eq_structural :
  forall (basic : Type) (basic_eq : basic -> item_tree basic -> bool -> bool)
    (my_strcasecmp : string -> string -> Z) (FT_SORTED : Z) (binary_cmp : bool),
    (forall addr addr' ft ft' name name' args args' cls',
        same_operator my_strcasecmp ft name ft' name' ->
        List.length args = List.length args' ->
        Forall2 (structurally_equal basic_eq my_strcasecmp FT_SORTED binary_cmp)
                args args' ->
        Item_func_eq basic_eq my_strcasecmp FT_SORTED
          (Func_item addr ft name args Item_func_class)
          (Func_item addr' ft' name' args' cls') binary_cmp = true)
    /\ (forall addr addr' ft ft' name name' args args' cls',
          addr <> addr' ->
          ~ same_operator my_strcasecmp ft name ft' name'
          \/ List.length args <> List.length args' ->
          Item_func_eq basic_eq my_strcasecmp FT_SORTED
            (Func_item addr ft name args Item_func_class)
            (Func_item addr' ft' name' args' cls') binary_cmp = false).
Proof.
  intros basic basic_eq my_strcasecmp FT_SORTED cmp. split.
  - intros addr addr' ft ft' name name' args args' cls' O L F.
    apply structurally_equal_eq. constructor; assumption.
  - intros. apply Item_func_eq_heads; assumption.
Qed.

(** Two copies of [1 + (-2)] compare equal, and so do two copies of
    [-(@a)]; a sum of one argument does not compare equal to the first,
    nor does a node of the same type and arity with another name. *)
Lemma Item_func_eq_structural_witness :
  Item_func_eq int_constant_eq strcmp 2 (sum_tree 100) (sum_tree 200) false = true
  /\ Item_func_eq int_constant_eq strcmp 2 (neg_tree 1 (user_var_tree 2 "a"))
       (neg_tree 3 (user_var_tree 4 "a")) false = true
  /\ Item_func_eq int_constant_eq strcmp 2 (sum_tree 100)
       (Func_item 300 UNKNOWN_FUNC "+" [Basic_item 301 1] Item_func_class)
       false = false
  /\ Item_func_eq int_constant_eq strcmp 2 (sum_tree 100)
       (Func_item 300 UNKNOWN_FUNC "*"
          [Basic_item 301 1; Basic_item 302 2] Item_func_class)
       false = false.
Proof.
  split; [|split; [|split]].
  - apply (proj1 (Item_func_eq_structural Z int_constant_eq strcmp 2 false)).
    + split; reflexivity.
    + reflexivity.
    + repeat constructor.
  - apply (proj1 (Item_func_eq_structural Z int_constant_eq strcmp 2 false)).
    + split; reflexivity.
    + reflexivity.
    + repeat constructor.
  - apply (proj2 (Item_func_eq_structural Z int_constant_eq strcmp 2 false)).
    + discriminate.
    + right. discriminate.
  - apply (proj2 (Item_func_eq_structural Z int_constant_eq strcmp 2 false)).
    + discriminate.
    + left. intros [_ H]. discriminate H.
Defined.

(** C9 as stated fails: [-(@a)] and [-(@b)] have the same operator, the
    same arity and children with the same operator and arity, yet they
    do not compare equal: user variables compare by name. *)
Lemma user_variables_compare_by_name :
  same_structure (neg_tree 1 (user_var_tree 2 "a"))
                 (neg_tree 3 (user_var_tree 4 "b"))
  /\ Item_func_eq int_constant_eq strcmp 2 (neg_tree 1 (user_var_tree 2 "a"))
       (neg_tree 3 (user_var_tree 4 "b")) false = false
  /\ Item_eq int_constant_eq strcmp 2 (user_var_tree 2 "a")
       (user_var_tree 4 "b") false = false.
Proof.
  split; [|split; reflexivity].
  unfold neg_tree, user_var_tree.
  apply ss_func; [reflexivity|].
  constructor; [|constructor].
  apply ss_func; [reflexivity|constructor].
Qed.

(** ** Integer subtraction *)


Lemma int_op_finish_spec (this : Item_func) (res : Z) (r : option bool)
  (v : Z) (thd : THD) :
  is_longlong res ->
  match r with
  | None => ~ (LLONG_MIN <= v <= ULLONG_MAX)
  | Some u => pair_value res u = v
  end ->
  (representable (this_unsigned_flag this) v ->
   int_op_finish this res r thd = ((to_ll v, false), thd))
  /\ (~ representable (this_unsigned_flag this) v ->
      int_op_finish this res r thd
      = ((0, false), snd (raise_integer_overflow this thd))).
Proof.
  intros Rres S. unfold int_op_finish. destruct r as [u|].
  - destruct (check_integer_overflow_spec this res u thd Rres) as [Ok Ko].
    rewrite S in Ok, Ko. unfold bind, ret. cbv beta. split; intros H.
    + rewrite (Ok H). do 2 f_equal. rewrite <- S. unfold pair_value.
      destruct u; [rewrite to_ll_to_ull|]; symmetry; apply to_ll_id; exact Rres.
    + rewrite (Ko H). reflexivity.
  - unfold bind, ret. cbv beta. split; intros H.
    + exfalso. apply S. unfold representable in H.
      destruct (this_unsigned_flag this); bounds; lia.
    + reflexivity.
Qed.

Lemma int_op_finish_raised (this : Item_func) (res : Z) (r : option bool)
  (v : Z) (thd : THD) :
  is_longlong res ->
  match r with
  | None => ~ (LLONG_MIN <= v <= ULLONG_MAX)
  | Some u => pair_value res u = v
  end ->
  (raised ER_DATA_OUT_OF_RANGE thd (snd (int_op_finish this res r thd)) <->
   ~ representable (this_unsigned_flag this) v).
Proof.
  intros Rres S.
  destruct (int_op_finish_spec this res r v thd Rres S) as [Ok Ko].
  split.
  - intros Hr Hrep. rewrite (Ok Hrep) in Hr. simpl in Hr.
    exact (not_raised_same _ _ Hr).
  - intros Hn. rewrite (Ko Hn). simpl. apply raise_integer_overflow_raised.
Qed.






Ltac in_range := vm_compute; split; discriminate.









(** ** Integer multiplication *)

Lemma halves (x : Z) :
  0 <= x < 2 ^ 64 ->
  Z.land 4294967295 x = x mod 2 ^ 32 /\ Z.shiftr x 32 = x / 2 ^ 32.
Proof.
  intros H. split.
  - rewrite Z.land_comm. change 4294967295 with (Z.ones 32).
    apply Z.land_ones. lia.
  - apply Z.shiftr_div_pow2. lia.
Qed.

Lemma mul_magnitudes_spec (a b : Z) :
  let m := to_ull a * to_ull b in
  match mul_magnitudes a b with
  | None => 2 ^ 64 <= m
  | Some res => m < 2 ^ 64 /\ res = to_ll m
  end.
Proof.
  intros m. subst m. unfold mul_magnitudes, test_if_sum_overflows_ull, ULLONG_MAX.
  destruct (to_ull_spec a) as (ka & _ & Ha).
  destruct (to_ull_spec b) as (kb & _ & Hb).
  set (A := to_ull a) in *. set (B := to_ull b) in *. clearbody A B.
  destruct (halves A Ha) as [-> ->]. destruct (halves B Hb) as [-> ->].
  pose proof (Z.div_mod A (2 ^ 32) ltac:(lia)) as EA.
  pose proof (Z.div_mod B (2 ^ 32) ltac:(lia)) as EB.
  pose proof (Z.mod_pos_bound A (2 ^ 32) ltac:(lia)) as BA.
  pose proof (Z.mod_pos_bound B (2 ^ 32) ltac:(lia)) as BB.
  assert (0 <= A / 2 ^ 32 < 2 ^ 32) as HA.
  { split; [apply Z.div_pos; lia|apply Z.div_lt_upper_bound; lia]. }
  assert (0 <= B / 2 ^ 32 < 2 ^ 32) as HB.
  { split; [apply Z.div_pos; lia|apply Z.div_lt_upper_bound; lia]. }
  set (a1 := A / 2 ^ 32) in *. set (a0 := A mod 2 ^ 32) in *.
  set (b1 := B / 2 ^ 32) in *. set (b0 := B mod 2 ^ 32) in *.
  clearbody a1 a0 b1 b0.
  destruct (Z.eqb_spec a1 0) as [Z1|Z1]; destruct (Z.eqb_spec b1 0) as [Z2|Z2];
    cbn [negb andb].
  4: { subst A B. nia. }
  all: rewrite Z.shiftl_mul_pow2 by lia.
  - subst a1 b1. replace (0 * b0 + a0 * 0) with 0 by lia.
    change (to_ull 0) with 0. change (4294967295 <? 0) with false. cbv iota.
    change (to_ull (0 * 2 ^ 32)) with 0.
    assert (0 <= a0 * b0 < 2 ^ 64) by nia.
    rewrite (to_ull_id (a0 * b0)) by (bounds; lia).
    destruct (Z.ltb_spec (18446744073709551615 - 0) (a0 * b0)); [lia|].
    split; [subst A B; nia|]. f_equal. subst A B. nia.
  - subst a1. replace (0 * b0 + a0 * b1) with (a0 * b1) by lia.
    assert (0 <= a0 * b1 < 2 ^ 64) by nia.
    assert (0 <= a0 * b0 < 2 ^ 64) by nia.
    rewrite (to_ull_id (a0 * b1)) by (bounds; lia).
    rewrite (to_ull_id (a0 * b0)) by (bounds; lia).
    assert (A * B = a0 * b1 * 2 ^ 32 + a0 * b0) as P by (subst A B; nia).
    rewrite P. set (p := a0 * b1) in *. set (q := a0 * b0) in *. clearbody p q.
    destruct (Z.ltb_spec 4294967295 p); [lia|].
    rewrite (to_ull_id (p * 2 ^ 32)) by (bounds; lia).
    destruct (Z.ltb_spec (18446744073709551615 - p * 2 ^ 32) q); [lia|].
    split; [lia|reflexivity].
  - subst b1. replace (a1 * b0 + a0 * 0) with (a1 * b0) by lia.
    assert (0 <= a1 * b0 < 2 ^ 64) by nia.
    assert (0 <= a0 * b0 < 2 ^ 64) by nia.
    rewrite (to_ull_id (a1 * b0)) by (bounds; lia).
    rewrite (to_ull_id (a0 * b0)) by (bounds; lia).
    assert (A * B = a1 * b0 * 2 ^ 32 + a0 * b0) as P by (subst A B; nia).
    rewrite P. set (p := a1 * b0) in *. set (q := a0 * b0) in *. clearbody p q.
    destruct (Z.ltb_spec 4294967295 p); [lia|].
    rewrite (to_ull_id (p * 2 ^ 32)) by (bounds; lia).
    destruct (Z.ltb_spec (18446744073709551615 - p * 2 ^ 32) q); [lia|].
    split; [lia|reflexivity].
Qed.

Lemma magnitude_spec (v : Z) (u : bool) :
  is_longlong v ->
  let neg := negb u && (v <? 0) in
  to_ull (if neg then to_ll (- v) else v) = Z.abs (pair_value v u)
  /\ neg = (pair_value v u <? 0).
Proof.
  intros R neg. subst neg. unfold pair_value. destruct u; cbn [negb andb].
  - split; [|symmetry; apply Z.ltb_ge]; wrap_lia.
  - destruct (Z.ltb_spec v 0); split; try reflexivity.
    + wrap_lia.
    + wrap_lia.
Qed.

Lemma sign_of_product (x y : Z) :
  (negb (Bool.eqb (x <? 0) (y <? 0)) = true -> x * y <= 0)
  /\ (negb (Bool.eqb (x <? 0) (y <? 0)) = false -> 0 <= x * y).
Proof.
  destruct (Z.ltb_spec x 0), (Z.ltb_spec y 0); cbn; split; intros;
    try discriminate; nia.
Qed.

Lemma raise_integer_overflow_out (this : Item_func) (thd : THD) :
  raised ER_DATA_OUT_OF_RANGE thd
    (snd ((v <- raise_integer_overflow this ;; ret (v, false)) thd)).
Proof.
  unfold bind, ret. cbv beta.
  destruct (raise_integer_overflow this thd) eqn:E. simpl.
  pose proof (raise_integer_overflow_raised this thd) as [_ H].
  rewrite E in H. exact H.
Qed.

(** What [Item_func_mul::int_op] does with the product of the magnitudes,
    once the signs are known. *)
Lemma mul_signed_result (this : Item_func) (differ : bool) (prod : Z)
  (thd : THD) :
  Z.abs prod < 2 ^ 64 ->
  (differ = true -> prod <= 0) -> (differ = false -> 0 <= prod) ->
  let res := to_ll (Z.abs prod) in
  let out :=
    (if differ then
       if to_ull LLONG_MIN + 1 <? to_ull res then
         v <- raise_integer_overflow this ;; ret (v, false)
       else
         v <- check_integer_overflow this (to_ll (- res)) false ;;
         ret (v, false)
     else
       v <- check_integer_overflow this res true ;; ret (v, false)) thd in
  (prod <> LLONG_MIN - 1 ->
   (raised ER_DATA_OUT_OF_RANGE thd (snd out) <->
    ~ representable (this_unsigned_flag this) prod)
   /\ (representable (this_unsigned_flag this) prod ->
       out = ((to_ll prod, false), thd)))
  /\ (prod = LLONG_MIN - 1 -> out = ((LLONG_MAX, false), thd)).
Proof.
  intros Sm SP SN res out. subst out res. destruct differ.
  - specialize (SP eq_refl). clear SN.
    destruct (Z.ltb_spec (to_ull LLONG_MIN + 1) (to_ull (to_ll (Z.abs prod)))) as [L|L].
    + assert (~ representable (this_unsigned_flag this) prod) as NR.
      { unfold representable. destruct (this_unsigned_flag this); wrap_lia. }
      split; [|intros; exfalso; wrap_lia].
      intros _. split; [|intros; contradiction].
      split; [intros _; exact NR|intros _].
      apply raise_integer_overflow_out.
    + set (r := to_ll (- to_ll (Z.abs prod))).
      assert (Rr : is_longlong r) by (subst r; wrap_lia).
      split.
      * intros NE.
        assert (PV : pair_value r false = prod).
        { unfold pair_value. subst r. wrap_lia. }
        exact (conj (int_op_finish_raised this r (Some false) prod thd Rr PV)
                 (proj1 (int_op_finish_spec this r (Some false) prod thd Rr PV))).
      * intros E. subst r. rewrite E.
        unfold check_integer_overflow, bind, ret.
        destruct (this_unsigned_flag this); vm_compute; reflexivity.
  - specialize (SN eq_refl). clear SP.
    set (r := to_ll (Z.abs prod)).
    assert (Rr : is_longlong r) by (subst r; wrap_lia).
    assert (PV : pair_value r true = prod).
    { unfold pair_value. subst r. wrap_lia. }
    split; [|intros; exfalso; wrap_lia].
    intros _.
    exact (conj (int_op_finish_raised this r (Some true) prod thd Rr PV)
             (proj1 (int_op_finish_spec this r (Some true) prod thd Rr PV))).
Qed.

Lemma ll_neg_operand (v : Z) (u : bool) :
  is_longlong v -> ~ (u = false /\ v = LLONG_MIN) ->
  (if negb u && (v <? 0) then ll_neg v else Returns v)
  = Returns (if negb u && (v <? 0) then to_ll (- v) else v).
Proof.
  intros R D. destruct u; cbn [negb andb]; [reflexivity|].
  destruct (Z.ltb_spec v 0); [|reflexivity]. unfold ll_neg.
  assert (V : v <> LLONG_MIN) by (intros E; apply D; split; [reflexivity|exact E]).
  assert (I : is_longlong (- v)) by (bounds; lia).
  rewrite (proj2 (in_longlong_spec (- v)) I), (to_ll_id _ I). reflexivity.
Qed.

(** The evaluation of [Item_func_mul::int_op] once the product of the
    magnitudes is known: undefined for the product [LLONG_MIN]. *)
Lemma mul_signed_evaluation (this : Item_func) (differ : bool) (prod : Z)
  (thd : THD) :
  Z.abs prod < 2 ^ 64 ->
  (differ = true -> prod <= 0) -> (differ = false -> 0 <= prod) ->
  let res := to_ll (Z.abs prod) in
  let out :=
    if differ then
      if to_ull LLONG_MIN + 1 <? to_ull res then
        Returns ((v <- raise_integer_overflow this ;; ret (v, false)) thd)
      else
        match ll_neg res with
        | Undefined => Undefined
        | Returns res =>
            Returns ((v <- check_integer_overflow this res false ;;
                      ret (v, false)) thd)
        end
    else
      Returns ((v <- check_integer_overflow this res true ;; ret (v, false)) thd)
  in
  (prod = LLONG_MIN -> out = Undefined)
  /\ (prod <> LLONG_MIN ->
      exists r, out = Returns r
        /\ (prod <> LLONG_MIN - 1 ->
            (raised ER_DATA_OUT_OF_RANGE thd (snd r) <->
             ~ representable (this_unsigned_flag this) prod)
            /\ (representable (this_unsigned_flag this) prod ->
                r = ((to_ll prod, false), thd)))
        /\ (prod = LLONG_MIN - 1 -> r = ((LLONG_MAX, false), thd))).
Proof.
  intros Sm SP SN res out.
  pose proof (mul_signed_result this differ prod thd Sm SP SN) as W.
  cbv zeta in W. fold res in W. subst out. destruct differ.
  - specialize (SP eq_refl). clear SN.
    destruct (to_ull LLONG_MIN + 1 <? to_ull res) eqn:T.
    + split.
      * intros E. exfalso. subst res. rewrite E in T. vm_compute in T.
        discriminate T.
      * intros _. eexists. split; [reflexivity|]. exact W.
    + split.
      * intros E. subst res. rewrite E. reflexivity.
      * intros NE. apply Z.ltb_ge in T.
        assert (I : is_longlong (- res)) by (subst res; wrap_lia).
        unfold ll_neg. rewrite (proj2 (in_longlong_spec (- res)) I).
        cbv iota beta. rewrite <- (to_ll_id _ I).
        eexists. split; [reflexivity|]. exact W.
  - specialize (SN eq_refl). split.
    + intros E. exfalso. bounds. lia.
    + intros _. eexists. split; [reflexivity|]. exact W.
Qed.

Lemma mul_int_op_cases (this : Item_func) (arg0 arg1 : Item) (thd : THD) :
  is_longlong (val_int arg0) -> is_longlong (val_int arg1) ->
  null_value arg0 = false -> null_value arg1 = false ->
  let prod := int_value arg0 * int_value arg1 in
  let out := Item_func_mul_int_op this arg0 arg1 thd in
  (mul_undefined arg0 arg1 /\ out = Undefined)
  \/ (~ mul_undefined arg0 arg1
      /\ exists r, out = Returns r
           /\ (prod <> LLONG_MIN - 1 ->
               (raised ER_DATA_OUT_OF_RANGE thd (snd r) <->
                ~ representable (this_unsigned_flag this) prod)
               /\ (representable (this_unsigned_flag this) prod ->
                   r = ((to_ll prod, false), thd)))
           /\ (prod = LLONG_MIN - 1 -> r = ((LLONG_MAX, false), thd))).
Proof.
  intros R0 R1 N0 N1 prod out. subst out.
  unfold Item_func_mul_int_op. rewrite N0, N1. cbn [orb]. cbv iota zeta.
  assert (D0 : (unsigned_flag arg0 = false /\ val_int arg0 = LLONG_MIN)
               \/ ~ (unsigned_flag arg0 = false /\ val_int arg0 = LLONG_MIN)).
  { destruct (unsigned_flag arg0); [right; intros [X _]; discriminate X|].
    destruct (Z.eq_dec (val_int arg0) LLONG_MIN) as [E|E];
      [left; split; [reflexivity|exact E]|right; intros [_ X]; exact (E X)]. }
  assert (D1 : (unsigned_flag arg1 = false /\ val_int arg1 = LLONG_MIN)
               \/ ~ (unsigned_flag arg1 = false /\ val_int arg1 = LLONG_MIN)).
  { destruct (unsigned_flag arg1); [right; intros [X _]; discriminate X|].
    destruct (Z.eq_dec (val_int arg1) LLONG_MIN) as [E|E];
      [left; split; [reflexivity|exact E]|right; intros [_ X]; exact (E X)]. }
  destruct D0 as [[U0 V0]|D0].
  { left. split; [left; split; assumption|]. rewrite U0, V0. reflexivity. }
  rewrite (ll_neg_operand _ _ R0 D0).
  destruct D1 as [[U1 V1]|D1].
  { left. split; [right; left; split; assumption|]. rewrite U1, V1.
    reflexivity. }
  rewrite (ll_neg_operand _ _ R1 D1).
  destruct (magnitude_spec (val_int arg0) (unsigned_flag arg0) R0) as [MA SA].
  destruct (magnitude_spec (val_int arg1) (unsigned_flag arg1) R1) as [MB SB].
  change (pair_value (val_int arg0) (unsigned_flag arg0))
    with (int_value arg0) in MA, SA.
  change (pair_value (val_int arg1) (unsigned_flag arg1))
    with (int_value arg1) in MB, SB.
  rewrite SA, SB.
  pose proof (mul_magnitudes_spec
                (if negb (unsigned_flag arg0) && (val_int arg0 <? 0)
                 then to_ll (- val_int arg0) else val_int arg0)
                (if negb (unsigned_flag arg1) && (val_int arg1 <? 0)
                 then to_ll (- val_int arg1) else val_int arg1)) as S.
  cbv zeta in S. rewrite MA, MB, <- Z.abs_mul in S. fold prod in S.
  rewrite SA, SB in S.
  destruct (sign_of_product (int_value arg0) (int_value arg1)) as [SP SN].
  fold prod in SP, SN.
  assert (MU : mul_undefined arg0 arg1 <-> prod = LLONG_MIN).
  { unfold mul_undefined. fold prod. tauto. }
  destruct (mul_magnitudes _ _) as [res|].
  - destruct S as [Sm ->].
    destruct (mul_signed_evaluation this _ prod thd Sm SP SN) as [Un De].
    cbv zeta in Un, De.
    destruct (Z.eq_dec prod LLONG_MIN) as [E|E].
    + left. split; [apply MU; exact E|exact (Un E)].
    + right. split; [rewrite MU; exact E|exact (De E)].
  - right. split; [rewrite MU; bounds; lia|].
    assert (~ representable (this_unsigned_flag this) prod) as NR.
    { unfold representable. destruct (this_unsigned_flag this); wrap_lia. }
    eexists. split; [reflexivity|]. split; [|intros; exfalso; wrap_lia].
    intros _. split; [|intros; contradiction].
    split; [intros _; exact NR|intros _].
    apply raise_integer_overflow_out.
Qed.

(** X4.  [Item_func_mul::int_op] on two non-null 64-bit operands, each
    signed or unsigned, and a node of either signedness.  The evaluation
    is undefined exactly when a signed operand is [LLONG_MIN] or the
    product is [LLONG_MIN].  Except when the product is [LLONG_MIN - 1],
    every defined evaluation raises the out-of-range error exactly when
    the mathematical product is not a number the node can return, and
    otherwise returns the product and leaves the session untouched.
    When the product is [LLONG_MIN - 1] (the bound of the test on a
    negative result is one too large) no error is raised and
    [LLONG_MAX] is returned. *)
Theorem mul_int_op_exact :
  forall (this : Item_func) (arg0 arg1 : Item) (thd : THD),
    is_longlong (val_int arg0) -> is_longlong (val_int arg1) ->
    null_value arg0 = false -> null_value arg1 = false ->
    let prod := int_value arg0 * int_value arg1 in
    let out := Item_func_mul_int_op this arg0 arg1 thd in
    (out = Undefined <-> mul_undefined arg0 arg1)
    /\ (forall r, out = Returns r ->
          (prod <> LLONG_MIN - 1 ->
           (raised ER_DATA_OUT_OF_RANGE thd (snd r) <->
            ~ representable (this_unsigned_flag this) prod)
           /\ (representable (this_unsigned_flag this) prod ->
               r = ((to_ll prod, false), thd)))
          /\ (prod = LLONG_MIN - 1 -> r = ((LLONG_MAX, false), thd))).
Proof.
  intros this arg0 arg1 thd R0 R1 N0 N1 prod out.
  destruct (mul_int_op_cases this arg0 arg1 thd R0 R1 N0 N1)
    as [[U E]|[D (r & E & H)]]; fold out in E.
  - split; [split; [intros _; exact U|intros _; exact E]|].
    intros r' E'. rewrite E in E'. discriminate E'.
  - split.
    + split; [intros E'; rewrite E in E'; discriminate E'|].
      intros U. contradiction.
    + intros r' E'. rewrite E in E'. injection E' as <-. exact H.
Qed.

(** [-3 * 4] is -12; [-2097153 * 4398044413953], which is
    [LLONG_MIN - 1], returns [LLONG_MAX]; [LLONG_MIN * 1] with an
    unsigned 1 is undefined. *)
Lemma mul_int_op_exact_witness :
  Item_func_mul_int_op this0 (int_item INT_ITEM (-3) false)
    (int_item INT_ITEM 4 false) thd0 = Returns ((-12, false), thd0)
  /\ Item_func_mul_int_op this0 (int_item INT_ITEM (-2097153) false)
       (int_item INT_ITEM 4398044413953 false) thd0
     = Returns ((LLONG_MAX, false), thd0)
  /\ Item_func_mul_int_op (mk_Item_func INT_RESULT true 0 21 false)
       (int_item INT_ITEM LLONG_MIN false) (int_item INT_ITEM 1 true) thd0
     = Undefined.
Proof.
  split; [|split].
  - exact (f_equal Returns (eq_sym
             (proj2 (proj1 (proj2 (mul_int_op_exact this0
                                     (int_item INT_ITEM (-3) false)
                                     (int_item INT_ITEM 4 false) thd0
                                     ltac:(in_range) ltac:(in_range)
                                     eq_refl eq_refl)
                              ((-12, false), thd0) eq_refl)
                       ltac:(vm_compute; discriminate))
                ltac:(in_range)))).
  - exact (f_equal Returns (eq_sym
             (proj2 (proj2 (mul_int_op_exact this0
                              (int_item INT_ITEM (-2097153) false)
                              (int_item INT_ITEM 4398044413953 false) thd0
                              ltac:(in_range) ltac:(in_range) eq_refl eq_refl)
                       ((LLONG_MAX, false), thd0) eq_refl)
                eq_refl))).
  - apply (proj1 (mul_int_op_exact (mk_Item_func INT_RESULT true 0 21 false)
                    (int_item INT_ITEM LLONG_MIN false)
                    (int_item INT_ITEM 1 true) thd0
                    ltac:(in_range) ltac:(in_range) eq_refl eq_refl)).
    left. split; reflexivity.
Defined.

(** ** Integer division *)

Lemma div_magnitude_spec (v : Z) (u : bool) :
  is_longlong v ->
  let neg := negb u && (v <? 0) in
  to_ull (if neg && negb (v =? LLONG_MIN) then to_ll (- v) else v)
  = Z.abs (pair_value v u)
  /\ neg = (pair_value v u <? 0).
Proof.
  intros R neg. subst neg. unfold pair_value. destruct u; cbn [negb andb].
  - split; [|symmetry; apply Z.ltb_ge]; wrap_lia.
  - destruct (Z.ltb_spec v 0); cbn [andb]; [|split; try reflexivity; wrap_lia].
    destruct (Z.eqb_spec v LLONG_MIN); cbn [negb]; split; try reflexivity.
    + subst v. reflexivity.
    + wrap_lia.
Qed.

Lemma quot_by_magnitudes (x y : Z) :
  y <> 0 ->
  Z.quot x y = (if negb (Bool.eqb (x <? 0) (y <? 0))
                then - (Z.abs x / Z.abs y) else Z.abs x / Z.abs y).
Proof.
  intros Hy. rewrite (Z.quot_div x y Hy).
  assert (x = 0 -> Z.abs x / Z.abs y = 0) by (intros ->; reflexivity).
  set (q := Z.abs x / Z.abs y) in *. clearbody q.
  destruct (Z.ltb_spec x 0), (Z.ltb_spec y 0); cbn; nia.
Qed.

Lemma int_div_range_representable (u : bool) (q : Z) :
  LLONG_MIN < q -> (int_div_range u q <-> representable u q).
Proof.
  unfold int_div_range, representable. destruct u; bounds; lia.
Qed.

(** What [Item_func_int_div::val_int] does with the quotient [m] of the
    magnitudes, once the sign of the result is known. *)
Lemma div_signed_result (this : Item_func) (differ : bool) (m : Z) (thd : THD) :
  0 <= m < 2 ^ 64 ->
  let q := if differ then - m else m in
  let out :=
    (if differ && (to_ull LLONG_MAX <? m) then
       v <- raise_integer_overflow this ;; ret (v, false)
     else
       let res := if differ then to_ull (to_ll (- to_ll m)) else m in
       v <- check_integer_overflow this (to_ll res) (negb differ) ;;
       ret (v, false)) thd in
  (raised ER_DATA_OUT_OF_RANGE thd (snd out) <->
   ~ int_div_range (this_unsigned_flag this) q)
  /\ (int_div_range (this_unsigned_flag this) q ->
      out = ((to_ll q, false), thd)).
Proof.
  intros Hm q out. subst q out. destruct differ; cbn [andb negb].
  - destruct (Z.ltb_spec (to_ull LLONG_MAX) m) as [L|L].
    + assert (~ int_div_range (this_unsigned_flag this) (- m)) as NR.
      { unfold int_div_range. destruct (this_unsigned_flag this); wrap_lia. }
      split; [|intros; contradiction].
      split; [intros _; exact NR|intros _].
      apply raise_integer_overflow_out.
    + cbv zeta.
      set (r := to_ll (to_ull (to_ll (- to_ll m)))).
      assert (Rr : is_longlong r) by (subst r; wrap_lia).
      assert (PV : pair_value r false = - m).
      { unfold pair_value. subst r. wrap_lia. }
      assert (LLONG_MIN < - m) as G by wrap_lia.
      rewrite (int_div_range_representable _ _ G).
      exact (conj (int_op_finish_raised this r (Some false) (- m) thd Rr PV)
               (proj1 (int_op_finish_spec this r (Some false) (- m) thd Rr PV))).
  - cbv zeta.
    set (r := to_ll m).
    assert (Rr : is_longlong r) by (subst r; wrap_lia).
    assert (PV : pair_value r true = m).
    { unfold pair_value. subst r. wrap_lia. }
    assert (LLONG_MIN < m) as G by wrap_lia.
    rewrite (int_div_range_representable _ _ G).
    exact (conj (int_op_finish_raised this r (Some true) m thd Rr PV)
             (proj1 (int_op_finish_spec this r (Some true) m thd Rr PV))).
Qed.

(** X5.  [Item_func_int_div::val_int] on two non-null operands of the
    integer category, whatever the conversion of decimals is.  A zero
    divisor gives NULL, with the division warning when the mode asks for
    it.  Otherwise the quotient truncated toward zero is returned when
    the node can hold it, and the out-of-range error is raised exactly
    when it cannot; a signed node, however, also raises the error for the
    quotient [LLONG_MIN]. *)
Theorem int_div_val_int_exact :
  forall (my_decimal2int : Z -> my_decimal -> bool -> M (Z * Z))
         (this : Item_func) (a0 a1 : Item) (thd : THD),
    result_type a0 = INT_RESULT -> result_type a1 = INT_RESULT ->
    is_longlong (val_int a0) -> is_longlong (val_int a1) ->
    null_value a0 = false -> null_value a1 = false ->
    let out := Item_func_int_div_val_int my_decimal2int this a0 a1 thd in
    let q := Z.quot (int_value a0) (int_value a1) in
    (val_int a1 = 0 -> out = ((0, true), with_division_warning thd))
    /\ (val_int a1 <> 0 ->
        (raised ER_DATA_OUT_OF_RANGE thd (snd out) <->
         ~ int_div_range (this_unsigned_flag this) q)
        /\ (int_div_range (this_unsigned_flag this) q ->
            out = ((to_ll q, false), thd))).
Proof.
  intros d2i this a0 a1 thd T0 T1 R0 R1 N0 N1 out q. subst out.
  unfold Item_func_int_div_val_int. rewrite T0, T1, N0, N1.
  cbn [Item_result_eqb negb orb]. cbv iota zeta. split.
  - intros V1. rewrite V1. cbn [Z.eqb]. cbv iota. unfold bind, ret.
    rewrite signal_divide_by_null_spec. reflexivity.
  - intros V1. destruct (Z.eqb_spec (val_int a1) 0) as [E|_]; [contradiction|].
    destruct (div_magnitude_spec (val_int a0) (unsigned_flag a0) R0) as [MA SA].
    destruct (div_magnitude_spec (val_int a1) (unsigned_flag a1) R1) as [MB SB].
    change (pair_value (val_int a0) (unsigned_flag a0))
      with (int_value a0) in MA, SA.
    change (pair_value (val_int a1) (unsigned_flag a1))
      with (int_value a1) in MB, SB.
    rewrite MA, MB, SA, SB. unfold udiv.
    assert (NZ : int_value a1 <> 0).
    { unfold int_value. destruct (unsigned_flag a1); wrap_lia. }
    assert (B0 : Z.abs (int_value a0) < 2 ^ 64).
    { unfold int_value. destruct (unsigned_flag a0); wrap_lia. }
    assert (Hm : 0 <= Z.abs (int_value a0) / Z.abs (int_value a1) < 2 ^ 64).
    { split; [apply Z.div_pos; lia|].
      apply Z.div_lt_upper_bound; [lia|]. nia. }
    pose proof (div_signed_result this
                  (negb (Bool.eqb (int_value a0 <? 0) (int_value a1 <? 0)))
                  (Z.abs (int_value a0) / Z.abs (int_value a1)) thd Hm) as D.
    cbv zeta in D. rewrite <- (quot_by_magnitudes _ _ NZ) in D. fold q in D.
    exact D.
Qed.

Lemma int_div_val_int_exact_witness :
  Item_func_int_div_val_int no_decimal2int this0 (int_item INT_ITEM (-7) false)
    (int_item INT_ITEM 2 false) thd0 = ((-3, false), thd0)
  /\ raised ER_DATA_OUT_OF_RANGE thd0
       (snd (Item_func_int_div_val_int no_decimal2int this0
               (int_item INT_ITEM LLONG_MIN false)
               (int_item INT_ITEM 1 false) thd0)).
Proof.
  split.
  - apply (proj2 (proj2 (int_div_val_int_exact no_decimal2int this0
                           (int_item INT_ITEM (-7) false)
                           (int_item INT_ITEM 2 false) thd0
                           eq_refl eq_refl ltac:(in_range) ltac:(in_range)
                           eq_refl eq_refl)
                    ltac:(discriminate))).
    vm_compute. split; [reflexivity|discriminate].
  - apply (proj1 (proj2 (int_div_val_int_exact no_decimal2int this0
                           (int_item INT_ITEM LLONG_MIN false)
                           (int_item INT_ITEM 1 false) thd0
                           eq_refl eq_refl ltac:(in_range) ltac:(in_range)
                           eq_refl eq_refl)
                    ltac:(discriminate))).
    vm_compute. intros [H _]. discriminate H.
Defined.

(** ** Negation, absolute value and modulo of integers *)

Lemma ret_outcome (u : bool) (v z : Z) (thd : THD) :
  representable u z -> v = to_ll z ->
  (raised ER_DATA_OUT_OF_RANGE thd (snd (ret (v, false) thd)) <->
   ~ representable u z)
  /\ (representable u z -> ret (v, false) thd = ((to_ll z, false), thd)).
Proof.
  intros Rp ->. unfold ret. simpl snd. split.
  - split; [intros H; exfalso; exact (not_raised_same _ _ H)|].
    intros H. contradiction.
  - reflexivity.
Qed.

Lemma raise_outcome (this : Item_func) (u : bool) (z : Z) (thd : THD) :
  ~ representable u z ->
  (raised ER_DATA_OUT_OF_RANGE thd
     (snd ((v <- raise_integer_overflow this ;; ret (v, false)) thd)) <->
   ~ representable u z)
  /\ (representable u z ->
      (v <- raise_integer_overflow this ;; ret (v, false)) thd
      = ((to_ll z, false), thd)).
Proof.
  intros NR. split; [|intros; contradiction].
  split; [intros _; exact NR|intros _; apply raise_integer_overflow_out].
Qed.

Lemma check_outcome (this : Item_func) (r : Z) (u : bool) (z : Z) (thd : THD) :
  is_longlong r -> pair_value r u = z ->
  (raised ER_DATA_OUT_OF_RANGE thd
     (snd ((v <- check_integer_overflow this r u ;; ret (v, false)) thd)) <->
   ~ representable (this_unsigned_flag this) z)
  /\ (representable (this_unsigned_flag this) z ->
      (v <- check_integer_overflow this r u ;; ret (v, false)) thd
      = ((to_ll z, false), thd)).
Proof.
  intros Rr PV.
  exact (conj (int_op_finish_raised this r (Some u) z thd Rr PV)
           (proj1 (int_op_finish_spec this r (Some u) z thd Rr PV))).
Qed.

(** X6.  [Item_func_neg::int_op] on a non-null 64-bit operand, signed or
    unsigned, and a node of either signedness: the out-of-range error is
    raised exactly when the opposite of the operand is not a number the
    node can return; otherwise the opposite is returned and the session
    is left untouched. *)
Theorem neg_int_op_exact :
  forall (this : Item_func) (a0 : Item) (thd : THD),
    is_longlong (val_int a0) -> null_value a0 = false ->
    let opp := - int_value a0 in
    let out := Item_func_neg_int_op this a0 thd in
    (raised ER_DATA_OUT_OF_RANGE thd (snd out) <->
     ~ representable (this_unsigned_flag this) opp)
    /\ (representable (this_unsigned_flag this) opp ->
        out = ((to_ll opp, false), thd)).
Proof.
  intros this a0 thd R N opp out. subst out opp.
  unfold Item_func_neg_int_op. rewrite N. cbv iota zeta.
  unfold int_value.
  assert (G : forall u, pair_value (to_ll (- val_int a0))
                          (negb u && (val_int a0 <? 0))
                        = - (if u then to_ull (val_int a0) else val_int a0)
                        \/ (u = true /\ LLONG_MAX + 1 < to_ull (val_int a0))).
  { intros u. unfold pair_value. destruct u; cbn [negb andb].
    - destruct (Z.ltb_spec (LLONG_MAX + 1) (to_ull (val_int a0)));
        [right; split; [reflexivity|assumption]|left; wrap_lia].
    - left. destruct (Z.ltb_spec (val_int a0) 0); wrap_lia. }
  assert (Rr : is_longlong (to_ll (- val_int a0))) by wrap_lia.
  specialize (G (unsigned_flag a0)).
  pose proof (fun z => check_outcome this (to_ll (- val_int a0))
                         (negb (unsigned_flag a0) && (val_int a0 <? 0))
                         z thd Rr) as C.
  destruct (unsigned_flag a0) eqn:U; cbn [andb negb] in *.
  - destruct (Z.ltb_spec (to_ull LLONG_MAX + 1) (to_ull (val_int a0))) as [L|L].
    + apply raise_outcome. unfold representable.
      destruct (this_unsigned_flag this); wrap_lia.
    + rewrite andb_false_r. cbv iota.
      destruct G as [G|[_ G]]; [|exfalso; wrap_lia].
      specialize (C _ G).
      destruct (Z.eqb_spec (val_int a0) LLONG_MIN) as [E|E]; cbn [andb];
        [|exact C].
      destruct (this_unsigned_flag this) eqn:F; cbn [negb]; cbv iota;
        [exact C|].
      apply ret_outcome; rewrite E;
        [vm_compute; split; discriminate|reflexivity].
  - cbv iota. destruct G as [G|[G _]]; [|discriminate].
    specialize (C _ G).
    destruct (Z.eqb_spec (val_int a0) LLONG_MIN) as [E|E]; cbn [andb];
      [|exact C].
    destruct (this_unsigned_flag this) eqn:F; cbn [negb]; cbv iota;
      [exact C|].
    apply raise_outcome. rewrite E.
    vm_compute. intros [_ H]. apply H. reflexivity.
Qed.

Lemma neg_int_op_exact_witness :
  Item_func_neg_int_op this0 (int_item INT_ITEM 5 false) thd0
  = ((-5, false), thd0)
  /\ raised ER_DATA_OUT_OF_RANGE thd0
       (snd (Item_func_neg_int_op this0 (int_item INT_ITEM LLONG_MIN false) thd0)).
Proof.
  split.
  - apply (proj2 (neg_int_op_exact this0 (int_item INT_ITEM 5 false) thd0
                    ltac:(in_range) eq_refl)).
    in_range.
  - apply (proj1 (neg_int_op_exact this0 (int_item INT_ITEM LLONG_MIN false) thd0
                    ltac:(in_range) eq_refl)).
    vm_compute. intros [_ H]. apply H. reflexivity.
Defined.

(** X7.  [Item_func_abs::int_op] on the node that
    [Item_func_abs::resolve_type] leaves for a non-null operand of the
    integer category: the node is Integer with the signedness of the
    operand; the error is raised for the signed operand [LLONG_MIN], and
    for every other operand the value returned, read with the signedness
    of the node, is the absolute value of the operand. *)
Theorem abs_int_op_spec :
  forall (this0 : Item_func) (a0 : Item) (thd0 thd : THD),
    result_type a0 = INT_RESULT -> not_geometry a0 ->
    is_longlong (val_int a0) -> null_value a0 = false ->
    let this := abs_resolved_node this0 a0 thd0 in
    let out := Item_func_abs_int_op this a0 thd in
    hybrid_type this = INT_RESULT
    /\ this_unsigned_flag this = unsigned_flag a0
    /\ (unsigned_flag a0 = false -> val_int a0 = LLONG_MIN ->
        fst out = (0, false) /\ raised ER_DATA_OUT_OF_RANGE thd (snd out))
    /\ (~ (unsigned_flag a0 = false /\ val_int a0 = LLONG_MIN) ->
        snd out = thd /\ snd (fst out) = false
        /\ is_longlong (fst (fst out))
        /\ pair_value (fst (fst out)) (this_unsigned_flag this)
           = Z.abs (int_value a0)).
Proof.
  intros this0 a0 thd0 thd T G R N this out.
  assert (H : hybrid_type this = INT_RESULT
              /\ this_unsigned_flag this = unsigned_flag a0).
  { subst this. unfold abs_resolved_node, Item_func_abs_resolve_type, bind.
    rewrite (reject_geometry_args_one a0 _ thd0 G). cbv iota beta.
    unfold Item_func_num1_find_num_type, Item_func_num1_fix_num_length_and_dec.
    simpl. rewrite T. simpl. split; reflexivity. }
  destruct H as [H U]. split; [exact H|]. split; [exact U|].
  subst out. unfold Item_func_abs_int_op. rewrite N, U. cbv iota zeta.
  unfold int_value, pair_value.
  destruct (unsigned_flag a0) eqn:F.
  - split; [discriminate|]. intros _. unfold ret. simpl.
    repeat split; try apply R. wrap_lia.
  - split.
    + intros _ E. rewrite E. cbn [Z.eqb LLONG_MIN Pos.eqb]. cbv iota.
      unfold bind, ret. cbv beta.
      pose proof (raise_integer_overflow_raised this thd) as [V Hr].
      destruct (raise_integer_overflow this thd) as [v t]. simpl in *.
      subst v. split; [reflexivity|exact Hr].
    + intros NE. destruct (Z.eqb_spec (val_int a0) LLONG_MIN) as [E|E];
        [exfalso; apply NE; split; [reflexivity|exact E]|].
      unfold ret. simpl.
      destruct (Z.leb_spec 0 (val_int a0)); repeat split; wrap_lia.
Qed.

Lemma abs_int_op_spec_witness :
  raised ER_DATA_OUT_OF_RANGE thd0
    (snd (Item_func_abs_int_op
            (abs_resolved_node this0 (int_item INT_ITEM LLONG_MIN false) thd0)
            (int_item INT_ITEM LLONG_MIN false) thd0))
  /\ pair_value
       (fst (fst (Item_func_abs_int_op
                    (abs_resolved_node this0 (int_item INT_ITEM (-5) false) thd0)
                    (int_item INT_ITEM (-5) false) thd0)))
       (this_unsigned_flag
          (abs_resolved_node this0 (int_item INT_ITEM (-5) false) thd0))
     = 5.
Proof.
  split.
  - apply (proj1 (proj2 (proj2 (abs_int_op_spec this0
                                  (int_item INT_ITEM LLONG_MIN false) thd0 thd0
                                  eq_refl I ltac:(in_range) eq_refl)))
             eq_refl eq_refl).
  - apply (proj2 (proj2 (proj2
             (proj2 (proj2 (proj2 (abs_int_op_spec this0
                                     (int_item INT_ITEM (-5) false) thd0 thd0
                                     eq_refl I ltac:(in_range) eq_refl)))
                ltac:(intros [_ H]; discriminate H))))).
Defined.

(** C10.  [Item_func_mod::int_op] on non-null operands and a divisor
    that is not zero divides unsigned magnitudes: [uval0] and [uval1]
    are the absolute values of the numbers the operands stand for, as
    64-bit unsigned numbers (2^63 for a signed [LLONG_MIN]), and the
    value handed to the final check is the unsigned remainder
    [uval0 % uval1], negated when the dividend is negative.  So
    [LLONG_MIN % -1] on signed operands, for which the signed [%] of
    C++ is undefined, divides 2^63 by 1: it is 0, with no error and no
    warning, whatever the node's [unsigned_flag]. *)
Theorem mod_int_min_by_minus_one :
  forall (this : Item_func) (a0 a1 : Item) (thd : THD),
    is_longlong (val_int a0) -> is_longlong (val_int a1) ->
    null_value a0 = false -> null_value a1 = false ->
    val_int a1 <> 0 ->
    let val0_negative := negb (unsigned_flag a0) && (val_int a0 <? 0) in
    let uval0 := fst (mod_magnitudes a0 a1) in
    let uval1 := snd (mod_magnitudes a0 a1) in
    let res := umod uval0 uval1 in
    uval0 = Z.abs (int_value a0) /\ uval1 = Z.abs (int_value a1)
    /\ is_ulonglong uval0 /\ 0 < uval1 <= ULLONG_MAX
    /\ res = Z.abs (int_value a0) mod Z.abs (int_value a1)
    /\ Item_func_mod_int_op this a0 a1 thd
       = (v <- check_integer_overflow this
                 (if val0_negative then to_ll (- to_ll res) else to_ll res)
                 (negb val0_negative) ;;
          ret (v, false)) thd
    /\ (unsigned_flag a0 = false -> val_int a0 = LLONG_MIN ->
        unsigned_flag a1 = false -> val_int a1 = -1 ->
        ll_rem (val_int a0) (val_int a1) = Undefined
        /\ uval0 = 2 ^ 63 /\ uval1 = 1 /\ res = 0
        /\ Item_func_mod_int_op this a0 a1 thd = ((0, false), thd)).
Proof.
  intros this a0 a1 thd R0 R1 N0 N1 NZ val0_negative uval0 uval1 res.
  destruct (div_magnitude_spec (val_int a0) (unsigned_flag a0) R0) as [MA _].
  destruct (div_magnitude_spec (val_int a1) (unsigned_flag a1) R1) as [MB _].
  change (pair_value (val_int a0) (unsigned_flag a0)) with (int_value a0) in MA.
  change (pair_value (val_int a1) (unsigned_flag a1)) with (int_value a1) in MB.
  assert (E0 : uval0 = Z.abs (int_value a0)) by exact MA.
  assert (E1 : uval1 = Z.abs (int_value a1)) by exact MB.
  assert (B0 : is_ulonglong uval0).
  { subst uval0. unfold mod_magnitudes. cbn [fst]. wrap_lia. }
  assert (B1 : 0 < uval1 <= ULLONG_MAX).
  { rewrite E1. unfold int_value. destruct (unsigned_flag a1); wrap_lia. }
  assert (ER : res = Z.abs (int_value a0) mod Z.abs (int_value a1)).
  { subst res. unfold umod. rewrite E0, E1. reflexivity. }
  assert (EO : Item_func_mod_int_op this a0 a1 thd
               = (v <- check_integer_overflow this
                         (if val0_negative then to_ll (- to_ll res)
                          else to_ll res)
                         (negb val0_negative) ;;
                  ret (v, false)) thd).
  { unfold Item_func_mod_int_op. rewrite N0, N1. cbn [orb]. cbv iota zeta.
    destruct (Z.eqb_spec (val_int a1) 0) as [Z|_]; [contradiction|].
    subst res uval0 uval1. destruct (mod_magnitudes a0 a1). reflexivity. }
  repeat (split; [assumption|]).
  intros U0 V0 U1 V1.
  assert (X0 : uval0 = 2 ^ 63).
  { rewrite E0. unfold int_value. rewrite U0, V0. reflexivity. }
  assert (X1 : uval1 = 1).
  { rewrite E1. unfold int_value. rewrite U1, V1. reflexivity. }
  assert (XR : res = 0) by (subst res; rewrite X0, X1; reflexivity).
  split; [rewrite V0, V1; reflexivity|].
  repeat (split; [assumption|]).
  rewrite EO, XR. subst val0_negative. rewrite U0, V0.
  unfold check_integer_overflow, bind, ret.
  destruct (this_unsigned_flag this); reflexivity.
Qed.

Lemma mod_int_min_by_minus_one_witness :
  Item_func_mod_int_op this0 (int_item INT_ITEM LLONG_MIN false)
    (int_item INT_ITEM (-1) false) thd0 = ((0, false), thd0)
  /\ mod_magnitudes (int_item INT_ITEM LLONG_MIN false)
       (int_item INT_ITEM (-1) false) = (2 ^ 63, 1)
  /\ mod_magnitudes (int_item INT_ITEM (-7) false) (int_item INT_ITEM 3 true)
     = (7, 3).
Proof.
  pose proof (mod_int_min_by_minus_one this0 (int_item INT_ITEM LLONG_MIN false)
                (int_item INT_ITEM (-1) false) thd0
                ltac:(vm_compute; split; discriminate)
                ltac:(vm_compute; split; discriminate)
                eq_refl eq_refl ltac:(discriminate)) as (_ & _ & _ & _ & _ & _ & H).
  destruct (H eq_refl eq_refl eq_refl eq_refl) as (_ & X0 & X1 & _ & E).
  split; [exact E|]. split.
  - rewrite (surjective_pairing (mod_magnitudes _ _)). rewrite X0, X1.
    reflexivity.
  - pose proof (mod_int_min_by_minus_one this0 (int_item INT_ITEM (-7) false)
                  (int_item INT_ITEM 3 true) thd0
                  ltac:(vm_compute; split; discriminate)
                  ltac:(vm_compute; split; discriminate)
                  eq_refl eq_refl ltac:(discriminate)) as (Y0 & Y1 & _).
    rewrite (surjective_pairing (mod_magnitudes _ _)). rewrite Y0, Y1.
    reflexivity.
Defined.

(** X8.  [Item_func_mod::int_op] on the node that
    [Item_func_mod::resolve_type] leaves, for two non-null 64-bit
    operands, each signed or unsigned, and a divisor that is not zero: no
    error is ever raised, and the value returned is the remainder of the
    truncating division of the numbers the operands stand for.  It has
    the sign of the dividend, is smaller in magnitude than the divisor,
    and is a number the node can return. *)
Theorem mod_int_op_remainder :
  forall (this0 : Item_func) (a0 a1 : Item) (thd0 thd : THD),
    resolution_succeeds OP_MOD this0 a0 a1 thd0 ->
    is_longlong (val_int a0) -> is_longlong (val_int a1) ->
    null_value a0 = false -> null_value a1 = false ->
    val_int a1 <> 0 ->
    let this := resolved_node OP_MOD this0 a0 a1 thd0 in
    let r := Z.rem (int_value a0) (int_value a1) in
    Item_func_mod_int_op this a0 a1 thd = ((to_ll r, false), thd)
    /\ representable (this_unsigned_flag this) r
    /\ pair_value (to_ll r) (this_unsigned_flag this) = r
    /\ Z.abs r < Z.abs (int_value a1)
    /\ (0 <= int_value a0 -> 0 <= r) /\ (int_value a0 <= 0 -> r <= 0).
Proof.
  intros this0 a0 a1 thd0 thd S R0 R1 N0 N1 V1 this r.
  assert (U : this_unsigned_flag this = unsigned_flag a0).
  { subst this. unfold resolved_node, resolution_succeeds in *.
    unfold resolve_type, Item_func_mod_resolve_type, bind in *.
    destruct (Item_num_op_resolve_type OP_MOD 0 this0 a0 a1 thd0) as [[e t] th].
    simpl in *. destruct e; [discriminate|]. reflexivity. }
  assert (NZ : int_value a1 <> 0).
  { unfold int_value. destruct (unsigned_flag a1); wrap_lia. }
  destruct (div_magnitude_spec (val_int a0) (unsigned_flag a0) R0) as [MA SA].
  destruct (div_magnitude_spec (val_int a1) (unsigned_flag a1) R1) as [MB _].
  change (pair_value (val_int a0) (unsigned_flag a0))
    with (int_value a0) in MA, SA.
  change (pair_value (val_int a1) (unsigned_flag a1))
    with (int_value a1) in MB.
  assert (X0 : representable (unsigned_flag a0) (int_value a0)).
  { unfold representable, int_value. destruct (unsigned_flag a0); wrap_lia. }
  assert (E : r = Z.sgn (int_value a0)
                  * (Z.abs (int_value a0) mod Z.abs (int_value a1))).
  { subst r. apply Z.rem_mod. exact NZ. }
  pose proof (Z.mod_pos_bound (Z.abs (int_value a0)) (Z.abs (int_value a1))
                ltac:(lia)) as Bm.
  assert (Lm : Z.abs (int_value a0) mod Z.abs (int_value a1)
               <= Z.abs (int_value a0)) by (apply Z.mod_le; lia).
  unfold Item_func_mod_int_op, mod_magnitudes. rewrite N0, N1.
  cbn [orb]. cbv iota zeta.
  destruct (Z.eqb_spec (val_int a1) 0) as [|_]; [contradiction|].
  rewrite MA, MB, SA. unfold umod.
  set (m := Z.abs (int_value a0) mod Z.abs (int_value a1)) in *.
  clearbody m r. rewrite U in *.
  set (x := int_value a0) in *. clearbody x.
  set (v := if x <? 0 then to_ll (- to_ll m) else to_ll m).
  assert (Rv : is_longlong v) by (subst v; destruct (x <? 0); wrap_lia).
  assert (PV : pair_value v (negb (x <? 0)) = r).
  { subst v. unfold pair_value, representable in *.
    destruct (unsigned_flag a0); destruct (Z.ltb_spec x 0); cbn [negb];
      wrap_lia. }
  assert (Rp : representable (unsigned_flag a0) r).
  { unfold representable in *. destruct (unsigned_flag a0); bounds; nia. }
  destruct (check_integer_overflow_spec this v (negb (x <? 0)) thd Rv)
    as [Ok _].
  rewrite PV, U in Ok. unfold bind, ret. rewrite (Ok Rp).
  assert (Tv : to_ll r = v).
  { rewrite <- PV. unfold pair_value.
    destruct (negb (x <? 0)); [rewrite to_ll_to_ull|]; apply to_ll_id; exact Rv. }
  repeat split; try (f_equal; f_equal; symmetry; exact Tv); try exact Rp;
    try nia.
  all: unfold pair_value, representable in *.
  all: destruct (unsigned_flag a0); try wrap_lia.
Qed.

Lemma mod_int_op_remainder_witness :
  Item_func_mod_int_op
    (resolved_node OP_MOD this0 (int_item INT_ITEM (-7) false)
       (int_item INT_ITEM 3 true) thd0)
    (int_item INT_ITEM (-7) false) (int_item INT_ITEM 3 true) thd0
  = ((-1, false), thd0).
Proof.
  exact (proj1 (mod_int_op_remainder this0 (int_item INT_ITEM (-7) false)
                  (int_item INT_ITEM 3 true) thd0 thd0 eq_refl
                  ltac:(in_range) ltac:(in_range) eq_refl eq_refl
                  ltac:(discriminate))).
Defined.

(** ** Bit operations *)

Lemma to_ull_testbit (a i : Z) :
  Z.testbit (to_ull a) i = (i <? 64) && Z.testbit a i.
Proof. unfold to_ull. apply Z.testbit_mod_pow2. lia. Qed.

Lemma to_ll_congr (a b : Z) : to_ull a = to_ull b -> to_ll a = to_ll b.
Proof. intros H. rewrite <- (to_ll_to_ull a), <- (to_ll_to_ull b), H. reflexivity. Qed.

Lemma to_ull_idem (a : Z) : to_ull (to_ull a) = to_ull a.
Proof. apply to_ull_id. wrap_lia. Qed.

Ltac bitwise :=
  apply Z.bits_inj'; intros i Hi;
  repeat first [ rewrite to_ull_testbit | rewrite Z.lnot_spec by exact Hi
               | rewrite Z.land_spec | rewrite Z.lor_spec | rewrite Z.lxor_spec ];
  destruct (i <? 64); cbn [andb]; try reflexivity.

(** X9.  The integer bit operators on non-null operands obey the laws of
    64-bit words: the complement of a conjunction is the disjunction of
    the complements and conversely, the complement of a complement and
    the exclusive-or taken twice with the same operand give back the 64
    bits of the operand. *)
Theorem bit_ops_de_morgan :
  forall (this : Item_func) (a0 a1 : Item),
    null_value a0 = false -> null_value a1 = false ->
    let neg r := Item_func_bit_neg_int_op (bits_operand r) in
    let n0 := Item_func_bit_neg_int_op a0 in
    let n1 := Item_func_bit_neg_int_op a1 in
    neg (Item_func_bit_and_int_op this a0 a1)
    = Item_func_bit_or_int_op this (bits_operand n0) (bits_operand n1)
    /\ neg (Item_func_bit_or_int_op this a0 a1)
       = Item_func_bit_and_int_op this (bits_operand n0) (bits_operand n1)
    /\ neg n0 = (to_ll (val_int a0), false)
    /\ Item_func_bit_xor_int_op this
         (bits_operand (Item_func_bit_xor_int_op this a0 a1)) a1
       = (to_ll (val_int a0), false).
Proof.
  intros this a0 a1 N0 N1 neg n0 n1. subst neg n0 n1.
  unfold Item_func_bit_and_int_op, Item_func_bit_or_int_op,
    Item_func_bit_xor_int_op, Item_func_bit_two_param_eval_int_op,
    Item_func_bit_neg_int_op, val_uint.
  rewrite N0, N1. cbn [bits_operand val_int null_value fst snd].
  rewrite !to_ull_to_ll, !to_ull_idem.
  repeat split; f_equal; apply to_ll_congr.
  - bitwise. destruct (Z.testbit (val_int a0) i), (Z.testbit (val_int a1) i);
      reflexivity.
  - bitwise. destruct (Z.testbit (val_int a0) i), (Z.testbit (val_int a1) i);
      reflexivity.
  - bitwise. apply negb_involutive.
  - bitwise. destruct (Z.testbit (val_int a0) i), (Z.testbit (val_int a1) i);
      reflexivity.
Qed.

Lemma bit_ops_de_morgan_witness :
  Item_func_bit_neg_int_op
    (bits_operand (Item_func_bit_and_int_op this0 (int_item INT_ITEM 12 false)
                     (int_item INT_ITEM 10 false)))
  = Item_func_bit_or_int_op this0
      (bits_operand (Item_func_bit_neg_int_op (int_item INT_ITEM 12 false)))
      (bits_operand (Item_func_bit_neg_int_op (int_item INT_ITEM 10 false))).
Proof.
  exact (proj1 (bit_ops_de_morgan this0 (int_item INT_ITEM 12 false)
                  (int_item INT_ITEM 10 false) eq_refl eq_refl)).
Defined.

Lemma shift_left_right (x c : Z) :
  0 <= x < 2 ^ 64 -> 0 <= c < 64 ->
  (x * 2 ^ c) mod 2 ^ 64 / 2 ^ c = x mod 2 ^ (64 - c).
Proof.
  intros Hx Hc.
  replace (2 ^ 64) with (2 ^ (64 - c) * 2 ^ c)
    by (rewrite <- Z.pow_add_r by lia; f_equal; lia).
  assert (0 < 2 ^ c) by (apply Z.pow_pos_nonneg; lia).
  assert (0 < 2 ^ (64 - c)) by (apply Z.pow_pos_nonneg; lia).
  rewrite Z.mul_mod_distr_r by lia. apply Z.div_mul. lia.
Qed.

(** X10.  [Item_func_shift::eval_int_op] on non-null operands.  The count
    is what is left of the second operand in 32 bits.  A count of 64 or
    more gives 0.  A smaller count [c] shifts the 64 bits of the first
    operand: shifting left then right by [c] keeps its low [64 - c]
    bits, shifting right then left clears its low [c] bits. *)
Theorem shift_int_op_spec :
  forall (this : Item_func) (a0 a1 : Item),
    null_value a0 = false -> null_value a1 = false ->
    let c := to_uint (val_int a1) in
    let x := to_ull (val_int a0) in
    let left := Item_func_shift_eval_int_op true this in
    let right := Item_func_shift_eval_int_op false this in
    (64 <= c -> left a0 a1 = (0, false) /\ right a0 a1 = (0, false))
    /\ (c < 64 ->
        left a0 a1 = (to_ll (x * 2 ^ c), false)
        /\ right a0 a1 = (to_ll (x / 2 ^ c), false)
        /\ right (bits_operand (left a0 a1)) a1 = (to_ll (x mod 2 ^ (64 - c)), false)
        /\ left (bits_operand (right a0 a1)) a1 = (to_ll (x - x mod 2 ^ c), false)).
Proof.
  intros this a0 a1 N0 N1 c x left right. subst left right.
  unfold Item_func_shift_eval_int_op. rewrite N0, N1. cbv iota zeta.
  fold c. fold x.
  assert (Hc : 0 <= c < 2 ^ 32) by (subst c; unfold to_uint; apply Z.mod_pos_bound; lia).
  assert (Hx : 0 <= x < 2 ^ 64) by (subst x; wrap_lia).
  clearbody c x. split.
  - intros L. destruct (Z.ltb_spec c 64); [lia|]. split; reflexivity.
  - intros L. destruct (Z.ltb_spec c 64); [|lia].
    cbn [bits_operand val_int null_value fst snd]. cbv iota.
    rewrite !Z.shiftl_mul_pow2, !Z.shiftr_div_pow2 by lia.
    rewrite !to_ull_to_ll.
    assert (P : 0 < 2 ^ c) by (apply Z.pow_pos_nonneg; lia).
    assert (Q : 0 <= x / 2 ^ c <= x).
    { split; [apply Z.div_pos; lia|]. apply Z.div_le_upper_bound; nia. }
    repeat split; f_equal.
    + apply to_ll_to_ull.
    + f_equal. unfold to_ull at 1. unfold to_ull at 1.
      rewrite Z.mod_mod by lia. apply shift_left_right; lia.
    + rewrite to_ll_to_ull. f_equal.
      rewrite (to_ull_id (x / 2 ^ c)) by (bounds; lia).
      pose proof (Z.div_mod x (2 ^ c) ltac:(lia)). lia.
Qed.

Lemma shift_int_op_spec_witness :
  Item_func_shift_eval_int_op true this0 (int_item INT_ITEM 1 false)
    (int_item INT_ITEM 4294967296 false) = (1, false)
  /\ Item_func_shift_eval_int_op true this0 (int_item INT_ITEM 1 false)
       (int_item INT_ITEM 64 false) = (0, false).
Proof.
  split.
  - apply (proj1 (proj2 (shift_int_op_spec this0 (int_item INT_ITEM 1 false)
                           (int_item INT_ITEM 4294967296 false)
                           eq_refl eq_refl)
                    ltac:(vm_compute; reflexivity))).
  - apply (proj1 (proj1 (shift_int_op_spec this0 (int_item INT_ITEM 1 false)
                           (int_item INT_ITEM 64 false) eq_refl eq_refl)
                    ltac:(vm_compute; discriminate))).
Defined.

(** ** Rounding: digit counts and resolution *)

(** X11.  [my_double_round] with a digit count beyond the powers of ten a
    double holds.  Rounding to 309 or more digits left of the point gives
    +0.0 for every double, and rounding to 309 or more fractional digits
    (which every unsigned count with the top bit set is) returns the
    value unchanged, for every double, infinities and NaN included. *)
Theorem my_double_round_extreme_digits :
  forall (value : double) (dec : Z) (dec_unsigned truncate : bool),
    is_longlong dec ->
    (dec_unsigned = false -> dec <= -309 ->
     my_double_round value dec dec_unsigned truncate = d_zero)
    /\ (309 <= pair_value dec dec_unsigned ->
        my_double_round value dec dec_unsigned truncate = value).
Proof.
  intros value dec u truncate R. unfold my_double_round, log_10_elements. split.
  - intros -> L. destruct (Z.ltb_spec dec 0); [|exfalso; lia]. cbn [andb negb].
    assert (A : 309 <= to_ull (- dec)) by wrap_lia.
    destruct (Z.ltb_spec (to_ull (- dec)) 309); [exfalso; lia|].
    unfold pow_10. destruct (Z.ltb_spec (to_ull (- dec)) 309); [exfalso; lia|].
    reflexivity.
  - intros L. unfold pair_value in L.
    assert (N : (dec <? 0) && negb u = false).
    { destruct u; [apply andb_false_r|].
      destruct (Z.ltb_spec dec 0); [exfalso; lia|reflexivity]. }
    rewrite N. cbn [andb negb].
    assert (A : 309 <= to_ull dec).
    { destruct u; [exact L|]. wrap_lia. }
    destruct (Z.ltb_spec (to_ull dec) 309); [exfalso; lia|].
    unfold pow_10. destruct (Z.ltb_spec (to_ull dec) 309); [exfalso; lia|].
    destruct value as [s| s | | s m e]; reflexivity.
Qed.

Lemma my_double_round_extreme_digits_witness :
  my_double_round (d_ratio 5 2) (-400) false false = d_zero
  /\ my_double_round (d_ratio 5 2) 400 false false = d_ratio 5 2.
Proof.
  split.
  - apply (proj1 (my_double_round_extreme_digits (d_ratio 5 2) (-400) false false
                    ltac:(in_range)) eq_refl ltac:(vm_compute; discriminate)).
  - apply (proj2 (my_double_round_extreme_digits (d_ratio 5 2) 400 false false
                    ltac:(in_range)) ltac:(vm_compute; discriminate)).
Defined.

Lemma round_decimals_to_set_spec (val1 : Z) (u : bool) :
  is_longlong val1 ->
  round_decimals_to_set val1 u = clamp_digits val1 u INT_MAX.
Proof.
  intros R. unfold round_decimals_to_set, clamp_digits, pair_value.
  destruct u; destruct (Z.ltb_spec val1 0); try destruct (Z.ltb_spec INT_MAX val1);
    wrap_lia.
Qed.

Lemma reject_geometry_args_two (a0 a1 : Item) (name : string) (thd : THD) :
  not_geometry a0 -> not_geometry a1 ->
  reject_geometry_args [a0; a1] name thd = (false, thd).
Proof.
  unfold not_geometry, reject_geometry_args. intros G0 G1.
  destruct (field_type a0); try contradiction;
    destruct (field_type a1); try contradiction;
    rewrite ?andb_false_r; reflexivity.
Qed.

(** X12.  [Item_func_round::resolve_type] with a constant, non-null
    second operand, whatever [DECIMAL_LONGLONG_DIGITS] is.  The number of
    decimals of the node is the count the operand stands for, read with
    its signedness and limited to the range from 0 to [NOT_FIXED_DEC] in
    the Real category and from 0 to [DECIMAL_MAX_SCALE] in the Decimal
    category; a node that stays Integer has no decimals.  The first
    operand decides the category: Real for a Real or String operand or
    one with [NOT_FIXED_DEC] decimals, Decimal for a Decimal operand,
    Integer or Decimal for an Integer operand. *)
Theorem round_resolve_type_scale :
  forall (DECIMAL_LONGLONG_DIGITS : Z) (truncate : bool) (this0 : Item_func)
         (a0 a1 : Item) (thd : THD),
    not_geometry a0 -> not_geometry a1 ->
    const_item a1 = true -> null_value a1 = false ->
    is_longlong (val_int a1) ->
    let out := Item_func_round_resolve_type DECIMAL_LONGLONG_DIGITS truncate
                 this0 a0 a1 thd in
    let this := snd (fst out) in
    let digits := clamp_digits (val_int a1) (unsigned_flag a1) in
    fst (fst out) = false /\ snd out = thd
    /\ (decimals a0 = NOT_FIXED_DEC \/ result_type a0 = REAL_RESULT
        \/ result_type a0 = STRING_RESULT ->
        hybrid_type this = REAL_RESULT
        /\ this_decimals this = digits NOT_FIXED_DEC
        /\ this_max_length this = float_length (digits NOT_FIXED_DEC))
    /\ (decimals a0 <> NOT_FIXED_DEC -> result_type a0 = DECIMAL_RESULT ->
        hybrid_type this = DECIMAL_RESULT
        /\ this_decimals this = digits DECIMAL_MAX_SCALE)
    /\ (decimals a0 <> NOT_FIXED_DEC -> result_type a0 = INT_RESULT ->
        (hybrid_type this = INT_RESULT /\ this_decimals this = 0)
        \/ (hybrid_type this = DECIMAL_RESULT
            /\ this_decimals this = digits DECIMAL_MAX_SCALE
            /\ DECIMAL_LONGLONG_DIGITS <= decimal_precision a0)).
Proof.
  intros DLD truncate this0 a0 a1 thd G0 G1 C N R out this digits.
  subst this out digits. unfold Item_func_round_resolve_type, bind, ret.
  rewrite (reject_geometry_args_two a0 a1 _ thd G0 G1). cbv beta iota.
  rewrite C, N. cbn [negb]. cbv iota zeta.
  rewrite (round_decimals_to_set_spec _ _ R).
  assert (E31 : Z.min (clamp_digits (val_int a1) (unsigned_flag a1) INT_MAX)
                  NOT_FIXED_DEC
                = clamp_digits (val_int a1) (unsigned_flag a1) NOT_FIXED_DEC).
  { unfold clamp_digits, NOT_FIXED_DEC, INT_MAX. lia. }
  assert (E30 : Z.min (Z.min DECIMAL_MAX_SCALE
                         (clamp_digits (val_int a1) (unsigned_flag a1) INT_MAX))
                  DECIMAL_MAX_SCALE
                = clamp_digits (val_int a1) (unsigned_flag a1) DECIMAL_MAX_SCALE).
  { unfold clamp_digits, DECIMAL_MAX_SCALE, INT_MAX. lia. }
  destruct (Z.eqb_spec (decimals a0) NOT_FIXED_DEC) as [D|D].
  - cbn [fst snd hybrid_type this_decimals this_max_length set_hybrid_type
           set_max_length set_decimals set_unsigned_flag].
    rewrite E31. repeat split; intros; try contradiction; reflexivity.
  - destruct (result_type a0) eqn:T.
    3: destruct (((clamp_digits (val_int a1) (unsigned_flag a1) INT_MAX =? 0)
                  && truncate) || (decimal_precision a0 <? DLD)) eqn:K.
    all: cbn [fst snd hybrid_type this_decimals this_max_length set_hybrid_type
                set_max_length set_decimals set_unsigned_flag];
      rewrite ?E31, ?E30.
    all: split; [reflexivity|]; split; [reflexivity|].
    all: split; [intros [?|[?|?]]; try contradiction; try discriminate;
                 repeat split; reflexivity|].
    all: split; [intros _ ?; try discriminate; split; reflexivity|].
    all: intros _ ?; try discriminate.
    + left. split; reflexivity.
    + right. apply orb_false_iff in K. destruct K as [_ K].
      apply Z.ltb_ge in K. repeat split; auto.
Qed.

Lemma round_resolve_type_scale_witness :
  this_decimals
    (snd (fst (Item_func_round_resolve_type 22 false this0 (decimal_field 10 4)
                 (int_item INT_ITEM (-1) true) thd0))) = 30
  /\ this_decimals
       (snd (fst (Item_func_round_resolve_type 22 false this0 (decimal_field 10 4)
                    (int_item INT_ITEM (-1) false) thd0))) = 0.
Proof.
  split.
  - apply (proj2 (proj1 (proj2 (proj2 (proj2 (round_resolve_type_scale 22 false
             this0 (decimal_field 10 4) (int_item INT_ITEM (-1) true) thd0
             I I eq_refl eq_refl ltac:(in_range)))))
             ltac:(discriminate) eq_refl)).
  - apply (proj2 (proj1 (proj2 (proj2 (proj2 (round_resolve_type_scale 22 false
             this0 (decimal_field 10 4) (int_item INT_ITEM (-1) false) thd0
             I I eq_refl eq_refl ltac:(in_range)))))
             ltac:(discriminate) eq_refl)).
Defined.

Lemma pow10_even (n : Z) : 1 <= n -> exists h, 10 ^ n = 2 * h /\ 5 <= h.
Proof.
  intros H. exists (5 * 10 ^ (n - 1)).
  replace n with (1 + (n - 1)) at 1 by lia.
  rewrite Z.pow_add_r by lia. change (10 ^ 1) with 10.
  assert (0 < 10 ^ (n - 1)) by (apply Z.pow_pos_nonneg; lia). lia.
Qed.

Lemma half_away_round_opp (x k : Z) :
  half_away_round (- x) k = - half_away_round x k.
Proof.
  unfold half_away_round. rewrite Z.abs_opp, Z.sgn_opp. lia.
Qed.

Lemma half_away_round_near (x k h : Z) :
  k = 2 * h -> 1 <= h -> 2 * Z.abs (half_away_round x k - x) <= k.
Proof.
  intros -> H. unfold half_away_round.
  replace (2 * h / 2) with h by (symmetry; rewrite Z.mul_comm; apply Z.div_mul; lia).
  pose proof (Z.div_mod (Z.abs x) (2 * h) ltac:(lia)) as E.
  pose proof (Z.mod_pos_bound (Z.abs x) (2 * h) ltac:(lia)) as B.
  set (q := Z.abs x / (2 * h)) in *. set (m := Z.abs x mod (2 * h)) in *.
  clearbody q m.
  destruct (Z.ltb_spec m h); destruct (Z.sgn_spec x) as [[? S]|[[? S]|[? S]]];
    rewrite S; lia.
Qed.

Lemma pow10_range (n : Z) :
  1 <= n <= 18 ->
  10 <= 10 ^ n <= 10 ^ 18 /\ to_ll (10 ^ n) = 10 ^ n
  /\ to_ull (to_ll (10 ^ n)) = 10 ^ n.
Proof.
  intros H.
  assert (B : 10 <= 10 ^ n <= 10 ^ 18).
  { split; [change 10 with (10 ^ 1) at 1|]; apply Z.pow_le_mono_r; lia. }
  change (10 ^ 18) with 1000000000000000000 in *.
  split; [exact B|]. split; [|rewrite to_ull_to_ll]; wrap_lia.
Qed.

(** X13.  The value of [Item_func_round::int_op] for non-null operands
    and a signed count [-n].  A count that is not negative returns the
    operand, and 20 or more digits give 0.  For [n] from 1 to 18,
    TRUNCATE returns the multiple of [10 ^ n] next to the operand toward
    zero, and ROUND, when the rounded number is one the node can return,
    returns the operand rounded to a multiple of [10 ^ n] half away from
    zero, which is at most [10 ^ n / 2] away from the operand. *)
Theorem round_int_op_value_spec :
  forall (this : Item_func) (truncate : bool) (a0 a1 : Item) (thd : THD),
    null_value a0 = false -> null_value a1 = false ->
    unsigned_flag a1 = false ->
    is_longlong (val_int a0) -> is_longlong (val_int a1) ->
    let u := this_unsigned_flag this in
    let x := pair_value (val_int a0) u in
    let n := - val_int a1 in
    let out := Item_func_round_int_op this truncate a0 a1 thd in
    let r := pair_value (fst (fst out)) u in
    snd out = thd /\ snd (fst out) = false
    /\ (n <= 0 -> fst (fst out) = val_int a0)
    /\ (20 <= n -> fst (fst out) = 0)
    /\ (1 <= n <= 18 -> truncate = true -> r = Z.quot x (10 ^ n) * 10 ^ n)
    /\ (1 <= n <= 18 -> truncate = false ->
        representable u (half_away_round x (10 ^ n)) ->
        r = half_away_round x (10 ^ n) /\ 2 * Z.abs (r - x) <= 10 ^ n).
Proof.
  intros this truncate a0 a1 thd N0 N1 U1 R0 R1 u x n out r.
  subst r out. rewrite (Item_func_round_int_op_value this truncate a0 a1 thd N0 N1).
  cbn [fst snd]. split; [reflexivity|]. split; [reflexivity|].
  unfold round_int_value. rewrite U1, orb_false_r. fold u.
  change (- val_int a1) with n.
  assert (Hn : n <= 0 \/ (1 <= n /\ to_ull n = n)) by (subst n; wrap_lia).
  unfold log_10_int_elements, log_10_int.
  split; [|split; [|split]].
  - intros L. destruct (Z.leb_spec 0 (val_int a1)); [reflexivity|exfalso; lia].
  - intros L. destruct (Z.leb_spec 0 (val_int a1)); [exfalso; lia|].
    destruct Hn as [?|[_ ->]]; [exfalso; lia|].
    destruct (Z.leb_spec 20 n); [reflexivity|exfalso; lia].
  - intros L ->. destruct (Z.leb_spec 0 (val_int a1)); [exfalso; lia|].
    destruct Hn as [?|[_ ->]]; [exfalso; lia|].
    destruct (Z.leb_spec 20 n); [exfalso; lia|].
    destruct (pow10_range n L) as (B & T & T'). rewrite T', T.
    subst x. unfold pair_value, udiv, sdiv. destruct u.
    + rewrite Z.quot_div_nonneg by wrap_lia.
      assert (0 <= to_ull (val_int a0) / 10 ^ n * 10 ^ n <= to_ull (val_int a0)).
      { pose proof (Z.div_mod (to_ull (val_int a0)) (10 ^ n) ltac:(lia)).
        pose proof (Z.mod_pos_bound (to_ull (val_int a0)) (10 ^ n) ltac:(lia)).
        assert (0 <= to_ull (val_int a0) / 10 ^ n) by (apply Z.div_pos; wrap_lia).
        nia. }
      rewrite to_ull_to_ll. apply to_ull_id. wrap_lia.
    + destruct (sdiv_mul_between (val_int a0) (10 ^ n) ltac:(lia)) as [P Q].
      unfold sdiv in P, Q. apply to_ll_id.
      destruct (Z.le_ge_cases 0 (val_int a0)); bounds; lia.
  - intros L -> Rp. destruct (Z.leb_spec 0 (val_int a1)); [exfalso; lia|].
    destruct Hn as [?|[_ ->]]; [exfalso; lia|].
    destruct (Z.leb_spec 20 n); [exfalso; lia|].
    destruct (pow10_range n L) as (B & T & T'). rewrite T'.
    destruct (pow10_even n ltac:(lia)) as (h & Eh & Hh).
    assert (E : pair_value
                  (if u || (0 <=? val_int a0)
                   then to_ll (my_unsigned_round (to_ull (val_int a0)) (10 ^ n))
                   else to_ll (- to_ll (my_unsigned_round
                                          (to_ull (- val_int a0)) (10 ^ n)))) u
                = half_away_round x (10 ^ n)).
    { subst x. unfold pair_value in *. unfold representable in Rp. destruct u.
      - cbn [orb].
        destruct (my_unsigned_round_exact (to_ull (val_int a0)) (10 ^ n))
          as [-> _]; [wrap_lia|lia|bounds; lia|].
        rewrite to_ull_to_ll. apply to_ull_id. bounds.
        split; [|lia]. destruct Rp. assumption.
      - cbn [orb]. destruct (Z.leb_spec 0 (val_int a0)).
        + rewrite (to_ull_id (val_int a0)) by (bounds; lia).
          destruct (my_unsigned_round_exact (val_int a0) (10 ^ n))
            as [-> _]; [lia|lia|bounds; lia|].
          apply to_ll_id. exact Rp.
        + assert (to_ull (- val_int a0) = - val_int a0) as -> by wrap_lia.
          pose proof (half_away_round_opp (val_int a0) (10 ^ n)) as O.
          destruct (my_unsigned_round_exact (- val_int a0) (10 ^ n))
            as [-> _]; [lia|lia|bounds; lia|].
          rewrite O. set (HR := half_away_round (val_int a0) (10 ^ n)) in *.
          clearbody HR. wrap_lia. }
    rewrite E. split; [reflexivity|].
    exact (half_away_round_near x (10 ^ n) h Eh ltac:(lia)).
Qed.

Lemma round_int_op_value_spec_witness :
  pair_value
    (fst (fst (Item_func_round_int_op this0 false (int_item INT_ITEM (-1250) false)
                 (int_item INT_ITEM (-2) false) thd0))) false
  = -1300
  /\ pair_value
       (fst (fst (Item_func_round_int_op this0 true
                    (int_item INT_ITEM (-1299) false)
                    (int_item INT_ITEM (-2) false) thd0))) false
     = -1200.
Proof.
  split.
  - apply (proj1 (proj2 (proj2 (proj2 (proj2 (proj2 (round_int_op_value_spec
             this0 false (int_item INT_ITEM (-1250) false)
             (int_item INT_ITEM (-2) false) thd0 eq_refl eq_refl eq_refl
             ltac:(in_range) ltac:(in_range))))))
             ltac:(vm_compute; split; discriminate) eq_refl ltac:(in_range))).
  - apply (proj1 (proj2 (proj2 (proj2 (proj2 (round_int_op_value_spec
             this0 true (int_item INT_ITEM (-1299) false)
             (int_item INT_ITEM (-2) false) thd0 eq_refl eq_refl eq_refl
             ltac:(in_range) ltac:(in_range))))))
             ltac:(vm_compute; split; discriminate) eq_refl).
Defined.

(** ** Resolution helpers *)

(** X14.  [reject_geometry_args] returns the error exactly when one of
    the arguments is a geometry that is not a row.  It then adds one
    error [ER_WRONG_ARGUMENTS] naming the function to the diagnostics,
    whatever the number of such arguments; otherwise it leaves the
    diagnostics as they are.  The mode of the session is never
    changed. *)
Theorem reject_geometry_args_spec :
  forall (args : list Item) (func_name : string) (thd : THD),
    let out := reject_geometry_args args func_name thd in
    fst out = existsb is_geometry args
    /\ sql_mode (snd out) = sql_mode thd
    /\ conditions (snd out)
       = conditions thd
         ++ (if existsb is_geometry args
             then [mk_condition SL_ERROR ER_WRONG_ARGUMENTS func_name]
             else []).
Proof.
  intros args name thd. cbv zeta.
  induction args as [|a rest IH].
  - cbn. rewrite app_nil_r. repeat split.
  - cbn [reject_geometry_args existsb]. fold (is_geometry a).
    destruct (is_geometry a); cbn [orb].
    + repeat split.
    + exact IH.
Qed.

Lemma max_over_Permutation (f : Item -> Z) (l l' : list Item) :
  Permutation l l' -> max_over f l = max_over f l'.
Proof.
  unfold max_over. induction 1; cbn; lia.
Qed.

Lemma max_over_nonneg (f : Item -> Z) (l : list Item) : 0 <= max_over f l.
Proof. unfold max_over. induction l; cbn; lia. Qed.

Lemma max_over_decimals_bound (l : list Item) :
  Forall real_length_operand l -> max_over decimals l <= NOT_FIXED_DEC.
Proof.
  unfold max_over. induction 1 as [|a r [Ha _] F IH]; cbn;
    unfold NOT_FIXED_DEC in *; lia.
Qed.

Lemma count_real_length_loop (args : list Item) (dec len maxl : Z) :
  Forall real_length_operand args ->
  0 <= dec <= NOT_FIXED_DEC -> 0 <= len -> 0 <= maxl ->
  let D := Z.max dec (max_over decimals args) in
  let '(dec', len', maxl') :=
    fold_left count_real_length_step args (dec, len, maxl) in
  dec' = D
  /\ maxl' = Z.max maxl (max_over max_length args)
  /\ (D <> NOT_FIXED_DEC ->
      len' = Z.max len
               (max_over (fun a => to_uint (max_length a - decimals a)) args)).
Proof.
  intros F. revert dec len maxl.
  induction F as [|a rest [Ha Hm] F IH]; intros dec len maxl Hd Hl Hx.
  - cbn. repeat split; lia.
  - cbn [fold_left]. unfold count_real_length_step at 2.
    unfold max_over in *. cbn [map fold_right].
    set (Dr := fold_right Z.max 0 (map decimals rest)) in *.
    set (Lr := fold_right Z.max 0
                 (map (fun a => to_uint (max_length a - decimals a)) rest)) in *.
    set (Mr := fold_right Z.max 0 (map max_length rest)) in *.
    assert (0 <= Dr) by (apply (max_over_nonneg decimals)).
    assert (0 <= to_uint (max_length a - decimals a)).
    { unfold to_uint. apply Z.mod_pos_bound. lia. }
    destruct (Z.eqb_spec dec NOT_FIXED_DEC) as [E|E].
    + specialize (IH dec len (Z.max maxl (max_length a)) Hd Hl ltac:(lia)).
      cbv zeta in IH.
      destruct (fold_left count_real_length_step rest
                  (dec, len, Z.max maxl (max_length a))) as [[d l] m].
      destruct IH as (I1 & I2 & I3).
      assert (Dr <= NOT_FIXED_DEC) by (apply max_over_decimals_bound; exact F).
      unfold NOT_FIXED_DEC in *.
      repeat split; try lia.
    + specialize (IH (Z.max dec (decimals a))
                     (Z.max len (to_uint (max_length a - decimals a)))
                     (Z.max maxl (max_length a)) ltac:(lia) ltac:(lia) ltac:(lia)).
      cbv zeta in IH.
      destruct (fold_left count_real_length_step rest
                  (Z.max dec (decimals a),
                   Z.max len (to_uint (max_length a - decimals a)),
                   Z.max maxl (max_length a))) as [[d l] m].
      destruct IH as (I1 & I2 & I3). unfold NOT_FIXED_DEC in *.
      repeat split; lia.
Qed.

(** X15.  [Item_func::count_real_length] over operands with at most
    [NOT_FIXED_DEC] decimals does not depend on the order of the
    operands.  The decimals of the node are the largest of the operands'
    decimals, and when one operand has [NOT_FIXED_DEC] decimals the node
    has too, with the largest [max_length] of the operands. *)
Theorem count_real_length_order :
  forall (this : Item_func) (args args' : list Item),
    Forall real_length_operand args -> Permutation args args' ->
    count_real_length this args = count_real_length this args'
    /\ this_decimals (count_real_length this args) = max_over decimals args
    /\ (Exists (fun a => decimals a = NOT_FIXED_DEC) args ->
        this_decimals (count_real_length this args) = NOT_FIXED_DEC
        /\ this_max_length (count_real_length this args)
           = max_over max_length args).
Proof.
  intros this args args' F P.
  assert (F' : Forall real_length_operand args').
  { rewrite Forall_forall in *. intros a Ha. apply F.
    apply (Permutation_in a (Permutation_sym P) Ha). }
  assert (N : forall l, Forall real_length_operand l ->
              count_real_length this l
              = let D := max_over decimals l in
                let L := max_over (fun a => to_uint (max_length a - decimals a)) l in
                set_max_length
                  (if D =? NOT_FIXED_DEC then max_over max_length l
                   else if to_uint (L + D) <? L then UINT_MAX32
                        else to_uint (L + D))
                  (set_decimals D this)).
  { intros l Fl. unfold count_real_length.
    pose proof (count_real_length_loop l 0 0 0 Fl
                  ltac:(unfold NOT_FIXED_DEC; lia) ltac:(lia) ltac:(lia)) as S.
    cbv zeta in S.
    pose proof (max_over_nonneg decimals l).
    pose proof (max_over_nonneg max_length l).
    pose proof (max_over_nonneg (fun a => to_uint (max_length a - decimals a)) l).
    destruct (fold_left count_real_length_step l (0, 0, 0)) as [[d ln] m].
    destruct S as (S1 & S2 & S3). cbv zeta.
    rewrite Z.max_r in S1, S2, S3 by lia. subst d m.
    destruct (Z.eqb_spec (max_over decimals l) NOT_FIXED_DEC) as [E|E];
      [reflexivity|].
    rewrite (S3 E), Z.max_r by lia. reflexivity. }
  rewrite (N args F), (N args' F'). cbv zeta.
  rewrite (max_over_Permutation decimals _ _ P),
    (max_over_Permutation max_length _ _ P),
    (max_over_Permutation (fun a => to_uint (max_length a - decimals a)) _ _ P).
  split; [reflexivity|]. split; [reflexivity|].
  intros Ex.
  assert (D : max_over decimals args' = NOT_FIXED_DEC).
  { rewrite <- (max_over_Permutation decimals _ _ P).
    clear - F Ex. unfold max_over.
    induction F as [|b r [Hb _] F IH]; [inversion Ex|].
    cbn. pose proof (max_over_nonneg decimals r) as Q. unfold max_over in Q.
    pose proof (max_over_decimals_bound r F) as Bd. unfold max_over in Bd.
    inversion Ex as [? ? Hx|? ? Hx]; subst; [lia|]. specialize (IH Hx). lia. }
  rewrite D. split; reflexivity.
Qed.

Lemma count_real_length_order_witness :
  count_real_length this0 [double_field 10 2; double_field 22 NOT_FIXED_DEC]
  = count_real_length this0 [double_field 22 NOT_FIXED_DEC; double_field 10 2]
  /\ this_decimals
       (count_real_length this0 [double_field 10 2; double_field 22 NOT_FIXED_DEC])
     = NOT_FIXED_DEC.
Proof.
  assert (F : Forall real_length_operand
                [double_field 10 2; double_field 22 NOT_FIXED_DEC]).
  { repeat constructor; vm_compute; discriminate. }
  split.
  - apply (proj1 (count_real_length_order this0 _ _ F (perm_swap _ _ []))).
  - apply (proj1 (proj2 (proj2 (count_real_length_order this0 _ _ F
                                  (perm_swap _ _ [])))
                    ltac:(right; left; reflexivity))).
Defined.

(** ** LEAST, GREATEST, FIELD and SIGN *)

Lemma min_max_int_loop_spec (cmp_sign : Z) (rest : list Item) :
  cmp_sign = 1 \/ cmp_sign = -1 ->
  Forall (fun a => null_value a = false) rest ->
  forall (value : Z) (u : bool),
    let '(v', u', n) := min_max_int_loop cmp_sign rest value u in
    n = false
    /\ ((v', u') = (value, u) \/ In (v', u') (map operand_pair rest))
    /\ cmp_order cmp_sign (pair_value v' u') (pair_value value u)
    /\ Forall (fun a => cmp_order cmp_sign (pair_value v' u') (int_value a)) rest.
Proof.
  intros S F. induction F as [|a rest Na F IH]; intros value u.
  - cbn. repeat split; auto. unfold cmp_order. destruct (0 <? cmp_sign); lia.
  - cbn [min_max_int_loop]. rewrite Na. cbv zeta. unfold Integer_value_lt.
    change (pair_value (val_int a) (unsigned_flag a)) with (int_value a).
    assert (O : (0 <? (if int_value a <? pair_value value u
                       then cmp_sign else - cmp_sign)) = true
                /\ cmp_order cmp_sign (int_value a) (pair_value value u)
                \/ (0 <? (if int_value a <? pair_value value u
                          then cmp_sign else - cmp_sign)) = false
                   /\ cmp_order cmp_sign (pair_value value u) (int_value a)).
    { unfold cmp_order.
      destruct S as [-> | ->]; destruct (Z.ltb_spec (int_value a) (pair_value value u));
        cbn; [left|right|right|left]; split; try reflexivity; lia. }
    destruct O as [[-> O]|[-> O]].
    + specialize (IH (val_int a) (unsigned_flag a)).
      destruct (min_max_int_loop cmp_sign rest (val_int a) (unsigned_flag a))
        as [[v' u'] n].
      destruct IH as (I1 & I2 & I3 & I4).
      change (pair_value (val_int a) (unsigned_flag a)) with (int_value a) in I3.
      split; [exact I1|]. split; [|split].
      * right. destruct I2 as [I2|I2]; [left; symmetry; exact I2|right; exact I2].
      * unfold cmp_order in *. destruct (0 <? cmp_sign); lia.
      * constructor; [exact I3|exact I4].
    + specialize (IH value u).
      destruct (min_max_int_loop cmp_sign rest value u) as [[v' u'] n].
      destruct IH as (I1 & I2 & I3 & I4).
      split; [exact I1|]. split; [|split].
      * destruct I2 as [I2|I2]; [left; exact I2|right; right; exact I2].
      * exact I3.
      * constructor; [|exact I4].
        unfold cmp_order in *. destruct (0 <? cmp_sign); lia.
Qed.

Lemma min_max_int_loop_null (cmp_sign : Z) (rest : list Item) :
  forall (value : Z) (u : bool),
    snd (min_max_int_loop cmp_sign rest value u) = existsb null_value rest.
Proof.
  induction rest as [|a rest IH]; intros value u; [reflexivity|].
  cbn [min_max_int_loop existsb]. destruct (null_value a); [reflexivity|].
  cbv zeta. cbn [orb].
  destruct (0 <? (if Integer_value_lt (val_int a) (unsigned_flag a) value u
                  then cmp_sign else - cmp_sign)); apply IH.
Qed.

(** X16.  [Item_func_min_max::val_int] outside the comparison of dates, on
    64-bit arguments, each signed or unsigned.  The result is NULL exactly
    when an argument is NULL, and the session is left untouched.  When no
    argument is NULL, LEAST returns the 64 bits of the smallest of the
    numbers the arguments stand for, read as unsigned when all arguments
    are unsigned and as signed otherwise, and GREATEST those of the
    largest, read as unsigned when some argument is unsigned. *)
Theorem least_greatest_val_int :
  forall (datetime_val_int : M (Z * bool)) (a0 : Item) (rest : list Item)
         (thd : THD),
    Forall (fun a => is_longlong (val_int a)) (a0 :: rest) ->
    let args := a0 :: rest in
    let least := Item_func_min_max_val_int 1 false datetime_val_int a0 rest thd in
    let greatest :=
      Item_func_min_max_val_int (-1) false datetime_val_int a0 rest thd in
    let lo := pair_value (fst (fst least)) (forallb unsigned_flag args) in
    let hi := pair_value (fst (fst greatest)) (existsb unsigned_flag args) in
    snd least = thd /\ snd greatest = thd
    /\ snd (fst least) = existsb null_value args
    /\ snd (fst greatest) = existsb null_value args
    /\ (existsb null_value args = false ->
        In lo (map int_value args) /\ Forall (fun a => lo <= int_value a) args
        /\ In hi (map int_value args)
        /\ Forall (fun a => int_value a <= hi) args).
Proof.
  intros dv a0 rest thd F args least greatest lo hi.
  assert (NL : snd least = thd /\ snd (fst least) = existsb null_value args).
  { subst least args. unfold Item_func_min_max_val_int. cbn [existsb].
    destruct (null_value a0); [split; reflexivity|]. cbn [orb].
    rewrite <- (min_max_int_loop_null 1 rest (val_int a0) (unsigned_flag a0)).
    destruct (min_max_int_loop 1 rest (val_int a0) (unsigned_flag a0))
      as [[v u] n]. split; reflexivity. }
  assert (NG : snd greatest = thd
               /\ snd (fst greatest) = existsb null_value args).
  { subst greatest args. unfold Item_func_min_max_val_int. cbn [existsb].
    destruct (null_value a0); [split; reflexivity|]. cbn [orb].
    rewrite <- (min_max_int_loop_null (-1) rest (val_int a0) (unsigned_flag a0)).
    destruct (min_max_int_loop (-1) rest (val_int a0) (unsigned_flag a0))
      as [[v u] n]. split; reflexivity. }
  destruct NL as [NL1 NL2]. destruct NG as [NG1 NG2].
  split; [exact NL1|]. split; [exact NG1|]. split; [exact NL2|].
  split; [exact NG2|]. intros NN. clear NL1 NL2 NG1 NG2.
  assert (F0 : null_value a0 = false).
  { subst args. cbn in NN. apply orb_false_iff in NN. apply NN. }
  assert (Fn : Forall (fun a => null_value a = false) rest).
  { subst args. cbn in NN. apply orb_false_iff in NN. destruct NN as [_ NN].
    rewrite Forall_forall. intros a Ha.
    destruct (null_value a) eqn:Q; [|reflexivity].
    assert (existsb null_value rest = true)
      by (apply existsb_exists; exists a; split; assumption).
    congruence. }
  assert (Fr : forall v u, In (v, u) (map operand_pair args) ->
                 is_longlong v /\ In (pair_value v u) (map int_value args)
                 /\ In u (map unsigned_flag args)).
  { intros v u Hin. apply in_map_iff in Hin. destruct Hin as (a & E & Ha).
    unfold operand_pair in E. inversion E; subst.
    rewrite Forall_forall in F. split; [apply (F a Ha)|].
    split; apply in_map_iff; exists a; split; auto. }
  pose proof (min_max_int_loop_spec 1 rest (or_introl eq_refl) Fn
                (val_int a0) (unsigned_flag a0)) as L.
  pose proof (min_max_int_loop_spec (-1) rest (or_intror eq_refl) Fn
                (val_int a0) (unsigned_flag a0)) as G.
  subst lo hi least greatest.
  unfold Item_func_min_max_val_int. rewrite F0. cbv iota zeta.
  destruct (min_max_int_loop 1 rest (val_int a0) (unsigned_flag a0))
    as [[vl ul] nl].
  destruct (min_max_int_loop (-1) rest (val_int a0) (unsigned_flag a0))
    as [[vg ug] ng].
  destruct L as (L1 & L2 & L3 & L4). destruct G as (G1 & G2 & G3 & G4).
  unfold ret. cbn [fst snd]. unfold cmp_order in *. cbn [Z.ltb Z.compare] in *.
  change (pair_value (val_int a0) (unsigned_flag a0)) with (int_value a0) in *.
  assert (Pl : In (vl, ul) (map operand_pair args)).
  { destruct L2 as [E|E]; [left; symmetry; exact E|right; exact E]. }
  assert (Pg : In (vg, ug) (map operand_pair args)).
  { destruct G2 as [E|E]; [left; symmetry; exact E|right; exact E]. }
  destruct (Fr _ _ Pl) as (Rl & Il & Ul). destruct (Fr _ _ Pg) as (Rg & Ig & Ug).
  assert (Al : Forall (fun a => pair_value vl ul <= int_value a) args)
    by (constructor; assumption).
  assert (Ag : Forall (fun a => int_value a <= pair_value vg ug) args)
    by (constructor; assumption).
  assert (El : pair_value vl (forallb unsigned_flag args) = pair_value vl ul).
  { destruct (forallb unsigned_flag args) eqn:Q.
    - rewrite forallb_forall in Q. apply in_map_iff in Ul.
      destruct Ul as (a & <- & Ha). rewrite (Q a Ha). reflexivity.
    - destruct ul; [|reflexivity].
      assert (exists a, In a args /\ unsigned_flag a = false) as (s & Hs & Us).
      { clear - Q. induction args as [|b r IH]; [discriminate|].
        cbn in Q. destruct (unsigned_flag b) eqn:B.
        - destruct (IH Q) as (a & Ha & Ua). exists a. split; [right|]; assumption.
        - exists b. split; [left; reflexivity|exact B]. }
      rewrite Forall_forall in Al, F. pose proof (Al s Hs) as Q1.
      pose proof (F s Hs) as Q2. unfold int_value in Q1. rewrite Us in Q1.
      unfold pair_value in *. wrap_lia. }
  assert (Eg : pair_value vg (existsb unsigned_flag args) = pair_value vg ug).
  { destruct (existsb unsigned_flag args) eqn:Q.
    - destruct ug; [reflexivity|].
      apply existsb_exists in Q. destruct Q as (t & Ht & Ut).
      rewrite Forall_forall in Ag. pose proof (Ag t Ht) as Q1.
      unfold int_value in Q1. rewrite Ut in Q1. unfold pair_value in *. wrap_lia.
    - apply in_map_iff in Ug. destruct Ug as (a & <- & Ha).
      assert (unsigned_flag a = false) as ->; [|reflexivity].
      destruct (unsigned_flag a) eqn:B; [|reflexivity].
      assert (existsb unsigned_flag args = true)
        by (apply existsb_exists; exists a; split; assumption).
      congruence. }
  rewrite El, Eg. repeat split; assumption.
Qed.

Lemma least_greatest_val_int_witness :
  In (pair_value
        (fst (fst (Item_func_min_max_val_int 1 false (ret (0, false))
                     (int_item INT_ITEM (-1) true)
                     [int_item INT_ITEM (-1) false; int_item INT_ITEM 5 true]
                     thd0))) false)
     [18446744073709551615; -1; 5]
  /\ Forall (fun a => int_value a
                      <= pair_value
                           (fst (fst (Item_func_min_max_val_int (-1) false
                                        (ret (0, false))
                                        (int_item INT_ITEM (-1) true)
                                        [int_item INT_ITEM (-1) false;
                                         int_item INT_ITEM 5 true] thd0))) true)
       [int_item INT_ITEM (-1) true; int_item INT_ITEM (-1) false;
        int_item INT_ITEM 5 true].
Proof.
  assert (F : Forall (fun a => is_longlong (val_int a))
                [int_item INT_ITEM (-1) true; int_item INT_ITEM (-1) false;
                 int_item INT_ITEM 5 true]).
  { repeat constructor; vm_compute; discriminate. }
  split.
  - apply (proj1 (proj2 (proj2 (proj2 (proj2 (least_greatest_val_int
             (ret (0, false)) _ _ thd0 F)))) eq_refl)).
  - apply (proj2 (proj2 (proj2 (proj2 (proj2 (proj2 (proj2
             (least_greatest_val_int (ret (0, false)) _ _ thd0 F)))) eq_refl)))).
Defined.

Lemma field_index_spec (matches : Item -> bool) (rest : list Item) (i : Z) :
  0 < i ->
  let r := field_index matches rest i in
  (r = 0 /\ forallb (fun a => negb (matches a)) rest = true)
  \/ (exists before a after,
        rest = before ++ a :: after
        /\ forallb (fun a => negb (matches a)) before = true
        /\ matches a = true
        /\ r = i + Z.of_nat (List.length before)).
Proof.
  revert i. induction rest as [|a rest IH]; intros i Hi; cbn [field_index].
  - left. split; reflexivity.
  - destruct (matches a) eqn:Ma.
    + right. exists [], a, rest. cbn. repeat split; auto. lia.
    + destruct (IH (i + 1) ltac:(lia)) as [[R N]|(b & x & af & E & B & Mx & R)].
      * left. split; [exact R|]. cbn. rewrite Ma. exact N.
      * right. exists (a :: b), x, af. cbn [forallb List.length app].
        rewrite Ma, B. repeat split; auto; try (rewrite E; reflexivity).
        rewrite R. lia.
Qed.

(** X17.  [Item_func_field::val_int] in the integer comparison: the
    result is 0 when the first argument is NULL or when no later argument
    is non-null with the same 64 bits as the first (the signedness is not
    looked at); otherwise it is the position, counted from 1, of the first
    such argument.  It never exceeds the number of arguments searched. *)
Theorem field_val_int_first_match :
  forall (str : Type) (val_str : Item -> option str) (sortcmp : str -> str -> Z)
         (my_decimal_cmp : my_decimal -> my_decimal -> Z)
         (a0 : Item) (rest : list Item),
    let r := Item_func_field_val_int str val_str sortcmp my_decimal_cmp
               INT_RESULT a0 rest in
    let matches a := (val_int a0 =? val_int a) && negb (null_value a) in
    0 <= r <= Z.of_nat (List.length rest)
    /\ (null_value a0 = true -> r = 0)
    /\ (null_value a0 = false ->
        (r = 0 /\ forallb (fun a => negb (matches a)) rest = true)
        \/ first_match matches rest r).
Proof.
  intros str val_str sortcmp cmp a0 rest r matches. subst r.
  unfold Item_func_field_val_int. cbv zeta. fold matches.
  destruct (null_value a0).
  - split; [lia|]. split; [reflexivity|discriminate].
  - pose proof (field_index_spec matches rest 1 ltac:(lia)) as S. cbv zeta in S.
    split; [|split; [discriminate|intros _; exact S]].
    destruct S as [[-> _]|(b & x & af & E & _ & _ & ->)]; [lia|].
    rewrite E, length_app. cbn [List.length]. lia.
Qed.

(** X18.  [Item_func_sign::val_int] returns -1, 0 or 1; it returns 0
    exactly for NaN and for the two zeros; the sign of the result of
    [Item_func_neg::real_op] is the opposite of the sign of its operand;
    and the result is NULL exactly when the operand is. *)
Theorem sign_val_int_spec :
  forall (a0 : Item) (thd : THD),
    let s := fst (Item_func_sign_val_int a0) in
    let negated := real_item (fst (fst (Item_func_neg_real_op a0 thd))) in
    (s = -1 \/ s = 0 \/ s = 1)
    /\ fst (Item_func_sign_val_int negated) = - s
    /\ (d_isnan (val_real a0) = true \/ d_eqb (val_real a0) d_zero = true
        <-> s = 0)
    /\ snd (Item_func_sign_val_int a0) = null_value a0.
Proof.
  intros a0 thd s negated. subst s negated.
  unfold Item_func_sign_val_int, Item_func_neg_real_op, ret, real_item.
  cbn [fst snd val_real null_value].
  destruct (val_real a0) as [s|s| |s m e]; try destruct s; cbn;
    repeat split; auto; try lia; try (intros [?|?]; discriminate);
    try (intros; discriminate); try (intros; left; reflexivity);
    try (intros; right; reflexivity).
Qed.

(** ** Subtraction of decimals *)

(** X19.  [Item_func_minus::decimal_op] on non-null operands, whatever
    the subtraction of the decimal library returns: the pointer returned
    is never NULL, and on an unsigned node the decimal returned is never
    negative.  When the library reports success, a negative difference on
    an unsigned node is replaced by zero, the node is NULL when it may be,
    and the out-of-range error is raised; every other difference is
    returned as it is, with the session untouched. *)
Theorem minus_decimal_op_unsigned :
  forall (decimal_sub : my_decimal -> my_decimal -> Z * my_decimal)
         (this : Item_func) (a0 a1 : Item) (thd : THD),
    null_value a0 = false -> null_value a1 = false ->
    let out := Item_func_minus_decimal_op decimal_sub this a0 a1 thd in
    let sub := decimal_sub (val_decimal a0) (val_decimal a1) in
    (exists d, fst (fst out) = Some d
               /\ (this_unsigned_flag this = true -> decimal_sign d = false))
    /\ (fst sub = E_DEC_OK ->
        this_unsigned_flag this && decimal_sign (snd sub) = true ->
        fst out = (Some decimal_zero, maybe_null this)
        /\ raised ER_DATA_OUT_OF_RANGE thd (snd out))
    /\ (fst sub = E_DEC_OK ->
        this_unsigned_flag this && decimal_sign (snd sub) = false ->
        out = ((Some (snd sub), false), thd)).
Proof.
  intros decimal_sub this a0 a1 thd N0 N1 out sub. subst out.
  unfold Item_func_minus_decimal_op, my_decimal_sub. rewrite N0, N1.
  cbv iota zeta. fold sub. destruct sub as [st res]. cbn [fst snd].
  split; [|split].
  - unfold bind, ret.
    destruct (check_result (Z.land E_DEC_FATAL_ERROR (Z.lnot E_DEC_OVERFLOW))
                st thd) as [st' thd1].
    cbn [fst snd].
    destruct (check_decimal_overflow st' thd1) as [err thd2].
    destruct (3 <? err); [eexists; split; reflexivity|].
    destruct (this_unsigned_flag this) eqn:U; cbn [andb].
    + destruct (decimal_sign res) eqn:Sg.
      * destruct (raise_decimal_overflow thd2). eexists. split; reflexivity.
      * eexists. split; [reflexivity|]. intros _. exact Sg.
    + eexists. split; [reflexivity|discriminate].
  - intros -> Q. unfold check_result, check_decimal_overflow, bind, ret.
    cbn [E_DEC_OK E_DEC_FATAL_ERROR E_DEC_OVERFLOW Z.land Z.lnot Z.eqb Z.ltb
         Z.compare Z.pred Z.add Z.opp Pos.eqb fst snd].
    rewrite Q. unfold raise_decimal_overflow, raise_numeric_overflow, my_error,
      push_condition, bind, ret. cbn [fst snd].
    split; [reflexivity|]. eexists. reflexivity.
  - intros -> Q. unfold check_result, check_decimal_overflow, bind, ret.
    cbn [E_DEC_OK E_DEC_FATAL_ERROR E_DEC_OVERFLOW Z.land Z.lnot Z.eqb Z.ltb
         Z.compare Z.pred Z.add Z.opp Pos.eqb fst snd].
    rewrite Q. reflexivity.
Qed.

Lemma minus_decimal_op_unsigned_witness :
  fst (Item_func_minus_decimal_op exact_decimal_sub
         (mk_Item_func DECIMAL_RESULT true 1 4 true)
         (decimal_item (mk_decimal 15 1)) (decimal_item (mk_decimal 2 0)) thd0)
  = (Some decimal_zero, true)
  /\ Item_func_minus_decimal_op exact_decimal_sub
       (mk_Item_func DECIMAL_RESULT false 1 4 true)
       (decimal_item (mk_decimal 15 1)) (decimal_item (mk_decimal 2 0)) thd0
     = ((Some (mk_decimal (-5) 1), false), thd0).
Proof.
  split.
  - apply (proj1 (proj1 (proj2 (minus_decimal_op_unsigned exact_decimal_sub
             (mk_Item_func DECIMAL_RESULT true 1 4 true)
             (decimal_item (mk_decimal 15 1)) (decimal_item (mk_decimal 2 0))
             thd0 eq_refl eq_refl)) eq_refl eq_refl)).
  - apply (proj2 (proj2 (minus_decimal_op_unsigned exact_decimal_sub
             (mk_Item_func DECIMAL_RESULT false 1 4 true)
             (decimal_item (mk_decimal 15 1)) (decimal_item (mk_decimal 2 0))
             thd0 eq_refl eq_refl)) eq_refl eq_refl).
Defined.

(** ** Traversal of an expression tree *)

Section TraversalFacts.

Variable basic : Type.

Variable A : Type.

Variable traverser : item_tree basic -> A -> A.

Variable processor : item_tree basic -> A -> bool * A.

Lemma traverse_args_fold (order : traverse_order)
  (nodes : item_tree basic -> list (item_tree basic))
  (args : list (item_tree basic)) :
  Forall (fun x => forall a, Item_traverse_cond traverser order x a
                             = fold_left (fun a n => traverser n a) (nodes x) a)
         args ->
  forall a,
    fold_left (fun argument x => Item_traverse_cond traverser order x argument)
              args a
    = fold_left (fun a n => traverser n a) (flat_map nodes args) a.
Proof.
  induction 1 as [|x r Hx F IH]; intros a; [reflexivity|].
  cbn [fold_left flat_map]. rewrite fold_left_app, Hx. apply IH.
Qed.

Lemma flat_map_Permutation (f g : item_tree basic -> list (item_tree basic))
  (l : list (item_tree basic)) :
  Forall (fun x => Permutation (f x) (g x)) l ->
  Permutation (flat_map f l) (flat_map g l).
Proof.
  induction 1 as [|x r Hx F IH]; [constructor|].
  cbn [flat_map]. apply Permutation_app; assumption.
Qed.

Lemma traverse_cond_prefix (t : item_tree basic) :
  forall a, Item_traverse_cond traverser PREFIX t a
            = fold_left (fun a n => traverser n a) (prefix_nodes t) a.
Proof.
  induction t as [addr b|addr ft name args cls IH] using item_tree_forall_ind;
    intros a; [reflexivity|].
  cbn [Item_traverse_cond prefix_nodes fold_left].
  destruct args as [|x r]; [reflexivity|].
  apply (traverse_args_fold PREFIX prefix_nodes (x :: r) IH).
Qed.

Lemma traverse_cond_postfix (t : item_tree basic) :
  forall a, Item_traverse_cond traverser POSTFIX t a
            = fold_left (fun a n => traverser n a) (postfix_nodes t) a.
Proof.
  induction t as [addr b|addr ft name args cls IH] using item_tree_forall_ind;
    intros a; [reflexivity|].
  cbn [Item_traverse_cond postfix_nodes].
  destruct args as [|x r]; [reflexivity|].
  rewrite fold_left_app. cbn [fold_left]. f_equal.
  apply (traverse_args_fold POSTFIX postfix_nodes (x :: r) IH).
Qed.

Lemma prefix_postfix_Permutation (t : item_tree basic) :
  Permutation (prefix_nodes t) (postfix_nodes t).
Proof.
  induction t as [addr b|addr ft name args cls IH] using item_tree_forall_ind;
    [apply Permutation_refl|].
  cbn [prefix_nodes postfix_nodes].
  apply Permutation_cons_app. rewrite app_nil_r.
  apply flat_map_Permutation. exact IH.
Qed.

(** X20.  [Item_func::traverse_cond] hands every node of the tree to the
    traverser exactly once, threading the argument through the calls: in
    the order [PREFIX] a node comes before the nodes of its arguments
    (the root is first), in the order [POSTFIX] after them (the root is
    last), and the two orders visit the same nodes. *)
Theorem traverse_cond_visits_each_node_once :
  forall (t : item_tree basic) (argument : A),
    Item_traverse_cond traverser PREFIX t argument
    = fold_left (fun a n => traverser n a) (prefix_nodes t) argument
    /\ Item_traverse_cond traverser POSTFIX t argument
       = fold_left (fun a n => traverser n a) (postfix_nodes t) argument
    /\ Permutation (prefix_nodes t) (postfix_nodes t)
    /\ hd_error (prefix_nodes t) = Some t
    /\ last (postfix_nodes t) t = t.
Proof.
  intros t a. split; [apply traverse_cond_prefix|].
  split; [apply traverse_cond_postfix|].
  split; [apply prefix_postfix_Permutation|].
  split; [destruct t; reflexivity|].
  destruct t as [addr b|addr ft name args]; [reflexivity|].
  cbn [postfix_nodes]. apply last_last.
Qed.

Lemma process_until_app (l1 l2 : list (item_tree basic)) (a : A) :
  process_until processor (l1 ++ l2) a
  = (let (stop, a') := process_until processor l1 a in
     if stop then (true, a') else process_until processor l2 a').
Proof.
  revert a. induction l1 as [|n r IH]; intros a; [reflexivity|].
  cbn [app process_until]. destruct (processor n a) as [[|] a']; [reflexivity|].
  apply IH.
Qed.

(** X21.  [Item_func::walk] applies the processor, threading the
    argument through the calls, to the nodes of the tree in order (a
    function node before its arguments when [WALK_PREFIX] is set, after
    them when [WALK_POSTFIX] is set, an item that is not a function
    always) and stops at the first node for which the processor
    succeeds: it returns true exactly when the processor succeeded. *)
Theorem walk_stops_at_first_success :
  forall (walk : Z) (t : item_tree basic) (argument : A),
    Item_walk processor walk t argument
    = process_until processor (walk_nodes walk t) argument.
Proof.
  intros walk t.
  induction t as [addr b|addr ft name args cls IH] using item_tree_forall_ind;
    intros a.
  - cbn [Item_walk walk_nodes process_until].
    destruct (processor (Basic_item addr b) a) as [[|] a']; reflexivity.
  - cbn [Item_walk walk_nodes]. cbv zeta.
    set (loop := fix walk_args (l : list (item_tree basic)) (argument : A)
                   {struct l} : bool * A :=
                   match l with
                   | [] => (false, argument)
                   | x :: r =>
                       let (stop, argument0) :=
                         Item_walk processor walk x argument in
                       if stop then (true, argument0) else walk_args r argument0
                   end).
    assert (L : forall a, loop args a
                = process_until processor (flat_map (walk_nodes walk) args) a).
    { clear a. induction IH as [|x r Hx F IHr]; intros a; [reflexivity|].
      cbn [flat_map]. rewrite process_until_app. cbn [loop]. fold loop.
      rewrite Hx. destruct (process_until processor (walk_nodes walk x) a)
        as [[|] a']; [reflexivity|apply IHr]. }
    rewrite process_until_app.
    destruct (negb (Z.land walk WALK_PREFIX =? 0)).
    + cbn [process_until]. destruct (processor _ a) as [[|] a1]; cbn [fst snd];
        [reflexivity|].
      rewrite process_until_app, L.
      destruct (process_until processor _ a1) as [[|] a2];
        cbn [fst snd]; [reflexivity|].
      destruct (negb (Z.land walk WALK_POSTFIX =? 0)); [|reflexivity].
      cbn [process_until]. destruct (processor _ a2) as [[|] a3]; reflexivity.
    + cbn [process_until fst snd].
      rewrite process_until_app, L.
      destruct (process_until processor _ a) as [[|] a2];
        cbn [fst snd]; [reflexivity|].
      destruct (negb (Z.land walk WALK_POSTFIX =? 0)); [|reflexivity].
      cbn [process_until]. destruct (processor _ a2) as [[|] a3]; reflexivity.
Qed.

End TraversalFacts.
